(** * OffSec AI companion: the generation-serving core

  A shallow embedding of the concurrency gate ([services/queue.ts]), the
  response cache ([services/cache.ts]), the provider fallback chain and the
  embedding service ([services/ai.ts]) and the RAG pipeline with its output
  parser ([mcp/rag/index.ts]), followed by the properties established for
  them.

  Conventions.  JavaScript numbers that hold timestamps, counters and HTTP
  status codes are integers and are modelled in [Z]; numbers that hold
  similarities, confidences and embedding coordinates are IEEE-754 doubles
  and are modelled by the primitive [float].  A JavaScript string is modelled
  by [string], one character per code unit (code units below 256 only).
  Module-level mutable state is passed explicitly; [Date.now()] and the
  answers of the network are inputs. *)

From Stdlib Require Import List ZArith Lia Bool Arith String Ascii Floats.
From Stdlib Require Import DecimalString Sorted.
Import ListNotations.

Set Implicit Arguments.
Set Warnings "-inexact-float".

(* ================================================================== *)
(** * Part I: the program                                              *)
(* ================================================================== *)

(** ** JavaScript strings *)

Module Js.

Local Open Scope string_scope.

(** [\s] of the regular-expression engine and of [trim], restricted to
    code units below 256. *)
Definition isWhitespace (a : ascii) : bool :=
  let n := nat_of_ascii a in
  ((9 <=? n)%nat && (n <=? 13)%nat) || (n =? 32)%nat || (n =? 160)%nat.

Fixpoint trimStart (s : string) : string :=
  match s with
  | String a rest => if isWhitespace a then trimStart rest else s
  | EmptyString => EmptyString
  end.

Fixpoint rev_onto (s acc : string) : string :=
  match s with
  | String a rest => rev_onto rest (String a acc)
  | EmptyString => acc
  end.

Definition reverse (s : string) : string := rev_onto s EmptyString.

Definition trimEnd (s : string) : string := reverse (trimStart (reverse s)).

Definition trim (s : string) : string := trimEnd (trimStart s).

Definition lowerChar (a : ascii) : ascii :=
  let n := nat_of_ascii a in
  if ((65 <=? n)%nat && (n <=? 90)%nat)
     || ((192 <=? n)%nat && (n <=? 222)%nat && negb (n =? 215)%nat)
  then ascii_of_nat (n + 32) else a.

Fixpoint toLowerCase (s : string) : string :=
  match s with
  | String a rest => String (lowerChar a) (toLowerCase rest)
  | EmptyString => EmptyString
  end.

Fixpoint startsWith (s p : string) : bool :=
  match p, s with
  | EmptyString, _ => true
  | String b p', String a s' => Ascii.eqb a b && startsWith s' p'
  | String _ _, EmptyString => false
  end.

Fixpoint includes (s needle : string) : bool :=
  startsWith s needle
  || match s with
     | String _ rest => includes rest needle
     | EmptyString => false
     end.

(** [split] on runs of whitespace: the pieces between maximal runs; a
    leading or trailing run yields an empty first or last piece. *)
Fixpoint splitWsFrom (s : string) (cur : string) (inRun : bool) : list string :=
  match s with
  | EmptyString => [reverse cur]
  | String a rest =>
      if isWhitespace a
      then if inRun then splitWsFrom rest cur true
           else reverse cur :: splitWsFrom rest EmptyString true
      else splitWsFrom rest (String a cur) false
  end.

Definition splitWhitespace (s : string) : list string :=
  splitWsFrom s EmptyString false.

(** [s.slice(0, n)] for [0 <= n]. *)
Definition sliceTo (n : nat) (s : string) : string := substring 0 n s.

(** [s.slice(-n)] on arrays, [xs.slice(0, n)] on arrays. *)
Definition lastn {A} (n : nat) (xs : list A) : list A :=
  skipn (List.length xs - n) xs.

Fixpoint join (sep : string) (xs : list string) : string :=
  match xs with
  | [] => EmptyString
  | [x] => x
  | x :: rest => x ++ sep ++ join sep rest
  end.

(** Truthiness of a string: only the empty string is falsy. *)
Definition truthy (s : string) : bool :=
  match s with EmptyString => false | String _ _ => true end.

(** A string that is empty or holds whitespace only. *)
Definition isBlank (s : string) : bool :=
  match trim s with EmptyString => true | String _ _ => false end.

Definition newline : string := String (ascii_of_nat 10) EmptyString.

(** *** Thrown values and settled promises *)

Inductive Code :=
| CNum (n : Z)
| CStr (s : string).

Record ErrorBody := mkErrorBody {
  body_code : option Code;
  body_message : option string
}.

Inductive Thrown :=
| ThrownError (msg : string) (st : option Z) (cd : option Code)
              (body : option ErrorBody)        (* [instanceof Error] *)
| ThrownMCPError (errName mcp errCode msg : string)
                                               (* [instanceof MCPError] *)
| ThrownObject (st : option Z) (cd : option Code) (msg : option string)
               (body : option ErrorBody)       (* any other object *)
| ThrownString (s : string)
| ThrownOther.                                 (* another primitive *)

Definition TypeError : Thrown := ThrownError "TypeError" None None None.
Definition SyntaxError : Thrown := ThrownError "SyntaxError" None None None.

(** How a computation that may throw, or an [async] function, ends. *)
Inductive Settled (A : Type) :=
| Fulfilled (a : A)
| RejectedWith (e : Thrown).
Arguments Fulfilled {A} a.
Arguments RejectedWith {A} e.

Definition bind {A B} (m : Settled A) (k : A -> Settled B) : Settled B :=
  match m with
  | Fulfilled a => k a
  | RejectedWith e => RejectedWith e
  end.

(** [try { m } catch { h }] *)
Definition tryCatch {A} (m : Settled A) (h : Thrown -> Settled A) : Settled A :=
  match m with
  | Fulfilled a => Fulfilled a
  | RejectedWith e => h e
  end.

End Js.

(** ** services/queue.ts: the LLM request queue *)

Module Queue.

(** A waiter is the [resolve] closure of one suspended [acquire()] call; it
    is identified by the call that created it. *)
Definition caller := nat.

Record LLMQueue := mkQueue {
  running : Z;
  waiting : list caller;
  maxConcurrent : Z
}.

(** [export const llmQueue = new LLMQueue(2)] *)
Definition llmQueue : LLMQueue :=
  {| running := 0; waiting := []; maxConcurrent := 2 |}.

(** [acquire()]: the flag tells whether the returned promise is already
    resolved ([true]) or pending on the wait list ([false]). *)
Definition acquire (c : caller) (q : LLMQueue) : LLMQueue * bool :=
  if (running q <? maxConcurrent q)%Z
  then ({| running := running q + 1; waiting := waiting q;
           maxConcurrent := maxConcurrent q |}, true)
  else ({| running := running q; waiting := waiting q ++ [c];
           maxConcurrent := maxConcurrent q |}, false).

(** [release()]: [waiting.shift()], then either resolve that waiter or
    decrement [running].  The second component is the waiter resolved. *)
Definition release (q : LLMQueue) : LLMQueue * option caller :=
  match waiting q with
  | next :: rest =>
      ({| running := running q; waiting := rest;
          maxConcurrent := maxConcurrent q |}, Some next)
  | [] =>
      ({| running := (running q - 1)%Z; waiting := [];
          maxConcurrent := maxConcurrent q |}, None)
  end.

(** [get stats()] *)
Definition stats (q : LLMQueue) : Z * nat * Z :=
  (running q, List.length (waiting q), maxConcurrent q).

(** *** Interleavings of [acquire] and [release]

    The queue together with a record of who was granted a slot and has not
    released it yet, and the histories of enqueued and resumed waiters. *)

Record Gate := mkGate {
  queue : LLMQueue;
  holders : list caller;
  enqueued : list caller;
  resumed : list caller
}.

Definition llmGate : Gate :=
  {| queue := llmQueue; holders := []; enqueued := []; resumed := [] |}.

Inductive event :=
| Acquire (c : caller)
| Release (c : caller).

Fixpoint remove_one (c : caller) (xs : list caller) : list caller :=
  match xs with
  | [] => []
  | x :: rest => if Nat.eqb x c then rest else x :: remove_one c rest
  end.

Fixpoint member (c : caller) (xs : list caller) : bool :=
  match xs with
  | [] => false
  | x :: rest => Nat.eqb x c || member c rest
  end.

Definition step (g : Gate) (e : event) : Gate :=
  match e with
  | Acquire c =>
      let (q, granted) := acquire c (queue g) in
      if granted
      then {| queue := q; holders := holders g ++ [c];
              enqueued := enqueued g; resumed := resumed g |}
      else {| queue := q; holders := holders g;
              enqueued := enqueued g ++ [c]; resumed := resumed g |}
  | Release c =>
      match release (queue g) with
      | (q, Some next) =>
          {| queue := q; holders := remove_one c (holders g) ++ [next];
             enqueued := enqueued g; resumed := resumed g ++ [next] |}
      | (q, None) =>
          {| queue := q; holders := remove_one c (holders g);
             enqueued := enqueued g; resumed := resumed g |}
      end
  end.

(** A release is legitimate when its caller holds a slot. *)
Definition legitimate (g : Gate) (e : event) : bool :=
  match e with
  | Acquire _ => true
  | Release c => member c (holders g)
  end.

Fixpoint run (g : Gate) (es : list event) : Gate :=
  match es with
  | [] => g
  | e :: rest => run (step g e) rest
  end.

Fixpoint legitimate_run (g : Gate) (es : list event) : bool :=
  match es with
  | [] => true
  | e :: rest => legitimate g e && legitimate_run (step g e) rest
  end.

End Queue.

(** ** services/cache.ts: the response cache *)

Module Cache.

Record CacheEntry := mkEntry {
  value : string;
  expiresAt : Z
}.

(** A [Map<string, CacheEntry>]: distinct keys in insertion order. *)
Definition Store := list (string * CacheEntry).

Definition DEFAULT_TTL_MS : Z := 5 * 60 * 1000.
Definition MAX_ENTRIES : nat := 200.

Fixpoint map_get (key : string) (m : Store) : option CacheEntry :=
  match m with
  | [] => None
  | (k, e) :: rest => if String.eqb k key then Some e else map_get key rest
  end.

Fixpoint map_delete (key : string) (m : Store) : Store :=
  match m with
  | [] => []
  | (k, e) :: rest =>
      if String.eqb k key then rest else (k, e) :: map_delete key rest
  end.

(** [Map.prototype.set]: an existing key keeps its position, a new key goes
    to the end. *)
Fixpoint map_set (key : string) (entry : CacheEntry) (m : Store) : Store :=
  match m with
  | [] => [(key, entry)]
  | (k, e) :: rest =>
      if String.eqb k key then (k, entry) :: rest
      else (k, e) :: map_set key entry rest
  end.

Definition size (m : Store) : nat := List.length m.

Definition keys (m : Store) : list string := List.map fst m.

(** [getCached(key)] at time [now]. *)
Definition getCached (now : Z) (key : string) (cache : Store)
  : option string * Store :=
  match map_get key cache with
  | None => (None, cache)
  | Some entry =>
      if (expiresAt entry <? now)%Z
      then (None, map_delete key cache)
      else (Some (value entry), map_set key entry (map_delete key cache))
  end.

(** [setCache(key, value, ttlMs)] at time [now].  [cache.keys().next().value]
    is the first key, and [if (lruKey)] tests its truthiness. *)
Definition setCache (now : Z) (key val : string) (ttlMs : Z) (cache : Store)
  : Store :=
  let cache1 :=
    if (MAX_ENTRIES <=? size cache)%nat
    then match keys cache with
         | lruKey :: _ =>
             if Js.truthy lruKey then map_delete lruKey cache else cache
         | [] => cache
         end
    else cache in
  map_set key {| value := val; expiresAt := (now + ttlMs)%Z |} cache1.

(** [makeCacheKey(command, query, level)] *)
Definition makeCacheKey (command query level : string) : string :=
  (command ++ ":" ++ level ++ ":" ++ Js.trim (Js.toLowerCase query))%string.

(** Sequences of cache operations, each with the time at which it runs. *)
(** The body of the [setInterval] callback at time [now]. *)
Definition cleanup (now : Z) (cache : Store) : Store :=
  filter (fun kv => negb (expiresAt (snd kv) <? now)%Z) cache.

Inductive op :=
| Get (now : Z) (key : string)
| Set_ (now : Z) (key val : string) (ttlMs : Z)
| Sweep (now : Z).

Definition apply (cache : Store) (o : op) : Store :=
  match o with
  | Get now key => snd (getCached now key cache)
  | Set_ now key val ttl => setCache now key val ttl cache
  | Sweep now => cleanup now cache
  end.

Definition run (cache : Store) (ops : list op) : Store :=
  fold_left apply ops cache.

Definition written_key (o : op) : option string :=
  match o with
  | Set_ _ key _ _ => Some key
  | _ => None
  end.

End Cache.

(** ** services/ai.ts: provider fallback chain and embeddings *)

Module AI.

Import Queue.
Export Js.
Local Open Scope string_scope.

(** [interface ApiError] *)
Record ApiError := mkApiError {
  status : option Z;
  code : option Code;
  message : option string;
  error : option ErrorBody
}.

Definition asApiError (err : Thrown) : ApiError :=
  match err with
  | ThrownError msg st cd body =>
      {| status := st; code := cd; message := Some msg; error := body |}
  | ThrownMCPError _ _ cd msg =>
      {| status := None; code := Some (CStr cd); message := Some msg;
         error := None |}
  | ThrownObject st cd msg body =>
      {| status := st; code := cd; message := msg; error := body |}
  | ThrownString _ | ThrownOther =>
      {| status := None; code := None; message := None; error := None |}
  end.

(** [getErrorMessage] of utils/errors.ts *)
Definition getErrorMessage (err : option Thrown) : string :=
  match err with
  | Some (ThrownError msg _ _ _) => msg
  | Some (ThrownMCPError _ _ _ msg) => msg
  | Some (ThrownString s) => s
  | _ => "Unknown error"
  end.

(** [new MCPError(mcp, code, message)] of utils/errors.ts *)
Definition MCPError (mcp errCode msg : string) : Thrown :=
  ThrownMCPError "MCPError" mcp errCode msg.

(** [new LLMError(mcp, message)]: an [MCPError] with the code
    [LLM_CALL_FAILED], renamed. *)
Definition LLMError (mcp msg : string) : Thrown :=
  ThrownMCPError "LLMError" mcp "LLM_CALL_FAILED" msg.

(** *** Providers *)

Inductive ProviderSlot :=
| gemini1 | gemini2 | gemini3 | gemini4 | gemini5 | gemini6.

Definition slot_eqb (a b : ProviderSlot) : bool :=
  match a, b with
  | gemini1, gemini1 | gemini2, gemini2 | gemini3, gemini3
  | gemini4, gemini4 | gemini5, gemini5 | gemini6, gemini6 => true
  | _, _ => false
  end.

(** [interface ProviderState], without the SDK client. *)
Record ProviderState := mkProvider {
  model : string;
  name : string;
  rateLimitedUntil : Z;
  isActive : bool
}.

Definition REQUEST_TIMEOUT_MS : Z := 30000.
Definition RATE_LIMIT_COOLDOWN_MS : Z := 30000.

Record SlotConfig := mkSlot {
  apiKey : string;
  slotModel : string
}.

(** The part of [config.ai] that the service reads. *)
Record AiConfig := mkAiConfig {
  slots : ProviderSlot -> SlotConfig;
  embeddingApiKey : string;
  embeddingModel : string
}.

Definition buildProvider (slot : SlotConfig) (nm : string) : ProviderState :=
  {| model := slotModel slot;
     name := nm;
     rateLimitedUntil := 0;
     isActive := Js.truthy (apiKey slot) && Js.truthy (slotModel slot) |}.

(** [Record<ProviderSlot, ProviderState>] *)
Record Providers := mkProviders {
  at1 : ProviderState; at2 : ProviderState; at3 : ProviderState;
  at4 : ProviderState; at5 : ProviderState; at6 : ProviderState
}.

Definition lookup (ps : Providers) (key : ProviderSlot) : ProviderState :=
  match key with
  | gemini1 => at1 ps | gemini2 => at2 ps | gemini3 => at3 ps
  | gemini4 => at4 ps | gemini5 => at5 ps | gemini6 => at6 ps
  end.

Definition update (key : ProviderSlot) (f : ProviderState -> ProviderState)
           (ps : Providers) : Providers :=
  match key with
  | gemini1 => mkProviders (f (at1 ps)) (at2 ps) (at3 ps) (at4 ps) (at5 ps) (at6 ps)
  | gemini2 => mkProviders (at1 ps) (f (at2 ps)) (at3 ps) (at4 ps) (at5 ps) (at6 ps)
  | gemini3 => mkProviders (at1 ps) (at2 ps) (f (at3 ps)) (at4 ps) (at5 ps) (at6 ps)
  | gemini4 => mkProviders (at1 ps) (at2 ps) (at3 ps) (f (at4 ps)) (at5 ps) (at6 ps)
  | gemini5 => mkProviders (at1 ps) (at2 ps) (at3 ps) (at4 ps) (f (at5 ps)) (at6 ps)
  | gemini6 => mkProviders (at1 ps) (at2 ps) (at3 ps) (at4 ps) (at5 ps) (f (at6 ps))
  end.

Definition providers (cfg : AiConfig) : Providers :=
  {| at1 := buildProvider (slots cfg gemini1) "Gemini 3 Flash";
     at2 := buildProvider (slots cfg gemini2) "Gemini 2.5 Flash";
     at3 := buildProvider (slots cfg gemini3) "Gemini 2.5 Flash Lite A";
     at4 := buildProvider (slots cfg gemini4) "Gemini 2.5 Flash Lite B";
     at5 := buildProvider (slots cfg gemini5) "Gemini 2.5 Flash Lite C";
     at6 := buildProvider (slots cfg gemini6) "Gemini 2.5 Flash Lite D" |}.

Definition allSlots : list ProviderSlot :=
  [gemini1; gemini2; gemini3; gemini4; gemini5; gemini6].

(** A module-level constant: computed once, from the providers as built. *)
Definition PROVIDER_PRIORITY (cfg : AiConfig) : list ProviderSlot :=
  filter (fun key => isActive (lookup (providers cfg) key)) allSlots.

Definition setRateLimitedUntil (t : Z) (p : ProviderState) : ProviderState :=
  {| model := model p; name := name p; rateLimitedUntil := t;
     isActive := isActive p |}.

Definition setIsActive (b : bool) (p : ProviderState) : ProviderState :=
  {| model := model p; name := name p;
     rateLimitedUntil := rateLimitedUntil p; isActive := b |}.

(** [markRateLimited(key)], with [Date.now()] read as [now]. *)
Definition markRateLimited (now : Z) (key : ProviderSlot) (ps : Providers)
  : Providers :=
  update key (setRateLimitedUntil (now + RATE_LIMIT_COOLDOWN_MS)%Z) ps.

(** [Array.prototype.reduce] without an initial value. *)
Definition reduce1 {A} (f : A -> A -> A) (xs : list A) : option A :=
  match xs with
  | [] => None
  | x :: rest => Some (fold_left f rest x)
  end.

(** [getActiveProvider()] at time [now]; [None] stands for the [TypeError]
    of [reduce] on an empty array. *)
Fixpoint firstAvailable (now : Z) (keys : list ProviderSlot) (ps : Providers)
  : option ProviderSlot * Providers :=
  match keys with
  | [] => (None, ps)
  | key :: rest =>
      let p := lookup ps key in
      if (0 <? rateLimitedUntil p)%Z
      then if (rateLimitedUntil p <=? now)%Z
           then (Some key, update key (setRateLimitedUntil 0) ps)
           else firstAvailable now rest ps
      else (Some key, ps)
  end.

Definition getActiveProvider (cfg : AiConfig) (now : Z) (ps : Providers)
  : option ProviderSlot * Providers :=
  match firstAvailable now (PROVIDER_PRIORITY cfg) ps with
  | (Some key, ps') => (Some key, ps')
  | (None, ps') =>
      (reduce1 (fun a b =>
                  if (rateLimitedUntil (lookup ps' a)
                        <=? rateLimitedUntil (lookup ps' b))%Z
                  then a else b)
               (PROVIDER_PRIORITY cfg), ps')
  end.

(** *** One provider call as seen by [generateCompletion] *)

Inductive Outcome :=
| Resolved (content : option string)   (* [choices[0]?.message?.content] *)
| Rejected (e : Thrown).

Record Observation := mkObservation {
  now : Z;           (* [Date.now()] at the cooldown test *)
  outcome : Outcome; (* what [chat.completions.create] settles to *)
  failedAt : Z       (* [Date.now()] inside [markRateLimited] *)
}.

(** [apiErr.status ?? apiErr.code ?? apiErr.error?.code] *)
Definition errorStatus (apiErr : ApiError) : option Code :=
  match status apiErr with
  | Some n => Some (CNum n)
  | None =>
      match code apiErr with
      | Some c => Some c
      | None =>
          match error apiErr with
          | Some body => body_code body
          | None => None
          end
      end
  end.

(** [apiErr.error?.message ?? apiErr.message ?? 'Unknown error'] *)
Definition errorMessage (apiErr : ApiError) : string :=
  match match error apiErr with
        | Some body => body_message body
        | None => None
        end with
  | Some m => m
  | None =>
      match message apiErr with
      | Some m => m
      | None => "Unknown error"
      end
  end.

Definition statusIs (n : Z) (st : option Code) : bool :=
  match st with
  | Some (CNum m) => (m =? n)%Z
  | _ => false
  end.

Inductive ErrorType :=
| rate_limit | payment_required | server_error | timeout | connection | other.

Definition errorType (apiErr : ApiError) : ErrorType :=
  let st := errorStatus apiErr in
  let msg := errorMessage apiErr in
  if statusIs 429 st then rate_limit
  else if statusIs 402 st then payment_required
  else if statusIs 500 st || statusIs 502 st || statusIs 503 st then server_error
  else if Js.includes msg "timeout" || Js.includes msg "ETIMEDOUT" then timeout
  else if Js.includes msg "ECONNRESET" || Js.includes msg "ECONNREFUSED"
          || Js.includes msg "fetch failed" || Js.includes msg "socket hang up"
       then connection
       else other.

(** The state change of the [catch] block. *)
Definition recordFailure (t : Z) (key : ProviderSlot) (e : Thrown)
           (ps : Providers) : Providers :=
  let st := errorStatus (asApiError e) in
  if statusIs 429 st || statusIs 402 st then markRateLimited t key ps
  else if statusIs 404 st then update key (setIsActive false) ps
  else ps.

(** One turn of the [for (const key of PROVIDER_PRIORITY)] loop. *)
Inductive Turn :=
| Skip                                         (* [continue] before attempting *)
| Return (ps : Providers) (text : string)      (* [return text] *)
| Next (ps : Providers) (lastError : option Thrown). (* [continue] after attempting *)

(** Up to the [await]: the cooldown test at time [t].  [None] is the
    [continue] of a provider still cooling; otherwise the provider is about
    to be attempted, its expired cooldown cleared. *)
Definition beginTurn (t : Z) (key : ProviderSlot) (ps : Providers)
  : option Providers :=
  let provider := lookup ps key in
  if (0 <? rateLimitedUntil provider)%Z
  then if (rateLimitedUntil provider <=? t)%Z
       then Some (update key (setRateLimitedUntil 0) ps)
       else None
  else Some ps.

(** From the [await] on: the call settles to [out]; [t] is the time read by
    [markRateLimited]. *)
Definition endTurn (out : Outcome) (t : Z) (key : ProviderSlot)
           (ps : Providers) (lastError : option Thrown) : Turn :=
  match out with
  | Resolved (Some text) =>
      if Js.truthy text then Return ps text else Next ps lastError
  | Resolved None => Next ps lastError
  | Rejected e => Next (recordFailure t key e ps) (Some e)
  end.

Definition turn (o : Observation) (key : ProviderSlot) (ps : Providers)
           (lastError : option Thrown) : Turn :=
  match beginTurn (now o) key ps with
  | None => Skip
  | Some ps1 => endTurn (outcome o) (failedAt o) key ps1 lastError
  end.

(** What the caller of one [generateCompletion] observes, with the list of
    providers on which [create] was called. *)
Record Run := mkRun {
  settled : Settled string;
  after : Providers;
  attempted : list ProviderSlot
}.

(** The error thrown after the loop. *)
Definition exhausted (lastError : option Thrown) : Thrown :=
  LLMError "all"
    match lastError with
    | Some (ThrownError msg _ _ _) => msg
    | Some (ThrownMCPError _ _ _ msg) => msg
    | _ => "All LLM providers failed"
    end.

(** The body of the [try] block: the loop and the final [throw]. *)
Fixpoint providerLoop (env : ProviderSlot -> Observation)
         (keys : list ProviderSlot) (ps : Providers)
         (tried : list ProviderSlot) (lastError : option Thrown) : Run :=
  match keys with
  | [] => {| settled := RejectedWith (exhausted lastError);
             after := ps; attempted := tried |}
  | key :: rest =>
      match turn (env key) key ps lastError with
      | Skip => providerLoop env rest ps tried lastError
      | Return ps' text =>
          {| settled := Fulfilled text; after := ps';
             attempted := tried ++ [key] |}
      | Next ps' lastError' =>
          providerLoop env rest ps' (tried ++ [key]) lastError'
      end
  end.

(** The process-wide state the service mutates. *)
Record World := mkWorld {
  store : Providers;
  gate : LLMQueue
}.

Definition boot (cfg : AiConfig) : World :=
  {| store := providers cfg; gate := llmQueue |}.

(** [generateCompletion] run without interleaving: when the queue grants
    the slot at once the loop runs and the [finally] block releases;
    otherwise the call stays suspended in [acquire] ([None]). *)
Definition generateCompletion (cfg : AiConfig)
           (env : ProviderSlot -> Observation) (c : caller) (w : World)
  : option (Run * World) :=
  let (q1, granted) := acquire c (gate w) in
  if granted
  then let r := providerLoop env (PROVIDER_PRIORITY cfg) (store w) [] None in
       Some (r, {| store := after r; gate := fst (release q1) |})
  else None.

(** *** Interleaved calls of [generateCompletion]

    Calls suspend at [await llmQueue.acquire()] and at the [await] of each
    provider call; between two suspension points a call runs alone. *)

Inductive Phase :=
| Suspended                               (* pending in [acquire] *)
| InLoop (todo tried : list ProviderSlot) (lastError : option Thrown)
| Awaiting (key : ProviderSlot) (todo tried : list ProviderSlot)
           (lastError : option Thrown)     (* pending in [create] *)
| Done (r : Settled string) (tried : list ProviderSlot).

Record Pool := mkPool {
  shared : World;
  calls : list (caller * Phase)
}.

Definition start (cfg : AiConfig) : Pool :=
  {| shared := boot cfg; calls := [] |}.

Fixpoint phaseOf (c : caller) (cs : list (caller * Phase)) : option Phase :=
  match cs with
  | [] => None
  | (c', ph) :: rest => if Nat.eqb c' c then Some ph else phaseOf c rest
  end.

Fixpoint setPhase (c : caller) (ph : Phase) (cs : list (caller * Phase))
  : list (caller * Phase) :=
  match cs with
  | [] => []
  | (c', ph') :: rest =>
      if Nat.eqb c' c then (c', ph) :: rest
      else (c', ph') :: setPhase c ph rest
  end.

(** A call leaves its [try] block, by [return] or by [throw]: the [finally]
    block releases, and a waiter that is handed the slot enters the loop. *)
Definition leave (cfg : AiConfig) (c : caller) (r : Settled string)
           (tried : list ProviderSlot) (ps : Providers) (pl : Pool) : Pool :=
  let (q, woken) := release (gate (shared pl)) in
  let cs := setPhase c (Done r tried) (calls pl) in
  {| shared := {| store := ps; gate := q |};
     calls := match woken with
              | Some w => setPhase w (InLoop (PROVIDER_PRIORITY cfg) [] None) cs
              | None => cs
              end |}.

Inductive Action :=
| Invoke (c : caller)                     (* a new call, up to [acquire] *)
| Advance (c : caller) (t : Z)            (* loop head of a call, at time [t] *)
| Deliver (c : caller) (out : Outcome) (t : Z). (* a provider call settles *)

(** [None]: the action is not enabled in this state. *)
Definition act (cfg : AiConfig) (pl : Pool) (a : Action) : option Pool :=
  match a with
  | Invoke c =>
      match phaseOf c (calls pl) with
      | Some _ => None
      | None =>
          let (q, granted) := acquire c (gate (shared pl)) in
          Some {| shared := {| store := store (shared pl); gate := q |};
                  calls := calls pl ++
                    [(c, if granted
                         then InLoop (PROVIDER_PRIORITY cfg) [] None
                         else Suspended)] |}
      end
  | Advance c t =>
      match phaseOf c (calls pl) with
      | Some (InLoop [] tried lastError) =>
          Some (leave cfg c (RejectedWith (exhausted lastError)) tried
                      (store (shared pl)) pl)
      | Some (InLoop (key :: rest) tried lastError) =>
          match beginTurn t key (store (shared pl)) with
          | None =>
              Some {| shared := shared pl;
                      calls := setPhase c (InLoop rest tried lastError)
                                        (calls pl) |}
          | Some ps1 =>
              Some {| shared := {| store := ps1; gate := gate (shared pl) |};
                      calls := setPhase c
                                 (Awaiting key rest (tried ++ [key]) lastError)
                                 (calls pl) |}
          end
      | _ => None
      end
  | Deliver c out t =>
      match phaseOf c (calls pl) with
      | Some (Awaiting key rest tried lastError) =>
          match endTurn out t key (store (shared pl)) lastError with
          | Return ps' text => Some (leave cfg c (Fulfilled text) tried ps' pl)
          | Next ps' lastError' =>
              Some {| shared := {| store := ps'; gate := gate (shared pl) |};
                      calls := setPhase c (InLoop rest tried lastError')
                                        (calls pl) |}
          | Skip => None
          end
      | _ => None
      end
  end.

Fixpoint schedule (cfg : AiConfig) (pl : Pool) (acts : list Action)
  : option Pool :=
  match acts with
  | [] => Some pl
  | a :: rest =>
      match act cfg pl a with
      | Some pl' => schedule cfg pl' rest
      | None => None
      end
  end.

Definition holdsSlot (ph : Phase) : bool :=
  match ph with
  | InLoop _ _ _ | Awaiting _ _ _ _ => true
  | Suspended | Done _ _ => false
  end.

(** The number of calls that were granted a slot and have not left. *)
Definition inFlight (pl : Pool) : nat :=
  List.length (filter (fun cp => holdsSlot (snd cp)) (calls pl)).

(** *** Embeddings *)

Local Open Scope float_scope.

Definition Vector := list float.

Definition DEFAULT_DIMS : nat := 384.

(** [embedding[i] += x] for an index inside the array. *)
Fixpoint addAt (i : nat) (x : float) (v : Vector) : Vector :=
  match v, i with
  | [], _ => []
  | y :: rest, O => (y + x) :: rest
  | y :: rest, S j => y :: addAt j x rest
  end.

Definition charCode (a : ascii) : float :=
  PrimFloat.of_uint63 (Uint63.of_Z (Z.of_nat (nat_of_ascii a))).

(** The [for] loop of [simpleHashEmbedding], from index [i] on. *)
Fixpoint accumulate (dims : nat) (normalized : string) (i : nat)
         (embedding : Vector) : Vector :=
  match normalized with
  | EmptyString => embedding
  | String a rest =>
      accumulate dims rest (S i)
                 (addAt (i mod dims) (charCode a / 255) embedding)
  end.

Definition simpleHashEmbedding (text : string) (dims : nat) : Vector :=
  let embedding := repeat 0 dims in
  let normalized := Js.trim (Js.toLowerCase text) in
  let embedding := accumulate dims normalized 0 embedding in
  let magnitude :=
    PrimFloat.sqrt (fold_left (fun sum v => sum + v * v) embedding 0) in
  if 0 <? magnitude then map (fun v => v / magnitude) embedding
  else embedding.

(** What the embedding endpoint answers.  [ItemNullish] is a [null] or
    [undefined] element, on which [e.values] throws; [values] may itself be
    [undefined]. *)
Inductive Item :=
| ItemNullish
| ItemObject (values : option Vector).

Inductive Body :=
| BodyRejects (e : Thrown)                   (* [response.json()] rejects *)
| BodyNullish                                (* the body is [null] *)
| BodyObject (embeddings : option (list Item)). (* [None]: not an array *)

Inductive FetchOutcome :=
| FetchRejects (e : Thrown)
| FetchResponds (ok : bool) (httpStatus : Z) (body : Body).

(** [data.embeddings.map((e) => e.values)] on an array. *)
Fixpoint mapValues (items : list Item) : Settled (list (option Vector)) :=
  match items with
  | [] => Fulfilled []
  | ItemNullish :: _ => RejectedWith TypeError
  | ItemObject values :: rest =>
      match mapValues rest with
      | Fulfilled vs => Fulfilled (values :: vs)
      | RejectedWith e => RejectedWith e
      end
  end.

Definition hashFallback (texts : list string) : list (option Vector) :=
  map (fun text => Some (simpleHashEmbedding text DEFAULT_DIMS)) texts.

(** The [try] block of [generateEmbeddings]. *)
Definition requestEmbeddings (cfg : AiConfig) (net : FetchOutcome)
           (texts : list string) : Settled (list (option Vector)) :=
  let key := if Js.truthy (embeddingApiKey cfg) then embeddingApiKey cfg
             else apiKey (slots cfg gemini1) in
  if Js.truthy key
  then match net with
       | FetchRejects e => RejectedWith e
       | FetchResponds ok _ body =>
           if negb ok
           then RejectedWith
                  (ThrownError "Gemini embedding API error" None None None)
           else match body with
                | BodyRejects e => RejectedWith e
                | BodyNullish => RejectedWith TypeError
                | BodyObject None => RejectedWith TypeError
                | BodyObject (Some items) => mapValues items
                end
       end
  else Fulfilled (hashFallback texts).

Definition generateEmbeddings (cfg : AiConfig) (net : FetchOutcome)
           (texts : list string) : Settled (list (option Vector)) :=
  tryCatch (requestEmbeddings cfg net texts)
           (fun _ => Fulfilled (hashFallback texts)).

(** [const [embedding] = await generateEmbeddings([text])]; [None] is
    [undefined]. *)
Definition generateEmbedding (cfg : AiConfig) (net : FetchOutcome)
           (text : string) : Settled (option Vector) :=
  match generateEmbeddings cfg net [text] with
  | Fulfilled (v :: _) => Fulfilled v
  | Fulfilled [] => Fulfilled None
  | RejectedWith e => RejectedWith e
  end.

End AI.

(** ** mcp/rag/index.ts: the output parser *)

Module Parser.

Import Js.
Local Open Scope string_scope.

(** Values produced by [JSON.parse]. *)
#[local] Unset Elimination Schemes.
Inductive JsValue :=
| JNull
| JBool (b : bool)
| JNum (x : float)
| JStr (s : string)
| JArr (items : list JsValue)
| JObj (fields : list (string * JsValue)).
#[local] Set Elimination Schemes.

(** The library functions the parser calls: [JSON.parse], the matches of
    its regular expressions (capture group 1 where there is one) and
    [flattenToMarkdown] of utils/formatters.ts. *)
Record Runtime := mkRuntime {
  JSON_parse : string -> Settled JsValue;
  (* the anchored, greedy outer-fence match: group 1 *)
  outerFence : string -> option string;
  (* removal of a fence marker at the very start *)
  stripOpeningFence : string -> string;
  (* removal of a fence marker at the very end *)
  stripClosingFence : string -> string;
  (* the quoted value of the answer field: group 1 *)
  answerField : string -> option string;
  (* the bracketed list after suggestedFollowups: group 1 *)
  followupsField : string -> option string;
  (* the bracketed list after keyTakeaways: group 1 *)
  takeawaysField : string -> option string;
  (* all quoted non-empty items, quotes included; [None] for [null] *)
  quotedItems : string -> option (list string);
  (* the residual JSON wrapper around the given field: group 1 *)
  wrapper : string -> string -> option string;
  flattenToMarkdown : JsValue -> Settled string;
  (* String(x) for a number and for an object *)
  numberToString : float -> string;
  objectToString : JsValue -> string
}.


Fixpoint assoc (key : string) (fields : list (string * JsValue))
  : option JsValue :=
  match fields with
  | [] => None
  | (k, v) :: rest => if String.eqb k key then Some v else assoc key rest
  end.

(** [v[key]] for a key that no prototype defines; [None] is [undefined],
    and reading a property of [null] throws. *)
Definition getField (v : JsValue) (key : string) : Settled (option JsValue) :=
  match v with
  | JNull => RejectedWith TypeError
  | JObj fields => Fulfilled (assoc key fields)
  | _ => Fulfilled None
  end.

Fixpoint assign (key : string) (x : JsValue) (fields : list (string * JsValue))
  : list (string * JsValue) :=
  match fields with
  | [] => [(key, x)]
  | (k, v) :: rest =>
      if String.eqb k key then (k, x) :: rest else (k, v) :: assign key x rest
  end.

(** [v[key] = x]; on a primitive the assignment throws in strict mode. *)
Definition setField (v : JsValue) (key : string) (x : JsValue)
  : Settled JsValue :=
  match v with
  | JObj fields => Fulfilled (JObj (assign key x fields))
  | JArr items => Fulfilled (JArr items)
  | _ => RejectedWith TypeError
  end.

Definition truthy (v : option JsValue) : bool :=
  match v with
  | None | Some JNull => false
  | Some (JBool b) => b
  | Some (JNum x) => negb (PrimFloat.eqb x 0%float) && negb (PrimFloat.is_nan x)
  | Some (JStr s) => Js.truthy s
  | Some (JArr _) | Some (JObj _) => true
  end.

(** *** utils/formatters.ts: [sanitizeAnswer] *)

Definition backslash : ascii := ascii_of_nat 92.
Definition quote : ascii := ascii_of_nat 34.
Definition lf : ascii := ascii_of_nat 10.

(** Replace every backslash followed by [c], left to right, by [by_]. *)
Fixpoint unescape (c : ascii) (by_ : ascii) (text : string) : string :=
  match text with
  | String a rest =>
      match rest with
      | String b rest' =>
          if Ascii.eqb a backslash && Ascii.eqb b c
          then String by_ (unescape c by_ rest')
          else String a (unescape c by_ rest)
      | EmptyString => text
      end
  | EmptyString => EmptyString
  end.

(** Replace every run of three or more line feeds by two; [run] counts the
    line feeds seen since the last other character. *)
Fixpoint collapseFrom (text : string) (run : nat) : string :=
  match text with
  | String a rest =>
      if Ascii.eqb a lf
      then if (2 <=? run)%nat then collapseFrom rest (S run)
           else String a (collapseFrom rest (S run))
      else String a (collapseFrom rest 0)
  | EmptyString => EmptyString
  end.

Definition collapseBlankLines (text : string) : string := collapseFrom text 0.

(** The string path of [sanitizeAnswer]. *)
Definition sanitizeText (rt : Runtime) (field : string) (text : string)
  : string :=
  let text := match wrapper rt field text with
              | Some inner => inner
              | None => text
              end in
  let text := unescape "n" lf text in
  let text := unescape quote quote text in
  let text := unescape backslash backslash text in
  let text := collapseBlankLines text in
  trim text.

(** [String(v)] *)
Definition stringOf (rt : Runtime) (v : JsValue) : string :=
  match v with
  | JStr s => s
  | JNum x => numberToString rt x
  | JBool true => "true"
  | JBool false => "false"
  | JNull => "null"
  | JArr _ | JObj _ => objectToString rt v
  end.

Definition sanitizeAnswer (rt : Runtime) (input : JsValue) (field : string)
  : Settled string :=
  match input with
  | JArr _ | JObj _ => flattenToMarkdown rt input
  | _ => Fulfilled (sanitizeText rt field (stringOf rt input))
  end.

(** *** [RAGMCP.parseJSON] *)

(** The fence stripping that precedes the attempts. *)
Definition clean (rt : Runtime) (raw : string) : string :=
  let cleaned := trim raw in
  match outerFence rt cleaned with
  | Some inner => trim inner
  | None => trim (stripClosingFence rt (stripOpeningFence rt cleaned))
  end.

(** [if (parsed.answer) parsed.answer = sanitizeAnswer(parsed.answer)],
    telling whether the test succeeded. *)
Definition sanitizeParsed (rt : Runtime) (parsed : JsValue)
  : Settled (JsValue * bool) :=
  bind (getField parsed "answer") (fun a =>
    if truthy a
    then match a with
         | Some v =>
             bind (sanitizeAnswer rt v "answer") (fun text =>
             bind (setField parsed "answer" (JStr text)) (fun parsed' =>
             Fulfilled (parsed', true)))
         | None => Fulfilled (parsed, false)
         end
    else Fulfilled (parsed, false)).

(** The body of each [try] block: [Fulfilled (Some v)] is [return v],
    [Fulfilled None] falls out of the block, [RejectedWith] enters the
    empty [catch]. *)
Definition attempt1 (rt : Runtime) (cleaned : string)
  : Settled (option JsValue) :=
  bind (JSON_parse rt cleaned) (fun parsed =>
  bind (sanitizeParsed rt parsed) (fun r => Fulfilled (Some (fst r)))).

Fixpoint fromFirst (c : ascii) (s : string) : option string :=
  match s with
  | String a rest => if Ascii.eqb a c then Some s else fromFirst c rest
  | EmptyString => None
  end.

(** The greedy brace-to-brace match: from the first opening brace to the
    last closing brace after it. *)
Definition braceSpan (s : string) : option string :=
  match fromFirst "{" s with
  | Some t =>
      match fromFirst "}" (reverse t) with
      | Some r => Some (reverse r)
      | None => None
      end
  | None => None
  end.

Definition parseWithAnswer (rt : Runtime) (text : string)
  : Settled (option JsValue) :=
  bind (JSON_parse rt text) (fun parsed =>
  bind (sanitizeParsed rt parsed) (fun r =>
    if snd r then Fulfilled (Some (fst r)) else Fulfilled None)).

Definition attempt2 (rt : Runtime) (cleaned : string)
  : Settled (option JsValue) :=
  match braceSpan cleaned with
  | Some span => parseWithAnswer rt span
  | None => Fulfilled None
  end.

(** [split] on the line feed *)
Fixpoint splitLinesFrom (s : string) (cur : string) : list string :=
  match s with
  | EmptyString => [reverse cur]
  | String a rest =>
      if Ascii.eqb a lf then reverse cur :: splitLinesFrom rest EmptyString
      else splitLinesFrom rest (String a cur)
  end.

Definition splitLines (s : string) : list string := splitLinesFrom s EmptyString.

(** [lines.slice(lines.findIndex(p))], [None] when no line satisfies [p]. *)
Fixpoint fromFirstLine (p : string -> bool) (lines : list string)
  : option (list string) :=
  match lines with
  | [] => None
  | l :: rest => if p l then Some lines else fromFirstLine p rest
  end.

Definition attempt3 (rt : Runtime) (cleaned : string)
  : Settled (option JsValue) :=
  match fromFirstLine (fun l => startsWith (trimStart l) "{")
                      (splitLines cleaned) with
  | Some lines => parseWithAnswer rt (join newline lines)
  | None => Fulfilled None
  end.

Fixpoint removeQuotes (s : string) : string :=
  match s with
  | String a rest =>
      if Ascii.eqb a quote then removeQuotes rest
      else String a (removeQuotes rest)
  | EmptyString => EmptyString
  end.

(** The items of a captured list, quotes removed; empty when the list was
    not found or holds no quoted item. *)
Definition listField (rt : Runtime) (m : option string) : list string :=
  match m with
  | Some inner =>
      match quotedItems rt inner with
      | Some items => map removeQuotes items
      | None => []
      end
  | None => []
  end.

Definition answerObject (answer : string) (followups takeaways : list string)
  : JsValue :=
  JObj [("answer", JStr answer);
        ("suggestedFollowups", JArr (map JStr followups));
        ("keyTakeaways", JArr (map JStr takeaways))].

Definition attempt4 (rt : Runtime) (cleaned : string)
  : Settled (option JsValue) :=
  match answerField rt cleaned with
  | Some captured =>
      bind (sanitizeAnswer rt (JStr captured) "answer") (fun answer =>
        Fulfilled (Some (answerObject answer
                           (listField rt (followupsField rt cleaned))
                           (listField rt (takeawaysField rt cleaned)))))
  | None => Fulfilled None
  end.

(** A [try] block with an empty [catch], then [rest] unless the
    body returned. *)
Definition orElse (body : Settled (option JsValue)) (rest : Settled JsValue)
  : Settled JsValue :=
  match body with
  | Fulfilled (Some v) => Fulfilled v
  | Fulfilled None | RejectedWith _ => rest
  end.

(** An attempt fell through when it did not [return]. *)
Definition fellThrough (body : Settled (option JsValue)) : bool :=
  match body with
  | Fulfilled (Some _) => false
  | _ => true
  end.

Definition fallback (rt : Runtime) (cleaned : string) : Settled JsValue :=
  bind (sanitizeAnswer rt (JStr cleaned) "answer") (fun answer =>
    Fulfilled (answerObject answer [] [])).

Definition parseJSON (rt : Runtime) (raw : string) : Settled JsValue :=
  let cleaned := clean rt raw in
  orElse (attempt1 rt cleaned)
    (orElse (attempt2 rt cleaned)
       (orElse (attempt3 rt cleaned)
          (orElse (attempt4 rt cleaned)
             (fallback rt cleaned)))).

End Parser.

(** ** mcp/rag/index.ts: the retrieval pipeline *)

Module Rag.

Import Js Parser.
Local Open Scope string_scope.

Inductive Level := beginner | intermediate | expert.

Definition levelName (l : Level) : string :=
  match l with
  | beginner => "beginner"
  | intermediate => "intermediate"
  | expert => "expert"
  end.

Inductive ActionKind := ask | related.

Record InteractionRecord := mkInteraction {
  pastQuery : string;
  pastResponse : option string
}.

Record Metadata := mkMetadata {
  metaSource : option string;
  metaUrl : option string
}.

(** What [queryDocuments] resolves to; a [None] element is [null]. *)
Record QueryResult := mkQueryResult {
  ids : list string;
  documents : list (option string);
  metadatas : list (option Metadata);
  distances : list float
}.

Record Chunk := mkChunk {
  id : string;
  content : option string;
  metadata : option Metadata;
  distance : float;
  similarity : float
}.

Record Citation := mkCitation {
  text : string;
  source : string;
  url : option string;
  relevance : float
}.

Record RAGResult := mkResult {
  answer : JsValue;
  sources : list Citation;
  confidence : float;
  suggestedFollowups : JsValue;
  keyTakeaways : option JsValue
}.

(** The prompt templates with the values substituted into them. *)
Inductive Prompt :=
| RAG_ANSWER_PROMPT (question : string) (level : Level)
                    (chunks_with_source_ids recent_history : string)
| LLM_ANSWER_PROMPT (question : string) (level : Level)
                    (recent_history : string)
| RELATED_PROMPT (concept : string) (level : Level).

(** [CONFIDENCE] of config/constants.ts *)
Definition CONFIDENCE_HIGH : float := 0.6%float.
Definition CONFIDENCE_LOW : float := 0.3%float.

Definition SIMILARITY_THRESHOLD : float := 0.3%float.
Definition KEYWORD_BOOST : float := 0.05%float.
Definition LLM_ONLY_CONFIDENCE : float := 0.5%float.
Definition RELATED_CONFIDENCE : float := 0.7%float.

(** Everything outside this class: the services it awaits, the registries
    it reads and the clock of the cache. *)
Record Env := mkEnv {
  rt : Runtime;
  aiConfig : AI.AiConfig;
  embeddingNet : AI.FetchOutcome;
  queryDocuments : option AI.Vector -> nat -> Settled QueryResult;
  generateCompletion : Prompt -> Settled string;
  labsSection : string -> Level -> option string;    (* [None]: no lab matches *)
  coursesSection : string -> Level -> option string; (* [None]: no course matches *)
  (* the related topics and the learning path appended to the answer;
     [None] when the parsed output has neither *)
  relatedSuffix : JsValue -> Settled (option string);
  rerankTop : nat;
  readAt : Z;   (* [Date.now()] in [getCached] *)
  writeAt : Z   (* [Date.now()] in [setCache] *)
}.

(** The mutable state touched by a request; [sent] lists the prompts
    handed to [generateCompletion], oldest first. *)
Record State := mkState {
  cache : Cache.Store;
  lastConfidence : float;
  sent : list Prompt
}.

Definition decimal (n : nat) : string := NilEmpty.string_of_uint (Nat.to_uint n).

(** [formatHistory] *)
Definition formatHistory (history : option (list InteractionRecord)) : string :=
  match history with
  | None | Some [] => "No previous interactions."
  | Some hs =>
      join (newline ++ "---" ++ newline)
        (map (fun h =>
                "Q: " ++ pastQuery h ++ newline ++ "A: "
                ++ match pastResponse h with
                   | Some r => sliceTo 100 r
                   | None => "undefined"
                   end ++ "...")
             (lastn 3 hs))
  end.

(** Step 3: one scored chunk per id. *)
Fixpoint scoreFrom (r : QueryResult) (i : nat) (names : list string) : list Chunk :=
  match names with
  | [] => []
  | x :: rest =>
      let d := nth i (distances r) nan in
      {| id := x;
         content := match nth_error (documents r) i with
                    | Some doc => doc
                    | None => None
                    end;
         metadata := match nth_error (metadatas r) i with
                     | Some m => m
                     | None => None
                     end;
         distance := d;
         similarity := (1 - d)%float |} :: scoreFrom r (S i) rest
  end.

Definition scoredChunks (r : QueryResult) : list Chunk := scoreFrom r 0 (ids r).

Definition queryTerms (query : string) : list string :=
  filter (fun w => (2 <? String.length w)%nat)
         (splitWhitespace (toLowerCase query)).

Definition addSimilarity (x : float) (c : Chunk) : Chunk :=
  {| id := id c; content := content c; metadata := metadata c;
     distance := distance c; similarity := (similarity c + x)%float |}.

(** Step 3b for one chunk; [toLowerCase] of a [null] content throws. *)
Definition boost (terms : list string) (c : Chunk) : Settled Chunk :=
  match content c with
  | None => RejectedWith TypeError
  | Some body =>
      let contentLower := toLowerCase body in
      Fulfilled
        (fold_left (fun ch term =>
                      if includes contentLower term
                      then addSimilarity KEYWORD_BOOST ch else ch)
                   terms c)
  end.

Fixpoint boostAll (terms : list string) (cs : list Chunk)
  : Settled (list Chunk) :=
  match cs with
  | [] => Fulfilled []
  | c :: rest =>
      bind (boost terms c) (fun c' =>
      bind (boostAll terms rest) (fun rest' => Fulfilled (c' :: rest')))
  end.

Definition usable (c : Chunk) : bool :=
  (SIMILARITY_THRESHOLD <=? similarity c)%float.

(** [.sort((a, b) => b.similarity - a.similarity)]: stable, descending. *)
Fixpoint insertChunk (a : Chunk) (sorted : list Chunk) : list Chunk :=
  match sorted with
  | [] => [a]
  | b :: rest =>
      if (0 <? similarity b - similarity a)%float
      then b :: insertChunk a rest
      else a :: sorted
  end.

Definition sortBySimilarity (cs : list Chunk) : list Chunk :=
  fold_right insertChunk [] cs.

Definition relevantChunks (n : nat) (boosted : list Chunk) : list Chunk :=
  firstn n (sortBySimilarity (filter usable boosted)).

(** Step 4: the enumerated context. *)
Fixpoint contextFrom (i : nat) (cs : list Chunk) : Settled (list string) :=
  match cs with
  | [] => Fulfilled []
  | c :: rest =>
      match metadata c with
      | None => RejectedWith TypeError
      | Some m =>
          bind (contextFrom (S i) rest) (fun rest' =>
            Fulfilled
              (("[" ++ decimal (i + 1) ++ "] Source: "
                ++ match metaSource m with Some s => s | None => "Unknown" end
                ++ newline
                ++ match content c with Some b => b | None => "null" end)
               :: rest'))
      end
  end.

Definition chunksWithIds (cs : list Chunk) : Settled string :=
  bind (contextFrom 0 cs) (fun parts =>
    Fulfilled (join (newline ++ newline ++ "---" ++ newline ++ newline) parts)).

(** Step 7: one citation per chunk kept. *)
Definition cite (c : Chunk) : Settled Citation :=
  match metadata c, content c with
  | Some m, Some body =>
      Fulfilled {| text := sliceTo 150 body ++ "...";
                   source := match metaSource m with
                             | Some s => s
                             | None => "Unknown"
                             end;
                   url := metaUrl m;
                   relevance := similarity c |}
  | _, _ => RejectedWith TypeError
  end.

Fixpoint citeAll (cs : list Chunk) : Settled (list Citation) :=
  match cs with
  | [] => Fulfilled []
  | c :: rest =>
      bind (cite c) (fun x =>
      bind (citeAll rest) (fun xs => Fulfilled (x :: xs)))
  end.

Definition ofNat (n : nat) : float :=
  PrimFloat.of_uint63 (Uint63.of_Z (Z.of_nat n)).

(** [Math.min(a, b)] *)
Definition fmin (a b : float) : float :=
  if PrimFloat.is_nan a || PrimFloat.is_nan b then nan
  else if (a <? b)%float then a else b.

Definition groundedConfidence (cs : list Chunk) : float :=
  let avgSimilarity :=
    (fold_left (fun sum c => sum + similarity c) cs 0
     / ofNat (List.length cs))%float in
  fmin (avgSimilarity + 0.1)%float 1%float.

(** [x ?? d] *)
Definition orDefault (x : option JsValue) (d : JsValue) : JsValue :=
  match x with
  | None | Some JNull => d
  | Some v => v
  end.

(** [appendLabs] and [appendCourses]: [answer + section] when the registry
    has matches. *)
Definition append (e : Env) (answer : JsValue) (section : option string)
  : JsValue :=
  match section with
  | None => answer
  | Some sec => JStr (stringOf (rt e) answer ++ sec)
  end.

Definition enrich (e : Env) (answer : JsValue) (query : string) (lvl : Level)
  : JsValue :=
  append e (append e answer (labsSection e query lvl))
         (coursesSection e query lvl).

(** [await generateCompletion(...)], recording the prompt. *)
Definition generate (e : Env) (p : Prompt) (st : State)
  : Settled string * State :=
  (generateCompletion e p,
   {| cache := cache st; lastConfidence := lastConfidence st;
      sent := sent st ++ [p] |}).

Definition setLastConfidence (x : float) (st : State) : State :=
  {| cache := cache st; lastConfidence := x; sent := sent st |}.

Definition setCacheStore (c : Cache.Store) (st : State) : State :=
  {| cache := c; lastConfidence := lastConfidence st; sent := sent st |}.

(** Steps 6 and 7 of [ragPipeline], after the completion has arrived. *)
Definition groundedResult (e : Env) (query : string) (lvl : Level)
           (relevant : list Chunk) (rawResponse : string) (st : State)
  : Settled (option RAGResult) * State :=
  match parseJSON (rt e) rawResponse with
  | RejectedWith err => (RejectedWith err, st)
  | Fulfilled parsed =>
      match citeAll relevant with
      | RejectedWith err => (RejectedWith err, st)
      | Fulfilled citations =>
          let st1 := setLastConfidence (groundedConfidence relevant) st in
          (bind (getField parsed "answer") (fun a =>
           bind (getField parsed "suggestedFollowups") (fun f =>
           bind (getField parsed "keyTakeaways") (fun k =>
             Fulfilled (Some
               {| answer := enrich e (orDefault a (JStr rawResponse)) query lvl;
                  sources := citations;
                  confidence := lastConfidence st1;
                  suggestedFollowups := orDefault f (JArr []);
                  keyTakeaways := Some (orDefault k (JArr [])) |})))),
           st1)
      end
  end.

(** [ragPipeline]: [Fulfilled None] is [return null]. *)
Definition ragPipeline (e : Env) (query : string) (topK : nat) (lvl : Level)
           (history : option (list InteractionRecord)) (st : State)
  : Settled (option RAGResult) * State :=
  match AI.generateEmbedding (aiConfig e) (embeddingNet e) query with
  | RejectedWith err => (RejectedWith err, st)
  | Fulfilled queryEmbedding =>
      match queryDocuments e queryEmbedding topK with
      | RejectedWith err => (RejectedWith err, st)
      | Fulfilled results =>
          match ids results with
          | [] => (Fulfilled None, st)
          | _ :: _ =>
              match boostAll (queryTerms query) (scoredChunks results) with
              | RejectedWith err => (RejectedWith err, st)
              | Fulfilled boosted =>
                  let relevant := relevantChunks (rerankTop e) boosted in
                  match relevant with
                  | [] => (Fulfilled None, st)
                  | _ :: _ =>
                      match chunksWithIds relevant with
                      | RejectedWith err => (RejectedWith err, st)
                      | Fulfilled context =>
                          let prompt :=
                            RAG_ANSWER_PROMPT query lvl context
                                              (formatHistory history) in
                          match generate e prompt st with
                          | (RejectedWith err, st1) => (RejectedWith err, st1)
                          | (Fulfilled rawResponse, st1) =>
                              groundedResult e query lvl relevant rawResponse st1
                          end
                      end
                  end
              end
          end
      end
  end.

(** The cached-or-generated raw response of the two LLM-only paths. *)
Definition cachedOrGenerated (e : Env) (cacheKey : string) (prompt : Prompt)
           (st : State) : Settled string * State :=
  let (cached, store1) := Cache.getCached (readAt e) cacheKey (cache st) in
  let st1 := setCacheStore store1 st in
  match cached with
  | Some hit =>
      if Js.truthy hit then (Fulfilled hit, st1)
      else match generate e prompt st1 with
           | (Fulfilled raw, st2) =>
               (Fulfilled raw,
                setCacheStore (Cache.setCache (writeAt e) cacheKey raw
                                 Cache.DEFAULT_TTL_MS (cache st2)) st2)
           | (RejectedWith err, st2) => (RejectedWith err, st2)
           end
  | None =>
      match generate e prompt st1 with
      | (Fulfilled raw, st2) =>
          (Fulfilled raw,
           setCacheStore (Cache.setCache (writeAt e) cacheKey raw
                            Cache.DEFAULT_TTL_MS (cache st2)) st2)
      | (RejectedWith err, st2) => (RejectedWith err, st2)
      end
  end.

(** [llmOnlyAnswer] *)
Definition llmOnlyAnswer (e : Env) (query : string) (lvl : Level)
           (history : option (list InteractionRecord)) (st : State)
  : Settled RAGResult * State :=
  let prompt := LLM_ANSWER_PROMPT query lvl (formatHistory history) in
  let cacheKey := Cache.makeCacheKey "ask" query (levelName lvl) in
  match cachedOrGenerated e cacheKey prompt st with
  | (RejectedWith err, st1) => (RejectedWith err, st1)
  | (Fulfilled rawResponse, st1) =>
      match parseJSON (rt e) rawResponse with
      | RejectedWith err => (RejectedWith err, st1)
      | Fulfilled parsed =>
          let st2 := setLastConfidence LLM_ONLY_CONFIDENCE st1 in
          (bind (getField parsed "answer") (fun a =>
           bind (getField parsed "suggestedFollowups") (fun f =>
           bind (getField parsed "keyTakeaways") (fun k =>
             Fulfilled
               {| answer := enrich e (orDefault a (JStr rawResponse)) query lvl;
                  sources := [];
                  confidence := lastConfidence st2;
                  suggestedFollowups := orDefault f (JArr []);
                  keyTakeaways := Some (orDefault k (JArr [])) |}))),
           st2)
      end
  end.

(** [findRelated] *)
Definition findRelated (e : Env) (concept : string) (lvl : Level) (st : State)
  : Settled RAGResult * State :=
  let prompt := RELATED_PROMPT concept lvl in
  let cacheKey := Cache.makeCacheKey "related" concept (levelName lvl) in
  match cachedOrGenerated e cacheKey prompt st with
  | (RejectedWith err, st1) => (RejectedWith err, st1)
  | (Fulfilled rawResponse, st1) =>
      match parseJSON (rt e) rawResponse with
      | RejectedWith err => (RejectedWith err, st1)
      | Fulfilled parsed =>
          let st2 := setLastConfidence RELATED_CONFIDENCE st1 in
          (bind (getField parsed "answer") (fun a =>
           bind (relatedSuffix e parsed) (fun suffix =>
           bind (getField parsed "suggestedFollowups") (fun f =>
             Fulfilled
               {| answer :=
                    let answer :=
                      orDefault a (JStr ("Here are topics related to **"
                                         ++ concept ++ "**:")) in
                    match suffix with
                    | Some text => JStr (stringOf (rt e) answer ++ text)
                    | None => answer
                    end;
                  sources := [];
                  confidence := lastConfidence st2;
                  suggestedFollowups :=
                    orDefault f
                      (JArr [JStr ("Explain " ++ concept);
                             JStr ("What are common " ++ concept
                                   ++ " attack vectors?")]);
                  keyTakeaways := None |}))),
           st2)
      end
  end.

(** [handle] *)
Definition handle (e : Env) (action : ActionKind) (query : string)
           (topK : nat) (lvl : Level)
           (history : option (list InteractionRecord)) (st : State)
  : Settled RAGResult * State :=
  match action with
  | related => findRelated e query lvl st
  | ask =>
      match ragPipeline e query topK lvl history st with
      | (Fulfilled (Some ragResult), st1) => (Fulfilled ragResult, st1)
      | (Fulfilled None, st1) => llmOnlyAnswer e query lvl history st1
      | (RejectedWith _, st1) => llmOnlyAnswer e query lvl history st1
      end
  end.

End Rag.

(** ** utils/formatters.ts: [truncate] *)

Module Formatters.

Import Js.
Local Open Scope string_scope.

(** [text.slice(0, end)] for any integer [end]: a negative [end] counts
    from the end of the text, and the result never runs past either end. *)
Definition sliceToZ (end_ : Z) (text : string) : string :=
  if (end_ <? 0)%Z
  then substring 0 (Z.to_nat (Z.of_nat (String.length text) + end_)) text
  else substring 0 (Z.to_nat end_) text.

Definition DEFAULT_MAX_LENGTH : Z := 1024.

Definition truncate (text : string) (maxLength : Z) : string :=
  if (Z.of_nat (String.length text) <=? maxLength)%Z then text
  else sliceToZ (maxLength - 3) text ++ "...".

End Formatters.

(** ** utils/labs.ts: [getLabsForTopic] *)

Module Labs.

Import Js.
Import Rag.

Record Lab := mkLab {
  name : string;
  url : string;
  platform : string;
  level : Level;
  topics : list string
}.

Definition MAX_RESULTS : nat := 5.
Definition MIN_SCORE : nat := 3.

Definition level_eqb (a b : Level) : bool :=
  match a, b with
  | beginner, beginner | intermediate, intermediate | expert, expert => true
  | _, _ => false
  end.

(** The words of the lowered topic that are longer than two characters. *)
Definition topicWords (lower : string) : list string :=
  filter (fun w => (2 <? String.length w)%nat) (splitWhitespace lower).

(** The first loop: ten points for every topic of the lab that contains
    the query or is contained in it. *)
Definition exactMatches (lower : string) (lab : Lab) (score : nat) : nat :=
  fold_left (fun score t =>
               if includes lower t || includes t lower
               then score + 10 else score)
            (topics lab) score.

(** The second loop: two points for every topic that contains a word and,
    when [withName] is set, one point when the name contains it. *)
Definition wordMatches (withName : bool) (words : list string) (lab : Lab)
           (score : nat) : nat :=
  fold_left (fun score word =>
               let score :=
                 fold_left (fun score t =>
                              if includes t word then score + 2 else score)
                           (topics lab) score in
               if withName && includes (toLowerCase (name lab)) word
               then score + 1 else score)
            words score.

Definition scoreAtLevel (lower : string) (words : list string) (lab : Lab)
  : nat :=
  wordMatches true words lab (exactMatches lower lab 0).

Definition scoreFallback (lower : string) (words : list string) (lab : Lab)
  : nat :=
  let score := wordMatches false words lab (exactMatches lower lab 0) in
  match level lab with
  | expert => score + 3
  | intermediate => score + 1
  | beginner => score
  end.

(** [.sort((a, b) => b.score - a.score)]: stable, descending. *)
Fixpoint insertScored (a : Lab * nat) (sorted : list (Lab * nat))
  : list (Lab * nat) :=
  match sorted with
  | [] => [a]
  | b :: rest =>
      if (snd a <? snd b)%nat then b :: insertScored a rest else a :: sorted
  end.

Definition sortByScore (xs : list (Lab * nat)) : list (Lab * nat) :=
  fold_right insertScored [] xs.

(** The chain after the level filter: score, keep, sort, cut, unwrap. *)
Definition ranked (score : Lab -> nat) (labs : list Lab) : list Lab :=
  map fst
      (firstn MAX_RESULTS
         (sortByScore
            (filter (fun x => (MIN_SCORE <=? snd x)%nat)
                    (map (fun lab => (lab, score lab)) labs)))).

Definition LEVEL_PRIORITY (l : Level) : list Level :=
  match l with
  | expert => [intermediate]
  | intermediate => [expert; beginner]
  | beginner => [intermediate]
  end.

Definition getLabsForTopic (ALL_LABS : list Lab) (topic : string) (lvl : Level)
  : list Lab :=
  let lower := toLowerCase topic in
  let words := topicWords lower in
  let scored :=
    ranked (scoreAtLevel lower words)
           (filter (fun lab => level_eqb (level lab) lvl) ALL_LABS) in
  match scored with
  | _ :: _ => scored
  | [] =>
      let fallbackLevels := LEVEL_PRIORITY lvl in
      ranked (scoreFallback lower words)
             (filter (fun lab => existsb (level_eqb (level lab)) fallbackLevels)
                     ALL_LABS)
  end.

End Labs.

(** ** The ChromaDB vector store connection *)

Module Chroma.

Import Js.

(** The handle of a collection. *)
Definition Collection := nat.

(** The module variables. *)
Record State := mkState {
  collection : option Collection;
  isRagDisabled : bool;
  lastRetryAt : Z
}.

Definition initial : State :=
  {| collection := None; isRagDisabled := false; lastRetryAt := 0 |}.

Definition RETRY_INTERVAL_MS : Z := 60000.

(** What the server does when a connection is tried: [listCollections] or
    [getOrCreateCollection] rejects, or the collection is obtained and
    [count] rejects, or all three resolve. *)
Inductive Connection :=
| Unreachable
| CountFails (c : Collection)
| Connected (c : Collection).

(** The two readings of [Date.now()] in [getChromaCollection]. *)
Record Clock := mkClock {
  enteredAt : Z;  (* read on entry, when the store is disabled *)
  failedAt : Z    (* read in the [catch] block *)
}.

(** The [try] block of [getChromaCollection], entered when no collection
    is held. *)
Definition connect (clk : Clock) (net : Connection) (st : State)
  : option Collection * State :=
  match net with
  | Connected c =>
      (Some c, {| collection := Some c; isRagDisabled := isRagDisabled st;
                  lastRetryAt := lastRetryAt st |})
  | CountFails c =>
      (None, {| collection := Some c; isRagDisabled := true;
                lastRetryAt := failedAt clk |})
  | Unreachable =>
      (None, {| collection := collection st; isRagDisabled := true;
                lastRetryAt := failedAt clk |})
  end.

Definition getChromaCollection (clk : Clock) (net : Connection) (st : State)
  : option Collection * State :=
  let retry st :=
    match collection st with
    | Some c => (Some c, st)
    | None => connect clk net st
    end in
  if isRagDisabled st
  then if (enteredAt clk - lastRetryAt st <? RETRY_INTERVAL_MS)%Z
       then (None, st)
       else retry {| collection := collection st; isRagDisabled := false;
                     lastRetryAt := enteredAt clk |}
  else retry st.

(** Whether the call reaches the server: it is not held back by the retry
    interval and holds no collection. *)
Definition contactsServer (clk : Clock) (st : State) : bool :=
  negb (isRagDisabled st
        && (enteredAt clk - lastRetryAt st <? RETRY_INTERVAL_MS)%Z)
  && match collection st with Some _ => false | None => true end.

(** [addDocuments]: [Fulfilled false] when the addition was skipped,
    [Fulfilled true] when [col.add] resolved; its rejection is passed on. *)
Definition addDocuments (clk : Clock) (net : Connection)
           (add : Collection -> Settled unit) (st : State)
  : Settled bool * State :=
  match getChromaCollection clk net st with
  | (None, st1) => (Fulfilled false, st1)
  | (Some col, st1) => (bind (add col) (fun _ => Fulfilled true), st1)
  end.

(** The first row of each field of a query answer; [None] is a missing
    row or field. *)
Record QueryAnswer := mkAnswer {
  ids0 : option (list string);
  documents0 : option (list (option string));
  metadatas0 : option (list (option Rag.Metadata));
  distances0 : option (list float)
}.

Definition orEmpty {A} (x : option (list A)) : list A :=
  match x with Some l => l | None => [] end.

Definition noResults : Rag.QueryResult :=
  {| Rag.ids := []; Rag.documents := []; Rag.metadatas := [];
     Rag.distances := [] |}.

(** [queryDocuments]; a rejection of [col.query], or an answer that cannot
    be read, enters the [catch] block. *)
Definition queryDocuments (clk : Clock) (net : Connection)
           (query : Collection -> Settled QueryAnswer) (st : State)
  : Rag.QueryResult * State :=
  match getChromaCollection clk net st with
  | (None, st1) => (noResults, st1)
  | (Some col, st1) =>
      match query col with
      | Fulfilled results =>
          ({| Rag.ids := orEmpty (ids0 results);
              Rag.documents := orEmpty (documents0 results);
              Rag.metadatas := orEmpty (metadatas0 results);
              Rag.distances := orEmpty (distances0 results) |}, st1)
      | RejectedWith _ =>
          (noResults, {| collection := None;
                         isRagDisabled := isRagDisabled st1;
                         lastRetryAt := lastRetryAt st1 |})
      end
  end.

(** One call of the module, with what the server would do. *)
Inductive Call :=
| Get (clk : Clock) (net : Connection)
| Add (clk : Clock) (net : Connection) (add : Collection -> Settled unit)
| Query (clk : Clock) (net : Connection)
        (query : Collection -> Settled QueryAnswer).

Definition clockOf (c : Call) : Clock :=
  match c with
  | Get clk _ | Add clk _ _ | Query clk _ _ => clk
  end.

(** What a call hands back to its caller. *)
Inductive Reply :=
| Got (col : option Collection)
| AddSettled (r : Settled bool)
| Queried (r : Rag.QueryResult).

Definition perform (c : Call) (st : State) : Reply * State :=
  match c with
  | Get clk net =>
      let (col, st1) := getChromaCollection clk net st in (Got col, st1)
  | Add clk net add =>
      let (r, st1) := addDocuments clk net add st in (AddSettled r, st1)
  | Query clk net query =>
      let (r, st1) := queryDocuments clk net query st in (Queried r, st1)
  end.

(** Calls one after the other, none started before the previous one has
    settled. *)
Fixpoint performAll (cs : list Call) (st : State) : list Reply * State :=
  match cs with
  | [] => ([], st)
  | c :: rest =>
      let (r, st1) := perform c st in
      let (rs, st2) := performAll rest st1 in
      (r :: rs, st2)
  end.

End Chroma.

(** ** [BaseMCP.execute] and [MCPOrchestrator.handleAsk] *)

Module Orchestrator.

Import Js Parser.
Import Rag.
Local Open Scope string_scope.

(** The response of [BaseMCP.execute] for the retrieval module; [data] is
    [None] for [null]. *)
Record MCPResponse := mkResponse {
  success : bool;
  data : option RAGResult;
  metaConfidence : float
}.

(** [RAGMCP.execute]: [handle] inside [try], [getConfidence] reading
    [lastConfidence] afterwards. *)
Definition execute (e : Env) (action : ActionKind) (query : string)
           (topK : nat) (lvl : Level)
           (history : option (list InteractionRecord)) (st : State)
  : MCPResponse * State :=
  match handle e action query topK lvl history st with
  | (Fulfilled result, st1) =>
      ({| success := true; data := Some result;
          metaConfidence := lastConfidence st1 |}, st1)
  | (RejectedWith _, st1) =>
      ({| success := false; data := None; metaConfidence := 0%float |}, st1)
  end.

(** The preferences read in step 1; [None] fields are missing. *)
Record Prefs := mkPrefs {
  preferredLevel : option Level
}.

(** [buildContextFromPrefs], the level only. *)
Definition levelFromPrefs (prefs : option Prefs) : Level :=
  match prefs with
  | Some p => match preferredLevel p with Some l => l | None => beginner end
  | None => beginner
  end.

(** The result shown when the retrieval module returned no data. *)
Definition apology : RAGResult :=
  {| answer := JStr "⚠️ Sorry, I couldn't generate a response right now. This might be due to rate limits. Please try again in a few seconds.";
     sources := [];
     confidence := 0.3%float;
     suggestedFollowups := JArr [];
     keyTakeaways := Some (JArr []) |}.

(** The interaction handed to the memory module in step 4.  The response
    always carries its metadata and a numeric confidence, so the two
    defaults of the stored confidence are never taken. *)
Record Stored := mkStored {
  storedQuery : string;
  storedResponse : JsValue;
  storedLevel : Level;
  storedConfidence : float
}.

(** [handleAsk], given what the preference and memory modules returned. *)
Definition handleAsk (e : Env) (prefs : option Prefs)
           (memory : option (list InteractionRecord)) (question : string)
           (st : State) : RAGResult * Stored * State :=
  let lvl := levelFromPrefs prefs in
  let recentHistory := match memory with Some h => h | None => [] end in
  let (ragResponse, st1) :=
    execute e ask question 10 lvl (Some recentHistory) st in
  let ragResult := match data ragResponse with
                   | Some r => r
                   | None => apology
                   end in
  (ragResult,
   {| storedQuery := question;
      storedResponse := orDefault (Some (answer ragResult)) (JStr EmptyString);
      storedLevel := lvl;
      storedConfidence := metaConfidence ragResponse |},
   st1).

End Orchestrator.

(** ** The rate limiter *)

Module RateLimiter.

Record RateLimitEntry := mkEntry {
  count : Z;
  resetAt : Z
}.

(** The limiter: its map, by user id, and its two settings. *)
Record Limiter := mkLimiter {
  limits : string -> option RateLimitEntry;
  maxRequests : Z;
  windowMs : Z
}.

Definition create (maxRequests windowMs : Z) : Limiter :=
  {| limits := fun _ => None; maxRequests := maxRequests;
     windowMs := windowMs |}.

Definition setEntry (userId : string) (x : option RateLimitEntry) (l : Limiter)
  : Limiter :=
  {| limits := fun u => if String.eqb u userId then x else limits l u;
     maxRequests := maxRequests l;
     windowMs := windowMs l |}.

(** An entry that is present and whose window has not passed. *)
Definition current (now : Z) (userId : string) (l : Limiter)
  : option RateLimitEntry :=
  match limits l userId with
  | Some entry => if (resetAt entry <? now)%Z then None else Some entry
  | None => None
  end.

(** [check]: [true] when the user is to be blocked. *)
Definition check (now : Z) (userId : string) (l : Limiter) : bool * Limiter :=
  match current now userId l with
  | None =>
      (false,
       setEntry userId (Some {| count := 1; resetAt := now + windowMs l |}) l)
  | Some entry =>
      let entry' := {| count := count entry + 1; resetAt := resetAt entry |} in
      ((maxRequests l <? count entry')%Z, setEntry userId (Some entry') l)
  end.

Definition reset (userId : string) (l : Limiter) : Limiter :=
  setEntry userId None l.

Definition resetAll (l : Limiter) : Limiter :=
  {| limits := fun _ => None; maxRequests := maxRequests l;
     windowMs := windowMs l |}.

Definition remaining (now : Z) (userId : string) (l : Limiter) : Z :=
  match current now userId l with
  | None => maxRequests l
  | Some entry => Z.max 0 (maxRequests l - count entry)
  end.

(** The checks of one user at the given times, oldest first, and whether
    each was blocked. *)
Fixpoint checks (userId : string) (times : list Z) (l : Limiter)
  : list bool * Limiter :=
  match times with
  | [] => ([], l)
  | now :: rest =>
      let (blocked, l1) := check now userId l in
      let (bs, l2) := checks userId rest l1 in
      (blocked :: bs, l2)
  end.

End RateLimiter.

(** ** Invariants and sample inputs *)

Module Spec.

Import Queue AI.

(** The slots handed out are exactly the running count, which stays
    within the maximum. *)
Definition balanced (g : Gate) : Prop :=
  Z.of_nat (List.length (holders g)) = running (queue g)
  /\ (running (queue g) <= maxConcurrent (queue g))%Z.

(** Every waiter ever enqueued was either resumed, in order, or waits. *)
Definition fifo (g : Gate) : Prop :=
  enqueued g = resumed g ++ waiting (queue g).

Definition slotsHeld (cs : list (caller * Phase)) : nat :=
  List.length (filter (fun cp => holdsSlot (snd cp)) cs).

Definition weight (ph : Phase) : nat := if holdsSlot ph then 1 else 0.

(** The queue agrees with the phases of the calls. *)
Record consistent (pl : Pool) : Prop := {
  waiting_nodup : NoDup (waiting (gate (shared pl)));
  waiting_suspended :
    forall c, In c (waiting (gate (shared pl))) ->
              phaseOf c (calls pl) = Some Suspended;
  running_counts :
    Z.of_nat (slotsHeld (calls pl)) = running (gate (shared pl));
  running_bounded :
    (running (gate (shared pl)) <= maxConcurrent (gate (shared pl)))%Z;
  maximum_fixed : maxConcurrent (gate (shared pl)) = 2%Z
}.

(** [l1] is obtained from [l2] by dropping elements. *)
Inductive Subsequence {A : Type} : list A -> list A -> Prop :=
| sub_nil : Subsequence [] []
| sub_drop x l1 l2 : Subsequence l1 l2 -> Subsequence l1 (x :: l2)
| sub_keep x l1 l2 : Subsequence l1 l2 -> Subsequence (x :: l1) (x :: l2).

(** Two provider tables that differ at most in their [isActive] flags. *)
Definition sameCooldowns (ps ps' : Providers) : Prop :=
forall key, rateLimitedUntil (lookup ps key) = rateLimitedUntil (lookup ps' key).

(** *** Sample inputs *)

Local Open Scope string_scope.

(** All six provider slots configured, as in the test suites. *)
Definition fullConfig : AiConfig :=
  {| slots := fun _ => {| apiKey := "key"; slotModel := "model" |};
     embeddingApiKey := "key";
     embeddingModel := "gemini-embedding-001" |}.

(** No credentials at all. *)
Definition bareConfig : AiConfig :=
  {| slots := fun _ => {| apiKey := EmptyString; slotModel := EmptyString |};
     embeddingApiKey := EmptyString;
     embeddingModel := EmptyString |}.

Definition serverError : Thrown :=
  ThrownError "Internal error" (Some 500%Z) None None.
Definition rateLimitError : Thrown :=
  ThrownError "Rate limit" (Some 429%Z) None None.
Definition notFoundError : Thrown :=
  ThrownError "models/x is not found" (Some 404%Z) None None.

Definition always (t : Z) (out : Outcome) : ProviderSlot -> Observation :=
  fun _ => {| now := t; outcome := out; failedAt := t |}.

(** Three callers with two slots, released in another order. *)
Definition threeCallers : list event :=
  [Acquire 1; Acquire 2; Acquire 3; Release 2; Release 3; Release 1].

(** Three calls; the first one fails on all six providers and throws. *)
Definition failingCall (c : caller) : list Action :=
  (List.concat
     (repeat [Advance c 1000%Z; Deliver c (Rejected serverError) 1001%Z] 6)
   ++ [Advance c 1002%Z])%list.

Definition flood : list Action :=
  ([Invoke 1; Invoke 2; Invoke 3] ++ failingCall 1)%list.

Definition afterFlood : Pool :=
  match schedule fullConfig (start fullConfig) flood with
  | Some pl => pl
  | None => start fullConfig
  end.

(** The first provider answers 404, the others answer. *)
Definition firstNotFound : ProviderSlot -> Observation :=
  fun key =>
    match key with
    | gemini1 => {| now := 1000%Z; outcome := Rejected notFoundError;
                    failedAt := 1001%Z |}
    | _ => {| now := 1000%Z; outcome := Resolved (Some "answer");
              failedAt := 1001%Z |}
    end.

(** Every provider answers 429, the third one first. *)
Definition staggered429 : ProviderSlot -> Observation :=
  fun key =>
    {| now := 10000%Z;
       outcome := Rejected rateLimitError;
       failedAt := match key with
                   | gemini3 => 10100%Z
                   | gemini2 => 10400%Z
                   | _ => 10500%Z
                   end |}.

Definition dummyRun : Run :=
  {| settled := Fulfilled EmptyString; after := providers bareConfig; attempted := [] |}.

(** The call in which every provider answered 429, and the world after
    it: every provider is cooling, the third one until 40100. *)
Definition rateLimitedRun : Run :=
  match generateCompletion fullConfig staggered429 1 (boot fullConfig) with
  | Some (r, _) => r
  | None => dummyRun
  end.

Definition allCooling : World :=
  match generateCompletion fullConfig staggered429 1 (boot fullConfig) with
  | Some (_, w) => w
  | None => boot fullConfig
  end.

(** The second provider answers with an empty string, the third one with
    text. *)
Definition secondEmpty : ProviderSlot -> Observation :=
  fun key =>
    {| now := 1000%Z;
       outcome := match key with
                  | gemini1 => Rejected serverError
                  | gemini2 => Resolved (Some EmptyString)
                  | _ => Resolved (Some "answer")
                  end;
       failedAt := 1001%Z |}.

(** *** The cache *)

(** Every key written is a non-empty string. *)
Definition writesNamedKeys (ops : list Cache.op) : Prop :=
Forall (fun o => match Cache.written_key o with
                 | Some key => Js.truthy key = true
                 | None => True
                 end) ops.

(** The cache is within its capacity and holds no empty key. *)
Definition withinCapacity (m : Cache.Store) : Prop :=
(Cache.size m <= Cache.MAX_ENTRIES)%nat
/\ Forall (fun key => Js.truthy key = true) (Cache.keys m).

Definition keyOf (n : nat) : string :=
"k" ++ NilEmpty.string_of_uint (Nat.to_uint n).

Definition writeKey (key : string) : Cache.op :=
Cache.Set_ 0%Z key "v" Cache.DEFAULT_TTL_MS.

(** Writes of the keys [k1] ... [k200]. *)
Definition twoHundredWrites : list Cache.op :=
map (fun n => writeKey (keyOf n)) (seq 1 200).


(** A full cache whose oldest entry is read before the next write. *)
Definition readThenWrite : list Cache.op :=
(twoHundredWrites ++ [Cache.Get 1%Z (keyOf 1); writeKey (keyOf 201)])%list.

(** *** Embeddings *)

Definition keyMissing (cfg : AiConfig) : bool :=
negb (Js.truthy (embeddingApiKey cfg))
&& negb (Js.truthy (apiKey (slots cfg gemini1))).

Definition isNullish (i : Item) : bool :=
match i with
| ItemNullish => true
| ItemObject _ => false
end.

(** The embedding call fails: [fetch] rejects, the status is not OK, the
    body cannot be read or does not hold an array of objects. *)
Definition callFails (net : FetchOutcome) : bool :=
match net with
| FetchRejects _ => true
| FetchResponds ok _ body =>
    negb ok
    || match body with
       | BodyRejects _ | BodyNullish | BodyObject None => true
       | BodyObject (Some items) => existsb isNullish items
       end
end.

(** The array in a well-formed answer. *)
Definition answeredItems (net : FetchOutcome) : list Item :=
match net with
| FetchResponds _ _ (BodyObject (Some items)) => items
| _ => []
end.

Definition valuesOf (i : Item) : option Vector :=
match i with
| ItemNullish => None
| ItemObject values => values
end.

(** A well-formed answer that holds no embedding at all. *)
Definition noEmbeddings : FetchOutcome :=
FetchResponds true 200%Z (BodyObject (Some [])).

Definition timedOut : FetchOutcome :=
FetchRejects (ThrownError "This operation was aborted" None None None).

(** *** The parser and the pipeline *)

(** A runtime in which nothing is recognised: [JSON.parse] always throws
    and no regular expression matches. *)
Definition plainRuntime : Parser.Runtime :=
{| Parser.JSON_parse := fun _ => RejectedWith SyntaxError;
   Parser.outerFence := fun _ => None;
   Parser.stripOpeningFence := fun s => s;
   Parser.stripClosingFence := fun s => s;
   Parser.answerField := fun _ => None;
   Parser.followupsField := fun _ => None;
   Parser.takeawaysField := fun _ => None;
   Parser.quotedItems := fun _ => None;
   Parser.wrapper := fun _ _ => None;
   Parser.flattenToMarkdown := fun _ => Fulfilled EmptyString;
   Parser.numberToString := fun _ => "0";
   Parser.objectToString := fun _ => "[object Object]" |}.

(** The chunks that reach the similarity filter of [ragPipeline]: the
    neighbours retrieved for the query, scored and boosted. *)
Definition boostedNeighbors (e : Rag.Env) (query : string) (topK : nat)
  : Settled (list Rag.Chunk) :=
bind (generateEmbedding (Rag.aiConfig e) (Rag.embeddingNet e) query) (fun v =>
bind (Rag.queryDocuments e v topK) (fun results =>
  Rag.boostAll (Rag.queryTerms query) (Rag.scoredChunks results))).

(** One distant neighbour that shares a word with the query. *)
Definition distantNeighbor : Rag.QueryResult :=
{| Rag.ids := ["doc-1"];
   Rag.documents := [Some "Kerberos tickets and xss filters"];
   Rag.metadatas := [Some {| Rag.metaSource := Some "notes.md";
                             Rag.metaUrl := None |}];
   Rag.distances := [0.9%float] |}.

(** Two close neighbours. *)
Definition closeNeighbors : Rag.QueryResult :=
{| Rag.ids := ["doc-1"; "doc-2"];
   Rag.documents := [Some "Reflected xss explained"; Some "Stored xss"];
   Rag.metadatas := [Some {| Rag.metaSource := Some "owasp.md";
                             Rag.metaUrl := None |};
                     Some {| Rag.metaSource := None; Rag.metaUrl := None |}];
   Rag.distances := [0.2%float; 0.4%float] |}.

Definition sampleEnv (found : Rag.QueryResult) : Rag.Env :=
{| Rag.rt := plainRuntime;
   Rag.aiConfig := bareConfig;
   Rag.embeddingNet := timedOut;
   Rag.queryDocuments := fun _ _ => Fulfilled found;
   Rag.generateCompletion := fun _ => Fulfilled "Cross-site scripting is ...";
   Rag.labsSection := fun _ _ => None;
   Rag.coursesSection := fun _ _ => None;
   Rag.relatedSuffix := fun _ => Fulfilled None;
   Rag.rerankTop := 5;
   Rag.readAt := 1000%Z;
   Rag.writeAt := 2000%Z |}.

Definition freshState : Rag.State :=
{| Rag.cache := []; Rag.lastConfidence := 0%float; Rag.sent := [] |}.

Definition distantBoosted : list Rag.Chunk :=
match boostedNeighbors (sampleEnv distantNeighbor) "what is xss" 10 with
| Fulfilled cs => cs
| RejectedWith _ => []
end.

(** *** Further invariants of the queue *)

(** Nobody waits while a slot is free. *)
Definition fullWhenWaiting (q : LLMQueue) : Prop :=
(running q <= maxConcurrent q)%Z
/\ (waiting q = [] \/ running q = maxConcurrent q).

(** Every suspended call is on the wait list. *)
Definition suspendedListed (pl : Pool) : Prop :=
forall c, phaseOf c (calls pl) = Some Suspended ->
          In c (waiting (gate (shared pl))).

(** Three calls, the third of which has to wait. *)
Definition thirdWaits : list Action := [Invoke 1; Invoke 2; Invoke 3].

Definition afterThirdWaits : Pool :=
match schedule fullConfig (start fullConfig) thirdWaits with
| Some pl => pl
| None => start fullConfig
end.

(** *** Further sample inputs for the cache *)

(** The full cache of [twoHundredWrites]. *)
Definition fullCache : Cache.Store := Cache.run [] twoHundredWrites.

(** A cache with one expired and one live entry at time 1000. *)
Definition mixedCache : Cache.Store :=
[("old"%string, {| Cache.value := "stale"%string; Cache.expiresAt := 500%Z |});
 ("new"%string, {| Cache.value := "fresh"%string; Cache.expiresAt := 1500%Z |})].

(** *** Further sample inputs for the parser *)

(** Three line feeds in a row. *)
Definition tripleLf : string :=
String Parser.lf (String Parser.lf (String Parser.lf EmptyString)).

(** The object a model answered, with an escaped line feed in its answer. *)
Definition modelAnswer : list (string * Parser.JsValue) :=
[("answer"%string, Parser.JStr "  XSS is\nscripting  ");
 ("keyTakeaways"%string, Parser.JArr [Parser.JStr "escape output"])].

(** A runtime whose [JSON.parse] accepts everything as [modelAnswer]. *)
Definition cannedRuntime : Parser.Runtime :=
{| Parser.JSON_parse := fun _ => Fulfilled (Parser.JObj modelAnswer);
   Parser.outerFence := fun _ => None;
   Parser.stripOpeningFence := fun s => s;
   Parser.stripClosingFence := fun s => s;
   Parser.answerField := fun _ => None;
   Parser.followupsField := fun _ => None;
   Parser.takeawaysField := fun _ => None;
   Parser.quotedItems := fun _ => None;
   Parser.wrapper := fun _ _ => None;
   Parser.flattenToMarkdown := fun _ => Fulfilled EmptyString;
   Parser.numberToString := fun _ => "0"%string;
   Parser.objectToString := fun _ => "[object Object]"%string |}.

(** After [run] line feeds, [text] goes on with at most [2 - run] of them,
    and no later run of line feeds is longer than two. *)
Fixpoint runsWithinTwo (text : string) (run : nat) : bool :=
match text with
| EmptyString => true
| String a rest =>
    if Ascii.eqb a Parser.lf
    then (S run <=? 2)%nat && runsWithinTwo rest (S run)
    else runsWithinTwo rest 0
end.

(** *** A grounded answer *)

Definition groundedRun : Settled (option Rag.RAGResult) * Rag.State :=
Rag.ragPipeline (sampleEnv closeNeighbors) "what is xss" 10 Rag.beginner None
                freshState.

Definition groundedAnswer : Rag.RAGResult :=
match fst groundedRun with
| Fulfilled (Some r) => r
| _ => {| Rag.answer := Parser.JNull; Rag.sources := [];
          Rag.confidence := 0%float;
          Rag.suggestedFollowups := Parser.JNull;
          Rag.keyTakeaways := None |}
end.

(** The same server some minutes later, when it no longer answers. *)
Definition laterEnv : Rag.Env :=
{| Rag.rt := plainRuntime;
   Rag.aiConfig := bareConfig;
   Rag.embeddingNet := timedOut;
   Rag.queryDocuments := fun _ _ => Fulfilled distantNeighbor;
   Rag.generateCompletion := fun _ => RejectedWith (ThrownString "down");
   Rag.labsSection := fun _ _ => None;
   Rag.coursesSection := fun _ _ => None;
   Rag.relatedSuffix := fun _ => Fulfilled None;
   Rag.rerankTop := 5;
   Rag.readAt := 200000%Z;
   Rag.writeAt := 200001%Z |}.

(** *** A small lab registry *)

Definition overflowLab : Labs.Lab :=
{| Labs.name := "Stack Overflows"; Labs.url := "https://labs.example/bof";
   Labs.platform := "OffSec"; Labs.level := Rag.expert;
   Labs.topics := ["buffer overflow"; "exploit development"] |}.

Definition xssLab : Labs.Lab :=
{| Labs.name := "Reflected XSS"; Labs.url := "https://labs.example/xss";
   Labs.platform := "PortSwigger"; Labs.level := Rag.beginner;
   Labs.topics := ["xss"; "cross-site scripting"] |}.

Definition sqliLab : Labs.Lab :=
{| Labs.name := "Blind SQL injection"; Labs.url := "https://labs.example/sqli";
   Labs.platform := "PortSwigger"; Labs.level := Rag.intermediate;
   Labs.topics := ["sql injection"; "sqli"] |}.

Definition registry : list Labs.Lab := [overflowLab; xssLab; sqliLab].

(** The score a returned list was ranked by: the one of the requested
    level when a lab of that level qualifies, the fallback one otherwise. *)
Definition rankingScore (ALL_LABS : list Labs.Lab) (topic : string)
           (lvl : Rag.Level) : Labs.Lab -> nat :=
let lower := toLowerCase topic in
let words := Labs.topicWords lower in
match Labs.ranked (Labs.scoreAtLevel lower words)
        (filter (fun lab => Labs.level_eqb (Labs.level lab) lvl) ALL_LABS) with
| _ :: _ => Labs.scoreAtLevel lower words
| [] => Labs.scoreFallback lower words
end.

(** *** The vector store *)

(** What the server would do for a call. *)
Definition serverOf (c : Chroma.Call) : Chroma.Connection :=
match c with
| Chroma.Get _ net | Chroma.Add _ net _ | Chroma.Query _ net _ => net
end.

(** The reply of a call that did not reach the server. *)
Definition quiet (c : Chroma.Call) : Chroma.Reply :=
match c with
| Chroma.Get _ _ => Chroma.Got None
| Chroma.Add _ _ _ => Chroma.AddSettled (Fulfilled false)
| Chroma.Query _ _ _ => Chroma.Queried Chroma.noResults
end.

Definition refused (net : Chroma.Connection) : Prop :=
match net with
| Chroma.Connected _ => False
| _ => True
end.

(** A server that is down at 1 s, and three calls within the next minute
    for which it would be up again. *)
Definition downAt1s : Chroma.Call :=
Chroma.Get {| Chroma.enteredAt := 1000; Chroma.failedAt := 1200 |}
           Chroma.Unreachable.

Definition withinTheMinute : list Chroma.Call :=
[Chroma.Get {| Chroma.enteredAt := 5000; Chroma.failedAt := 5000 |}
            (Chroma.Connected 7);
 Chroma.Query {| Chroma.enteredAt := 30000; Chroma.failedAt := 30000 |}
              (Chroma.Connected 7)
              (fun _ => RejectedWith (ThrownString "unused"));
 Chroma.Add {| Chroma.enteredAt := 61199; Chroma.failedAt := 61199 |}
            (Chroma.Connected 7) (fun _ => Fulfilled tt)].

Definition connectedTo7 : Chroma.State :=
{| Chroma.collection := Some 7%nat; Chroma.isRagDisabled := false;
   Chroma.lastRetryAt := 0 |}.

(** *** The rate limiter *)

(** Whether the [k]-th check of a window, counted from one, is blocked. *)
Definition blockedAt (maxRequests : Z) (k : nat) : bool :=
(1 <? k)%nat && (maxRequests <? Z.of_nat k)%Z.

(** *** Predicates on parsed output and ranked labs *)

(** A truthy answer of the value is a string. *)
Definition answerIsText (v : Parser.JsValue) : Prop :=
forall a, Parser.getField v "answer" = Fulfilled (Some a) ->
          Parser.truthy (Some a) = true -> exists s, a = Parser.JStr s.

Definition descending (a b : Labs.Lab * nat) : Prop := (snd b <= snd a)%nat.

(** The pairs that are ranked. *)
Definition candidates (score : Labs.Lab -> nat) (labs : list Labs.Lab)
  : list (Labs.Lab * nat) :=
filter (fun x => (Labs.MIN_SCORE <=? snd x)%nat)
       (map (fun lab => (lab, score lab)) labs).

(** *** Structured answers *)

(** An object whose answer is a string. *)
Definition structured (v : Parser.JsValue) : Prop :=
exists fields s,
  v = Parser.JObj fields
  /\ Parser.assoc "answer" fields = Some (Parser.JStr s).

(** A runtime whose [JSON.parse] reads the text [42] as the number 42 and
    rejects every other text, and in which no regular expression matches. *)
Definition numberRuntime : Parser.Runtime :=
{| Parser.JSON_parse :=
     fun text => if String.eqb text "42"
                 then Fulfilled (Parser.JNum 42%float)
                 else RejectedWith SyntaxError;
   Parser.outerFence := fun _ => None;
   Parser.stripOpeningFence := fun s => s;
   Parser.stripClosingFence := fun s => s;
   Parser.answerField := fun _ => None;
   Parser.followupsField := fun _ => None;
   Parser.takeawaysField := fun _ => None;
   Parser.quotedItems := fun _ => None;
   Parser.wrapper := fun _ _ => None;
   Parser.flattenToMarkdown := fun _ => Fulfilled EmptyString;
   Parser.numberToString := fun _ => "42"%string;
   Parser.objectToString := fun _ => "[object Object]"%string |}.

(** *** One call among interleaved calls *)

(** The providers on which the call has called [create] so far. *)
Definition triedOf (ph : Phase) : list ProviderSlot :=
match ph with
| Suspended => []
| InLoop _ tried _ => tried
| Awaiting _ _ tried _ => tried
| Done _ tried => tried
end.

(** The call an action belongs to. *)
Definition actor (a : Action) : caller :=
match a with
| Invoke c => c
| Advance c _ => c
| Deliver c _ _ => c
end.

(** A completion that [generateCompletion] returns: a non-empty text. *)
Definition usableOutcome (out : Outcome) : bool :=
match out with
| Resolved (Some text) => Js.truthy text
| _ => false
end.

Definition unusableCall (d : ProviderSlot * Outcome) : bool := negb (usableOutcome (snd d)).

(** What the action hands to call [c]: the provider the call was waiting
    for and how its [create] settled. *)
Definition delivered (pl : Pool) (a : Action) (c : caller)
  : list (ProviderSlot * Outcome) :=
match a with
| Deliver c' out _ =>
    if Nat.eqb c' c
    then match phaseOf c (calls pl) with
         | Some (Awaiting key _ _ _) => [(key, out)]
         | _ => []
         end
    else []
| _ => []
end.

(** The provider calls of call [c] that settled along a schedule, in
    order: which provider, and how. *)
Fixpoint transcript (cfg : AiConfig) (pl : Pool) (acts : list Action)
         (c : caller) : list (ProviderSlot * Outcome) :=
match acts with
| [] => []
| a :: rest =>
    match act cfg pl a with
    | Some pl' => (delivered pl a c ++ transcript cfg pl' rest c)%list
    | None => []
    end
end.

(** The last error among the provider calls that settled. *)
Definition lastErrorOf (tr : list (ProviderSlot * Outcome)) : option Thrown :=
fold_left (fun lastError d =>
             match snd d with
             | Rejected e => Some e
             | Resolved _ => lastError
             end) tr None.

(** The phase of a call agrees with the provider calls that settled for
    it. *)
Definition accounted (cfg : AiConfig) (tr : list (ProviderSlot * Outcome))
           (ph : option Phase) : Prop :=
match ph with
| None | Some Suspended => tr = []
| Some (InLoop todo tried lastError) =>
    (exists done, PROVIDER_PRIORITY cfg = (done ++ todo)%list
                  /\ Subsequence tried done)
    /\ tried = map fst tr
    /\ forallb unusableCall tr = true
    /\ lastError = lastErrorOf tr
| Some (Awaiting key rest tried lastError) =>
    (exists done, PROVIDER_PRIORITY cfg = (done ++ key :: rest)%list
                  /\ Subsequence (map fst tr) done)
    /\ tried = (map fst tr ++ [key])%list
    /\ forallb unusableCall tr = true
    /\ lastError = lastErrorOf tr
| Some (Done (Fulfilled text) tried) =>
    exists earlier key done rest,
      tr = (earlier ++ [(key, Resolved (Some text))])%list
      /\ Js.truthy text = true
      /\ forallb unusableCall earlier = true
      /\ tried = (map fst earlier ++ [key])%list
      /\ PROVIDER_PRIORITY cfg = (done ++ key :: rest)%list
      /\ Subsequence (map fst earlier) done
| Some (Done (RejectedWith e) tried) =>
    forallb unusableCall tr = true
    /\ tried = map fst tr
    /\ Subsequence tried (PROVIDER_PRIORITY cfg)
    /\ e = exhausted (lastErrorOf tr)
end.

(** No two entries of the pool belong to the same call. *)
Definition distinctCallers (pl : Pool) : Prop := NoDup (map fst (calls pl)).

(** An upper bound on the steps a call still takes, [n] being the length
    of [PROVIDER_PRIORITY]. *)
Definition workOf (n : nat) (ph : Phase) : nat :=
match ph with
| Suspended => 2 * n + 2
| InLoop todo _ _ => 2 * List.length todo + 1
| Awaiting _ rest _ _ => 2 * List.length rest + 2
| Done _ _ => 0
end.

Definition work (cfg : AiConfig) (cs : list (caller * Phase)) : nat :=
list_sum (map (fun cp => workOf (List.length (PROVIDER_PRIORITY cfg)) (snd cp))
              cs).

(** The next step of the first call that holds a slot, when the provider
    calls settle as [out] says and the clock reads [clock]. *)
Fixpoint nextAction (out : caller -> ProviderSlot -> Outcome) (clock : Z)
         (cs : list (caller * Phase)) : option Action :=
match cs with
| [] => None
| (c, ph) :: rest =>
    match ph with
    | InLoop _ _ _ => Some (Advance c clock)
    | Awaiting key _ _ _ => Some (Deliver c (out c key) clock)
    | _ => nextAction out clock rest
    end
end.

(** Let the calls run on, no new call arriving, for at most [fuel] steps:
    the steps taken and the pool reached. *)
Fixpoint drain (cfg : AiConfig) (out : caller -> ProviderSlot -> Outcome)
         (clock : Z) (fuel : nat) (pl : Pool) : list Action * Pool :=
match fuel with
| O => ([], pl)
| S n =>
    match nextAction out clock (calls pl) with
    | None => ([], pl)
    | Some a =>
        match act cfg pl a with
        | None => ([], pl)
        | Some pl' =>
            let (acts, pl'') := drain cfg out clock n pl' in
            (a :: acts, pl'')
        end
    end
end.

(** Three calls on two slots: the third one waits until the first one has
    returned, is rejected by the first provider, gets an empty completion
    from the second and a text from the third. *)
Definition queuedCall : list Action :=
[Invoke 1; Invoke 2; Invoke 3;
 Advance 1 1000%Z; Deliver 1 (Resolved (Some "first")) 1001%Z;
 Advance 3 1002%Z; Deliver 3 (Rejected serverError) 1003%Z;
 Advance 3 1004%Z; Deliver 3 (Resolved (Some EmptyString)) 1005%Z;
 Advance 3 1006%Z; Deliver 3 (Resolved (Some "answer")) 1007%Z].

Definition afterQueuedCall : Pool :=
match schedule fullConfig (start fullConfig) queuedCall with
| Some pl => pl
| None => start fullConfig
end.

(** Every provider call is rejected with a server error. *)
Definition allRejected : caller -> ProviderSlot -> Outcome :=
fun _ _ => Rejected serverError.

(** Three calls without any provider configured; the first one has run. *)
Definition bareCalls : list Action :=
[Invoke 1; Invoke 2; Invoke 3; Advance 1 1000%Z].

Definition afterBareCalls : Pool :=
match schedule bareConfig (start bareConfig) bareCalls with
| Some pl => pl
| None => start bareConfig
end.

(** *** A reference cache that records when each entry was last used

    The cache as the specification words it: every entry carries the time
    of its last use, which is the time it was inserted or last returned by
    a read, and a write at capacity evicts the entry whose last use lies
    furthest back.  The order in which the entries are stored plays no part
    in what is read or evicted. *)

Record Used := mkUsed {
  usedKey : string;
  usedEntry : Cache.CacheEntry;
  lastUse : nat
}.

Fixpoint lruFind (key : string) (s : list Used) : option Used :=
match s with
| [] => None
| x :: rest => if String.eqb (usedKey x) key then Some x else lruFind key rest
end.












End Spec.

(* ================================================================== *)
(** * Part II: properties                                              *)
(* ================================================================== *)

Unset Implicit Arguments.

(** ** The LLM request queue *)

Module QueueFacts.

Import Queue Spec.

Lemma remove_one_length c xs :
  member c xs = true ->
  S (List.length (remove_one c xs)) = List.length xs.
Proof.
  induction xs as [|x xs IH]; simpl; [discriminate|].
  destruct (Nat.eqb x c); simpl; [reflexivity|].
  intros H. rewrite IH by exact H. reflexivity.
Qed.

Lemma maxConcurrent_step g e :
  maxConcurrent (queue (step g e)) = maxConcurrent (queue g).
Proof.
  destruct e as [c|c]; simpl.
  - unfold acquire. destruct (running (queue g) <? maxConcurrent (queue g))%Z;
      reflexivity.
  - unfold release. destruct (waiting (queue g)); reflexivity.
Qed.

Lemma maxConcurrent_run es : forall g,
  maxConcurrent (queue (run g es)) = maxConcurrent (queue g).
Proof.
  induction es as [|e es IH]; intros g; simpl; [reflexivity|].
  rewrite IH. apply maxConcurrent_step.
Qed.

Lemma balanced_step g e :
  balanced g -> legitimate g e = true -> balanced (step g e).
Proof.
  intros [Hcount Hmax] Hleg. unfold balanced.
  destruct e as [c|c]; simpl in *.
  - unfold acquire.
    destruct (running (queue g) <? maxConcurrent (queue g))%Z eqn:Hlt; simpl.
    + apply Z.ltb_lt in Hlt. rewrite length_app. simpl. lia.
    + auto.
  - pose proof (remove_one_length c (holders g) Hleg) as Hlen.
    unfold release. destruct (waiting (queue g)) as [|next rest]; simpl.
    + lia.
    + rewrite length_app. simpl. lia.
Qed.

Lemma balanced_run es : forall g,
  balanced g -> legitimate_run g es = true -> balanced (run g es).
Proof.
  induction es as [|e es IH]; intros g Hg Hleg; simpl in *; [exact Hg|].
  apply andb_true_iff in Hleg. destruct Hleg as [He Hes].
  apply IH; [apply balanced_step; assumption | exact Hes].
Qed.

Lemma fifo_step g e : fifo g -> fifo (step g e).
Proof.
  unfold fifo. intros H. destruct e as [c|c]; simpl.
  - unfold acquire.
    destruct (running (queue g) <? maxConcurrent (queue g))%Z; simpl.
    + exact H.
    + rewrite H. rewrite app_assoc. reflexivity.
  - unfold release. destruct (waiting (queue g)) as [|next rest] eqn:Hw; simpl.
    + rewrite H. reflexivity.
    + rewrite H. rewrite <- app_assoc. reflexivity.
Qed.

Lemma fifo_run es : forall g, fifo g -> fifo (run g es).
Proof.
  induction es as [|e es IH]; intros g Hg; simpl; [exact Hg|].
  apply IH. apply fifo_step. exact Hg.
Qed.

(** With both slots taken, callers 3, 4 and 5 queue up, and three
    releases resume them in that order. *)
Example three_waiters_in_order :
  let g := run llmGate [Acquire 1; Acquire 2; Acquire 3; Acquire 4;
                        Acquire 5; Release 1; Release 2; Release 3] in
  resumed g = [3; 4; 5] /\ running (queue g) = 2%Z.
Proof. split; reflexivity. Qed.

(** C6: [release] hands the freed slot to the head of the wait list and
    leaves the running count as it is when somebody waits, and decrements
    the running count otherwise; hence, along every interleaving of
    [acquire] and [release] calls on [llmQueue], the waiters resumed so far
    are, in order, the first waiters enqueued, the others still waiting in
    their order of arrival. *)
Theorem release_resumes_waiters_fifo :
  (forall r next rest m,
      release (mkQueue r (next :: rest) m) = (mkQueue r rest m, Some next))
  /\ (forall r m,
      release (mkQueue r [] m) = (mkQueue (r - 1) [] m, None))
  /\ (forall es,
      enqueued (run llmGate es)
      = resumed (run llmGate es) ++ waiting (queue (run llmGate es))).
Proof.
  split; [reflexivity|]. split; [reflexivity|].
  intros es. apply (fifo_run es llmGate). reflexivity.
Qed.

End QueueFacts.

(** ** Interleaved [generateCompletion] calls and the queue *)

Module PoolFacts.

Import Queue AI Spec.

Lemma phaseOf_setPhase_same c ph cs old :
  phaseOf c cs = Some old -> phaseOf c (setPhase c ph cs) = Some ph.
Proof.
  induction cs as [|[c' ph'] cs IH]; simpl; [discriminate|].
  destruct (Nat.eqb c' c) eqn:E; simpl; rewrite E; auto.
Qed.

Lemma phaseOf_setPhase_other c c' ph cs :
  c <> c' -> phaseOf c (setPhase c' ph cs) = phaseOf c cs.
Proof.
  intros Hne. induction cs as [|[d ph'] cs IH]; simpl; [reflexivity|].
  destruct (Nat.eqb d c') eqn:E; simpl.
  - apply Nat.eqb_eq in E. subst d.
    destruct (Nat.eqb c' c) eqn:E'; [|reflexivity].
    apply Nat.eqb_eq in E'. congruence.
  - destruct (Nat.eqb d c); [reflexivity | exact IH].
Qed.

Lemma slotsHeld_setPhase c ph cs old :
  phaseOf c cs = Some old ->
  (slotsHeld (setPhase c ph cs) + weight old = slotsHeld cs + weight ph)%nat.
Proof.
  unfold slotsHeld, weight.
  induction cs as [|[c' ph'] cs IH]; simpl; [discriminate|].
  destruct (Nat.eqb c' c) eqn:E; simpl.
  - intros H. injection H as ->.
    destruct (holdsSlot old), (holdsSlot ph); simpl; lia.
  - intros H. specialize (IH H).
    destruct (holdsSlot ph'); simpl; lia.
Qed.

Lemma phaseOf_app c cs c' ph :
  phaseOf c (cs ++ [(c', ph)])
  = match phaseOf c cs with
    | Some p => Some p
    | None => if Nat.eqb c' c then Some ph else None
    end.
Proof.
  induction cs as [|[d p] cs IH]; simpl; [reflexivity|].
  destruct (Nat.eqb d c); [reflexivity | exact IH].
Qed.

Lemma slotsHeld_app cs c ph :
  slotsHeld (cs ++ [(c, ph)]) = (slotsHeld cs + weight ph)%nat.
Proof.
  unfold slotsHeld, weight. rewrite filter_app, length_app. simpl.
  destruct (holdsSlot ph); reflexivity.
Qed.

(** A call that holds a slot moves on inside its [try] block. *)
Lemma consistent_move pl c old ph ps :
  consistent pl ->
  phaseOf c (calls pl) = Some old ->
  holdsSlot old = true -> holdsSlot ph = true ->
  consistent {| shared := {| store := ps; gate := gate (shared pl) |};
                calls := setPhase c ph (calls pl) |}.
Proof.
  intros [Hnd Hsus Hcnt Hbd Hmax] Hc Hold Hph.
  constructor; simpl; auto.
  - intros w Hw. rewrite phaseOf_setPhase_other; [auto|].
    intros ->. rewrite (Hsus c Hw) in Hc. injection Hc as <-. discriminate.
  - pose proof (slotsHeld_setPhase c ph (calls pl) old Hc) as H.
    unfold weight in H. rewrite Hold, Hph in H. lia.
Qed.

(** A call that holds a slot leaves its [try] block: the [finally] block
    gives the slot back. *)
Lemma consistent_leave cfg pl c old r tried ps :
  consistent pl ->
  phaseOf c (calls pl) = Some old ->
  holdsSlot old = true ->
  consistent (leave cfg c r tried ps pl).
Proof.
  intros [Hnd Hsus Hcnt Hbd Hmax] Hc Hold.
  pose proof (slotsHeld_setPhase c (Done r tried) (calls pl) old Hc) as Hdone.
  unfold weight in Hdone. rewrite Hold in Hdone. simpl in Hdone.
  unfold leave, release.
  destruct (waiting (gate (shared pl))) as [|w rest] eqn:Hw; simpl.
  - constructor; simpl; auto; try lia; try constructor.
  - assert (Hwc : w <> c).
    { intros ->. rewrite (Hsus c (or_introl eq_refl)) in Hc.
      injection Hc as <-. discriminate. }
    assert (Hwph : phaseOf w (setPhase c (Done r tried) (calls pl))
                   = Some Suspended).
    { rewrite phaseOf_setPhase_other by exact Hwc.
      apply Hsus. left. reflexivity. }
    inversion Hnd as [|? ? Hnotin Hrest]; subst.
    constructor; simpl; auto.
    + intros x Hx.
      assert (x <> w) by (intros ->; contradiction).
      assert (x <> c).
      { intros ->. rewrite (Hsus c (or_intror Hx)) in Hc.
        injection Hc as <-. discriminate. }
      rewrite !phaseOf_setPhase_other by assumption.
      apply Hsus. right. exact Hx.
    + pose proof (slotsHeld_setPhase w
                    (InLoop (PROVIDER_PRIORITY cfg) [] None)
                    _ Suspended Hwph) as Hwake.
      unfold weight in Hwake. simpl in Hwake. lia.
Qed.

Lemma consistent_start cfg : consistent (start cfg).
Proof.
  constructor; simpl; try reflexivity.
  - constructor.
  - intros c [].
  - lia.
Qed.

Lemma consistent_act cfg pl a pl' :
  consistent pl -> act cfg pl a = Some pl' -> consistent pl'.
Proof.
  intros Hpl. destruct a as [c|c t|c out t]; simpl.
  - destruct (phaseOf c (calls pl)) eqn:Hc; [discriminate|].
    destruct Hpl as [Hnd Hsus Hcnt Hbd Hmax].
    unfold acquire.
    destruct (running (gate (shared pl)) <? maxConcurrent (gate (shared pl)))%Z
      eqn:Hlt; intros H; injection H as <-.
    + apply Z.ltb_lt in Hlt.
      constructor; simpl; auto.
      * intros w Hw. rewrite phaseOf_app, (Hsus w Hw). reflexivity.
      * rewrite slotsHeld_app. unfold weight. cbn [holdsSlot]. lia.
      * lia.
    + assert (Hnotin : ~ In c (waiting (gate (shared pl)))).
      { intros Hin. rewrite (Hsus c Hin) in Hc. discriminate. }
      constructor; simpl; auto.
      * apply NoDup_app; [exact Hnd | repeat constructor; intros [] | ].
        intros x Hx [<-|[]]. contradiction.
      * intros w Hw. rewrite phaseOf_app.
        apply in_app_or in Hw. destruct Hw as [Hw|[<-|[]]].
        -- rewrite (Hsus w Hw). reflexivity.
        -- rewrite Hc, Nat.eqb_refl. reflexivity.
      * rewrite slotsHeld_app. unfold weight. cbn [holdsSlot]. lia.
  - destruct (phaseOf c (calls pl)) as [[|todo tried lastError| |]|] eqn:Hc;
      try discriminate.
    destruct todo as [|key rest].
    + intros H. injection H as <-.
      eapply consistent_leave; eauto.
    + destruct (beginTurn t key (store (shared pl))) as [ps1|];
        intros H; injection H as <-.
      * eapply consistent_move; eauto.
      * destruct pl as [[st g] cs]. simpl in *.
        eapply (consistent_move {| shared := {| store := st; gate := g |};
                                   calls := cs |}); eauto.
  - destruct (phaseOf c (calls pl)) as [[| |key rest tried lastError|]|] eqn:Hc;
      try discriminate.
    destruct (endTurn out t key (store (shared pl)) lastError)
      as [|ps' text|ps' lastError']; intros H; try discriminate;
      injection H as <-.
    + eapply consistent_leave; eauto.
    + eapply consistent_move; eauto.
Qed.

Lemma consistent_schedule cfg acts : forall pl pl',
  consistent pl -> schedule cfg pl acts = Some pl' -> consistent pl'.
Proof.
  induction acts as [|a acts IH]; intros pl pl' Hpl; simpl.
  - intros H. injection H as <-. exact Hpl.
  - destruct (act cfg pl a) as [pl1|] eqn:Ha; [|discriminate].
    apply IH. eapply consistent_act; eauto.
Qed.

(** C1: along every interleaving of [acquire] and [release] calls on
    [llmQueue] in which only holders of a slot release, the callers holding
    a slot (those granted one at once and the waiters handed a freed one)
    are as many as the running count and never more than [maxConcurrent],
    which is 2; and along every interleaving of [generateCompletion] calls
    the calls inside their [try] block are as many as the running count and
    never more than 2: a call that has returned or thrown, also after all
    providers failed, has given its slot back. *)
Theorem slots_held_never_exceed_maxConcurrent
    (es : list event) (cfg : AiConfig) (acts : list Action) (pl : Pool)
    (Hholders : legitimate_run llmGate es = true)
    (Hreach : schedule cfg (start cfg) acts = Some pl) :
  Z.of_nat (List.length (holders (run llmGate es)))
  = running (queue (run llmGate es))
  /\ (Z.of_nat (List.length (holders (run llmGate es)))
      <= maxConcurrent llmQueue)%Z
  /\ Z.of_nat (inFlight pl) = running (gate (shared pl))
  /\ (Z.of_nat (inFlight pl) <= maxConcurrent llmQueue)%Z
  /\ maxConcurrent llmQueue = 2%Z.
Proof.
  assert (Hg : balanced (run llmGate es)).
  { apply QueueFacts.balanced_run; [|exact Hholders].
    split; simpl; lia. }
  destruct Hg as [Hcount Hmax].
  rewrite QueueFacts.maxConcurrent_run in Hmax.
  pose proof (consistent_schedule cfg acts (start cfg) pl
                (consistent_start cfg) Hreach) as [_ _ Hcnt Hbd Hfix].
  change (slotsHeld (calls pl)) with (inFlight pl) in Hcnt.
  simpl in *. repeat split; try lia.
Qed.

Lemma slots_held_witness :
  legitimate_run llmGate threeCallers = true
  /\ schedule fullConfig (start fullConfig) flood = Some afterFlood
  /\ phaseOf 1 (calls afterFlood)
     = Some (Done (RejectedWith (LLMError "all" "Internal error")) allSlots)
  /\ (Z.of_nat (List.length (holders (run llmGate threeCallers))) <= 2)%Z
  /\ Z.of_nat (inFlight afterFlood) = running (gate (shared afterFlood))
  /\ (Z.of_nat (inFlight afterFlood) <= 2)%Z.
Proof.
  assert (H1 : legitimate_run llmGate threeCallers = true) by reflexivity.
  assert (H2 : schedule fullConfig (start fullConfig) flood = Some afterFlood)
    by reflexivity.
  pose proof (slots_held_never_exceed_maxConcurrent
                threeCallers fullConfig flood afterFlood H1 H2)
    as [_ [Ha [Hb [Hc _]]]].
  repeat split; try assumption; reflexivity.
Defined.

End PoolFacts.

(** ** The provider fallback chain *)

Module FallbackFacts.

Import Queue AI Spec.

Lemma Subsequence_incl {A} (l1 l2 : list A) :
  Subsequence l1 l2 -> incl l1 l2.
Proof.
  induction 1 as [|x l1 l2 _ IH|x l1 l2 _ IH]; intros y Hy.
  - exact Hy.
  - right. apply IH. exact Hy.
  - destruct Hy as [<-|Hy]; [left; reflexivity | right; apply IH; exact Hy].
Qed.

Lemma Subsequence_NoDup {A} (l1 l2 : list A) :
  Subsequence l1 l2 -> NoDup l2 -> NoDup l1.
Proof.
  induction 1 as [|x l1 l2 Hs IH|x l1 l2 Hs IH]; intros Hnd.
  - constructor.
  - inversion Hnd; subst. auto.
  - inversion Hnd as [|? ? Hnotin Hrest]; subst. constructor; [|auto].
    intros Hin. apply Hnotin. eapply Subsequence_incl; eauto.
Qed.

Lemma NoDup_PROVIDER_PRIORITY cfg : NoDup (PROVIDER_PRIORITY cfg).
Proof.
  unfold PROVIDER_PRIORITY. apply NoDup_filter. unfold allSlots.
  repeat constructor; simpl; intuition discriminate.
Qed.

(** The loop appends to [attempted] a selection of the keys it walks. *)
Lemma providerLoop_attempted env keys : forall ps tried lastError,
  exists picked,
    attempted (providerLoop env keys ps tried lastError) = tried ++ picked
    /\ Subsequence picked keys.
Proof.
  induction keys as [|key rest IH]; intros ps tried lastError; simpl.
  - exists []. rewrite app_nil_r. split; [reflexivity | constructor].
  - destruct (turn (env key) key ps lastError) as [|ps' text|ps' lastError'].
    + destruct (IH ps tried lastError) as [picked [Heq Hsub]].
      exists picked. split; [exact Heq | constructor; exact Hsub].
    + exists [key]. simpl. split; [reflexivity|].
      apply sub_keep. clear. induction rest; constructor; assumption.
    + destruct (IH ps' (tried ++ [key]) lastError') as [picked [Heq Hsub]].
      exists (key :: picked). rewrite Heq, <- app_assoc. simpl.
      split; [reflexivity | constructor; exact Hsub].
Qed.

(** The loop either returns a non-empty text that the last provider it
    attempted produced, or throws the one [LLMError]. *)
Lemma providerLoop_settled env keys : forall ps tried lastError,
  let r := providerLoop env keys ps tried lastError in
  (exists text key,
      settled r = Fulfilled text /\ In key keys
      /\ In key (attempted r)
      /\ outcome (env key) = Resolved (Some text) /\ text <> EmptyString)
  \/ (exists lastError', settled r = RejectedWith (exhausted lastError')).
Proof.
  induction keys as [|key rest IH]; intros ps tried lastError; simpl.
  - right. exists lastError. reflexivity.
  - unfold turn.
    destruct (beginTurn (now (env key)) key ps) as [ps1|].
    + unfold endTurn.
      destruct (outcome (env key)) as [[text|]|e] eqn:Hout.
      * destruct text as [|a text']; simpl.
        -- destruct (IH ps1 (tried ++ [key]) lastError)
             as [[text [k [Hs [Hk [Ha [Ho Hne]]]]]]|[le Hs]].
           ++ left. exists text, k. auto.
           ++ right. exists le. exact Hs.
        -- left. exists (String a text'), key. simpl.
           repeat split; auto.
           ++ apply in_or_app. right. left. reflexivity.
           ++ discriminate.
      * destruct (IH ps1 (tried ++ [key]) lastError)
          as [[text [k [Hs [Hk [Ha [Ho Hne]]]]]]|[le Hs]].
        -- left. exists text, k. auto.
        -- right. exists le. exact Hs.
      * destruct (IH (recordFailure (failedAt (env key)) key e ps1)
                     (tried ++ [key]) (Some e))
          as [[text [k [Hs [Hk [Ha [Ho Hne]]]]]]|[le Hs]].
        -- left. exists text, k. auto.
        -- right. exists le. exact Hs.
    + destruct (IH ps tried lastError)
        as [[text [k [Hs [Hk [Ha [Ho Hne]]]]]]|[le Hs]].
      * left. exists text, k. auto.
      * right. exists le. exact Hs.
Qed.

Lemma generateCompletion_inv cfg env c w r w' :
  generateCompletion cfg env c w = Some (r, w') ->
  r = providerLoop env (PROVIDER_PRIORITY cfg) (store w) [] None
  /\ gate w' = fst (release (fst (acquire c (gate w)))).
Proof.
  unfold generateCompletion.
  destruct (acquire c (gate w)) as [q1 granted] eqn:Hacq.
  destruct granted; [|discriminate].
  intros H. injection H as <- <-. split; reflexivity.
Qed.

Lemma lookup_update key key' f ps :
  lookup (update key f ps) key'
  = if slot_eqb key key' then f (lookup ps key) else lookup ps key'.
Proof. destruct key, key'; reflexivity. Qed.

Lemma sameCooldowns_update key f ps ps' :
  (forall p p', rateLimitedUntil p = rateLimitedUntil p' ->
                rateLimitedUntil (f p) = rateLimitedUntil (f p')) ->
  sameCooldowns ps ps' ->
  sameCooldowns (update key f ps) (update key f ps').
Proof.
  intros Hf Hsame k. rewrite !lookup_update.
  destruct (slot_eqb key k); [apply Hf|]; apply Hsame.
Qed.

Lemma sameCooldowns_disable key ps :
  sameCooldowns ps (update key (setIsActive false) ps).
Proof.
  intros k. rewrite lookup_update. destruct (slot_eqb key k) eqn:E;
    [|reflexivity].
  destruct key, k; try discriminate; reflexivity.
Qed.

Lemma beginTurn_sameCooldowns t key ps ps' :
  sameCooldowns ps ps' ->
  match beginTurn t key ps, beginTurn t key ps' with
  | None, None => True
  | Some ps1, Some ps1' => sameCooldowns ps1 ps1'
  | _, _ => False
  end.
Proof.
  intros Hsame. unfold beginTurn. rewrite <- (Hsame key).
  destruct (0 <? rateLimitedUntil (lookup ps key))%Z; [|exact Hsame].
  destruct (rateLimitedUntil (lookup ps key) <=? t)%Z; [|exact I].
  apply sameCooldowns_update; [reflexivity | exact Hsame].
Qed.

Lemma recordFailure_sameCooldowns t key e ps ps' :
  sameCooldowns ps ps' ->
  sameCooldowns (recordFailure t key e ps) (recordFailure t key e ps').
Proof.
  intros Hsame. unfold recordFailure, markRateLimited.
  destruct (_ || _).
  - apply sameCooldowns_update; [reflexivity | exact Hsame].
  - destruct (statusIs 404 _); [|exact Hsame].
    apply sameCooldowns_update; [|exact Hsame].
    intros p p' H. exact H.
Qed.

(** The loop never reads [isActive]: provider tables that agree on the
    cooldowns lead to the same attempts and the same outcome. *)
Lemma providerLoop_ignores_isActive env keys : forall ps ps' tried lastError,
  sameCooldowns ps ps' ->
  settled (providerLoop env keys ps tried lastError)
  = settled (providerLoop env keys ps' tried lastError)
  /\ attempted (providerLoop env keys ps tried lastError)
     = attempted (providerLoop env keys ps' tried lastError)
  /\ sameCooldowns (after (providerLoop env keys ps tried lastError))
                   (after (providerLoop env keys ps' tried lastError)).
Proof.
  induction keys as [|key rest IH]; intros ps ps' tried lastError Hsame; simpl.
  - repeat split. exact Hsame.
  - unfold turn.
    pose proof (beginTurn_sameCooldowns (now (env key)) key ps ps' Hsame) as Hb.
    destruct (beginTurn (now (env key)) key ps) as [ps1|],
             (beginTurn (now (env key)) key ps') as [ps1'|];
      try contradiction.
    + unfold endTurn.
      destruct (outcome (env key)) as [[text|]|e].
      * destruct (Js.truthy text); simpl; [repeat split; exact Hb|].
        apply IH. exact Hb.
      * apply IH. exact Hb.
      * apply IH. apply recordFailure_sameCooldowns. exact Hb.
    + apply IH. exact Hsame.
Qed.

(** A chain whose providers are all cooling attempts nobody. *)
Lemma cooling_chain_attempts_nobody env keys ps tried lastError :
  (forall key, In key keys -> beginTurn (now (env key)) key ps = None) ->
  providerLoop env keys ps tried lastError
  = {| settled := RejectedWith (exhausted lastError);
       after := ps; attempted := tried |}.
Proof.
  induction keys as [|key rest IH]; intros Hcool; simpl; [reflexivity|].
  unfold turn. rewrite (Hcool key) by (left; reflexivity).
  apply IH. intros k Hk. apply Hcool. right. exact Hk.
Qed.

(** C3: after the first provider answered 404 in one call, which clears
    its [isActive] flag, the next call attempts that provider again: the
    loop walks [PROVIDER_PRIORITY], fixed when the module was loaded, and
    never reads the flag, so that clearing the flag of any provider changes
    neither the attempts nor the outcome of any later call. *)
Theorem provider_disabled_by_404_is_attempted_again :
  (exists r1 w1 r2 w2,
      generateCompletion fullConfig firstNotFound 1 (boot fullConfig)
      = Some (r1, w1)
      /\ attempted r1 = [gemini1; gemini2]
      /\ isActive (lookup (store w1) gemini1) = false
      /\ generateCompletion fullConfig
           (always 2000 (Resolved (Some "answer"%string))) 2 w1
         = Some (r2, w2)
      /\ attempted r2 = [gemini1])
  /\ (forall env keys ps key,
         let disabled := update key (setIsActive false) ps in
         attempted (providerLoop env keys disabled [] None)
         = attempted (providerLoop env keys ps [] None)
         /\ settled (providerLoop env keys disabled [] None)
            = settled (providerLoop env keys ps [] None)).
Proof.
  split.
  - do 4 eexists. repeat split; reflexivity.
  - intros env keys ps key disabled.
    destruct (providerLoop_ignores_isActive env keys ps disabled [] None
                (sameCooldowns_disable key ps)) as [Hs [Ha _]].
    split; congruence.
Qed.

(** C4: with every provider cooling at the time of the call, the call
    attempts no provider and throws, although the provider that recovers
    soonest, the one [getActiveProvider] selects, would have answered. *)
Theorem all_cooling_call_attempts_nobody :
  (forall key,
      beginTurn 20000 key (store allCooling) = None
      /\ (20000 < rateLimitedUntil (lookup (store allCooling) key))%Z)
  /\ fst (getActiveProvider fullConfig 20000 (store allCooling))
     = Some gemini3
  /\ exists r w,
      generateCompletion fullConfig
        (always 20000 (Resolved (Some "answer"%string))) 2 allCooling
      = Some (r, w)
      /\ attempted r = []
      /\ settled r
         = RejectedWith (LLMError "all" "All LLM providers failed").
Proof.
  split; [|split].
  - intros key. destruct key; split; reflexivity.
  - reflexivity.
  - do 2 eexists. repeat split; reflexivity.
Qed.

(** C9 as stated fails: a completion of one space is blank, yet it is
    returned and no further provider is attempted. *)
Lemma blank_completion_is_returned :
  Js.isBlank " " = true
  /\ exists r w,
      generateCompletion fullConfig
        (always 1000 (Resolved (Some " "%string))) 1 (boot fullConfig)
      = Some (r, w)
      /\ settled r = Fulfilled " "%string
      /\ attempted r = [gemini1].
Proof.
  split; [reflexivity|]. do 2 eexists. repeat split; reflexivity.
Qed.

(** C9, amended: when the provider at the head of the chain is attempted
    and its completion is absent or the empty string, no text is returned
    for it and the loop goes on with the next provider in priority order,
    the last error kept; a completion of at least one character, blank or
    not, is returned as it is. *)
Theorem empty_completion_moves_to_next_provider
    (env : ProviderSlot -> Observation) (key : ProviderSlot)
    (rest tried : list ProviderSlot) (ps ps1 : Providers)
    (lastError : option Thrown) (content : option string)
    (Hattempted : beginTurn (now (env key)) key ps = Some ps1)
    (Hanswer : outcome (env key) = Resolved content) :
  match content with
  | None | Some EmptyString =>
      providerLoop env (key :: rest) ps tried lastError
      = providerLoop env rest ps1 (tried ++ [key]) lastError
  | Some text =>
      providerLoop env (key :: rest) ps tried lastError
      = {| settled := Fulfilled text; after := ps1;
           attempted := tried ++ [key] |}
  end.
Proof.
  simpl. unfold turn. rewrite Hattempted. unfold endTurn. rewrite Hanswer.
  destruct content as [[|a text]|]; reflexivity.
Qed.

Lemma empty_completion_witness :
  beginTurn (now (secondEmpty gemini2)) gemini2 (providers fullConfig)
  = Some (providers fullConfig)
  /\ outcome (secondEmpty gemini2) = Resolved (Some EmptyString)
  /\ providerLoop secondEmpty [gemini2; gemini3] (providers fullConfig)
       [gemini1] (Some serverError)
     = providerLoop secondEmpty [gemini3] (providers fullConfig)
         [gemini1; gemini2] (Some serverError)
  /\ settled (providerLoop secondEmpty allSlots (providers fullConfig)
                [] None)
     = Fulfilled "answer"%string.
Proof.
  assert (H1 : beginTurn (now (secondEmpty gemini2)) gemini2
                 (providers fullConfig) = Some (providers fullConfig))
    by reflexivity.
  assert (H2 : outcome (secondEmpty gemini2) = Resolved (Some EmptyString))
    by reflexivity.
  pose proof (empty_completion_moves_to_next_provider secondEmpty gemini2
                [gemini3] [gemini1] (providers fullConfig)
                (providers fullConfig) (Some serverError)
                (Some EmptyString) H1 H2) as H.
  repeat split; try assumption; reflexivity.
Defined.

End FallbackFacts.

(** ** The response cache *)

Module CacheFacts.

Import Cache Spec.

Lemma map_delete_length key m :
  (List.length (map_delete key m) <= List.length m)%nat.
Proof.
  induction m as [|[k e] m IH]; simpl; [lia|].
  destruct (String.eqb k key); simpl; lia.
Qed.

Lemma map_set_length key entry m :
  (List.length (map_set key entry m) <= S (List.length m))%nat.
Proof.
  induction m as [|[k e] m IH]; simpl; [lia|].
  destruct (String.eqb k key); simpl; lia.
Qed.

Lemma map_delete_found key m entry :
  map_get key m = Some entry ->
  S (List.length (map_delete key m)) = List.length m.
Proof.
  induction m as [|[k e] m IH]; simpl; [discriminate|].
  destruct (String.eqb k key); simpl; [reflexivity|].
  intros H. rewrite IH by exact H. reflexivity.
Qed.

Lemma map_get_key key m entry :
  map_get key m = Some entry -> In key (keys m).
Proof.
  induction m as [|[k e] m IH]; simpl; [discriminate|].
  destruct (String.eqb k key) eqn:E.
  - apply String.eqb_eq in E. intros _. left. exact E.
  - intros H. right. apply IH. exact H.
Qed.

Lemma map_get_key_absent_contra key m :
  In key (keys m) -> map_get key m = None -> False.
Proof.
  induction m as [|[k e] m IH]; simpl; [tauto|].
  destruct (String.eqb k key) eqn:E; [discriminate|].
  intros [H|H]; [|auto].
  subst k. rewrite String.eqb_refl in E. discriminate.
Qed.

Lemma keys_map_delete (P : string -> Prop) key m :
  Forall P (keys m) -> Forall P (keys (map_delete key m)).
Proof.
  induction m as [|[k e] m IH]; simpl; intros H; [constructor|].
  inversion H; subst.
  destruct (String.eqb k key); simpl; [assumption|].
  constructor; auto.
Qed.

Lemma keys_map_set (P : string -> Prop) key entry m :
  P key -> Forall P (keys m) -> Forall P (keys (map_set key entry m)).
Proof.
  intros Hkey. induction m as [|[k e] m IH]; simpl; intros H.
  - repeat constructor. exact Hkey.
  - inversion H; subst.
    destruct (String.eqb k key); simpl; constructor; auto.
Qed.

Lemma withinCapacity_getCached now key m :
  withinCapacity m -> withinCapacity (snd (getCached now key m)).
Proof.
  intros [Hsize Hkeys]. unfold withinCapacity, getCached.
  destruct (map_get key m) as [entry|] eqn:Hget; simpl; [|split; assumption].
  destruct (expiresAt entry <? now)%Z; simpl.
  - split.
    + unfold size in *. pose proof (map_delete_length key m). lia.
    + apply keys_map_delete. exact Hkeys.
  - split.
    + unfold size in *.
      pose proof (map_delete_found key m entry Hget).
      pose proof (map_set_length key entry (map_delete key m)). lia.
    + apply keys_map_set.
      * rewrite Forall_forall in Hkeys. apply Hkeys.
        eapply map_get_key; eauto.
      * apply keys_map_delete. exact Hkeys.
Qed.

Lemma withinCapacity_setCache now key val ttl m :
  Js.truthy key = true ->
  withinCapacity m -> withinCapacity (setCache now key val ttl m).
Proof.
  intros Hkey [Hsize Hkeys]. unfold withinCapacity, setCache, size in *.
  destruct (MAX_ENTRIES <=? List.length m)%nat eqn:Hfull.
  - destruct m as [|[k e] m]; simpl keys; cbv iota.
    + apply Nat.leb_le in Hfull. unfold MAX_ENTRIES in Hfull.
      cbn [List.length] in Hfull. lia.
    + simpl in Hkeys. inversion Hkeys as [|? ? Hk Hrest]; subst.
      rewrite Hk. simpl map_delete. rewrite String.eqb_refl.
      split.
      * pose proof (map_set_length key
                      {| value := val; expiresAt := (now + ttl)%Z |} m).
        cbn [List.length] in Hsize. unfold MAX_ENTRIES in *. lia.
      * apply keys_map_set; assumption.
  - apply Nat.leb_gt in Hfull. split.
    + pose proof (map_set_length key
                    {| value := val; expiresAt := (now + ttl)%Z |} m).
      unfold MAX_ENTRIES in *. lia.
    + apply keys_map_set; assumption.
Qed.

Lemma withinCapacity_cleanup now m :
  withinCapacity m -> withinCapacity (cleanup now m).
Proof.
  intros [Hsize Hkeys]. unfold withinCapacity, cleanup, size in *. split.
  - pose proof (filter_length_le
                  (fun kv => negb (expiresAt (snd kv) <? now)%Z) m). lia.
  - clear Hsize. induction m as [|[k e] m IH]; simpl; [constructor|].
    simpl in Hkeys. inversion Hkeys; subst.
    destruct (negb (expiresAt e <? now)%Z); simpl; auto.
Qed.

(** *** Recency order *)

Lemma map_get_absent key m : ~ In key (keys m) -> map_get key m = None.
Proof.
  induction m as [|[k e] m IH]; simpl; [reflexivity|].
  intros H. destruct (String.eqb k key) eqn:E.
  - apply String.eqb_eq in E. tauto.
  - apply IH. tauto.
Qed.

Lemma map_set_absent key entry m :
  map_get key m = None -> map_set key entry m = m ++ [(key, entry)].
Proof.
  induction m as [|[k e] m IH]; simpl; [reflexivity|].
  destruct (String.eqb k key); [discriminate|].
  intros H. rewrite IH by exact H. reflexivity.
Qed.

Lemma keys_map_set_present key entry m old :
  map_get key m = Some old -> keys (map_set key entry m) = keys m.
Proof.
  induction m as [|[k e] m IH]; simpl; [discriminate|].
  destruct (String.eqb k key); simpl; [reflexivity|].
  intros H. rewrite IH by exact H. reflexivity.
Qed.

Lemma In_keys_map_delete x key m :
  In x (keys (map_delete key m)) -> In x (keys m).
Proof.
  induction m as [|[k e] m IH]; simpl; [tauto|].
  destruct (String.eqb k key); simpl; tauto.
Qed.

Lemma NoDup_map_delete key m :
  NoDup (keys m) -> NoDup (keys (map_delete key m)).
Proof.
  induction m as [|[k e] m IH]; simpl; intros H; [constructor|].
  inversion H as [|? ? Hnotin Hrest]; subst.
  destruct (String.eqb k key); simpl; [exact Hrest|].
  constructor; [|auto].
  intros Hin. apply Hnotin. eapply In_keys_map_delete; eauto.
Qed.

Lemma map_get_deleted key m :
  NoDup (keys m) -> map_get key (map_delete key m) = None.
Proof.
  induction m as [|[k e] m IH]; simpl; intros H; [reflexivity|].
  inversion H as [|? ? Hnotin Hrest]; subst.
  destruct (String.eqb k key) eqn:E; simpl.
  - apply String.eqb_eq in E. subst k. apply map_get_absent. exact Hnotin.
  - rewrite E. apply IH. exact Hrest.
Qed.

Lemma NoDup_map_set key entry m :
  NoDup (keys m) -> NoDup (keys (map_set key entry m)).
Proof.
  intros H. destruct (map_get key m) as [old|] eqn:Hget.
  - rewrite (keys_map_set_present key entry m old Hget). exact H.
  - rewrite (map_set_absent key entry m Hget). unfold keys.
    rewrite map_app. simpl. apply NoDup_app; [exact H | | ].
    + repeat constructor. intros [].
    + intros x Hx [<-|[]].
      apply (map_get_key_absent_contra key m); assumption.
Qed.

(** As long as no empty key is written, the cache stays within its 200
    entries under every sequence of reads, writes and sweeps. *)
Lemma capacity_respected_for_named_keys ops : forall m,
  writesNamedKeys ops -> withinCapacity m -> withinCapacity (run m ops).
Proof.
  unfold run, writesNamedKeys.
  induction ops as [|o ops IH]; intros m Hops Hm; simpl; [exact Hm|].
  inversion Hops as [|? ? Ho Hrest]; subst.
  apply IH; [exact Hrest|].
  destruct o as [now key|now key val ttl|now]; simpl in *.
  - apply withinCapacity_getCached. exact Hm.
  - apply withinCapacity_setCache; assumption.
  - apply withinCapacity_cleanup. exact Hm.
Qed.

(** The keys of the cache stay distinct. *)
Lemma distinct_keys_kept ops : forall m,
  NoDup (keys m) -> NoDup (keys (run m ops)).
Proof.
  unfold run. induction ops as [|o ops IH]; intros m Hm; simpl; [exact Hm|].
  apply IH. destruct o as [now key|now key val ttl|now]; simpl.
  - unfold getCached. destruct (map_get key m) as [entry|]; [|exact Hm].
    destruct (expiresAt entry <? now)%Z; simpl.
    + apply NoDup_map_delete. exact Hm.
    + apply NoDup_map_set, NoDup_map_delete. exact Hm.
  - unfold setCache. apply NoDup_map_set.
    destruct (MAX_ENTRIES <=? size m)%nat; [|exact Hm].
    destruct m as [|[lruKey oldest] others]; [exact Hm|].
    change (keys ((lruKey, oldest) :: others)) with (lruKey :: keys others).
    cbv iota. destruct (Js.truthy lruKey); [|exact Hm].
    apply (NoDup_map_delete lruKey ((lruKey, oldest) :: others)). exact Hm.
  - unfold cleanup, keys. clear IH.
    induction m as [|[k e] m IHm]; simpl; [constructor|].
    simpl in Hm. inversion Hm as [|? ? Hnotin Hrest]; subst.
    destruct (negb (expiresAt e <? now)%Z); simpl; [|auto].
    constructor; [|auto].
    intros Hin. apply Hnotin. apply in_map_iff in Hin.
    destruct Hin as [[k' e'] [Hk Hin]]. apply filter_In in Hin.
    apply in_map_iff. exists (k', e'). tauto.
Qed.

(** A hit moves the entry read to the newest end of the cache. *)
Lemma getCached_hit_refreshes now key m entry :
  NoDup (keys m) ->
  map_get key m = Some entry ->
  (expiresAt entry <? now)%Z = false ->
  getCached now key m
  = (Some (value entry), map_delete key m ++ [(key, entry)]).
Proof.
  intros Hnd Hget Hlive. unfold getCached. rewrite Hget, Hlive.
  rewrite map_set_absent by (apply map_get_deleted; exact Hnd).
  reflexivity.
Qed.

(** A write of a new key to a full cache drops the entry at the oldest end,
    provided its key is not the empty string. *)
Lemma setCache_full_evicts_oldest now key val ttl lruKey oldest others :
  (MAX_ENTRIES <= size ((lruKey, oldest) :: others))%nat ->
  Js.truthy lruKey = true ->
  map_get key others = None ->
  setCache now key val ttl ((lruKey, oldest) :: others)
  = others ++ [(key, {| value := val; expiresAt := (now + ttl)%Z |})].
Proof.
  intros Hfull Htruthy Hnew. unfold setCache.
  apply Nat.leb_le in Hfull. rewrite Hfull. simpl keys. cbv iota.
  rewrite Htruthy. simpl map_delete. rewrite String.eqb_refl.
  apply map_set_absent. exact Hnew.
Qed.

(** A read of the oldest entry of a full cache protects it: the next write
    evicts the second oldest entry instead. *)
Example read_protects_from_eviction :
  let m := run [] readThenWrite in
  size m = 200
  /\ map_get (keyOf 1) m <> None
  /\ map_get (keyOf 2) m = None
  /\ hd_error (keys m) = Some (keyOf 3).
Proof.
  vm_compute. repeat split. discriminate.
Qed.

(** *** The cache against the reference cache *)

Lemma lruFind_key key s x : lruFind key s = Some x -> usedKey x = key.
Proof.
  induction s as [|y s IH]; simpl; [discriminate|].
  destruct (String.eqb (usedKey y) key) eqn:E; [|exact IH].
  intros H. injection H as <-. apply String.eqb_eq. exact E.
Qed.























End CacheFacts.

(** ** Embeddings *)

Module EmbeddingFacts.

Import AI Spec.

Lemma addAt_length i x v : List.length (addAt i x v) = List.length v.
Proof.
  revert i. induction v as [|y v IH]; intros i; destruct i; simpl;
    try reflexivity.
  rewrite IH. reflexivity.
Qed.

Lemma accumulate_length dims s : forall i v,
  List.length (accumulate dims s i v) = List.length v.
Proof.
  induction s as [|a s IH]; intros i v; simpl; [reflexivity|].
  rewrite IH. apply addAt_length.
Qed.

Lemma simpleHashEmbedding_length text dims :
  List.length (simpleHashEmbedding text dims) = dims.
Proof.
  unfold simpleHashEmbedding.
  destruct (_ <? _)%float; rewrite ?length_map, accumulate_length;
    apply repeat_length.
Qed.

Lemma hashFallback_length texts :
  List.length (hashFallback texts) = List.length texts.
Proof. unfold hashFallback. apply length_map. Qed.

Lemma mapValues_answered items :
  existsb isNullish items = false ->
  mapValues items = Fulfilled (map valuesOf items).
Proof.
  induction items as [|[|values] items IH]; simpl; intros H.
  - reflexivity.
  - discriminate.
  - rewrite IH by exact H. reflexivity.
Qed.

Lemma mapValues_nullish items :
  existsb isNullish items = true -> mapValues items = RejectedWith TypeError.
Proof.
  induction items as [|[|values] items IH]; simpl; intros H.
  - discriminate.
  - reflexivity.
  - rewrite IH by exact H. reflexivity.
Qed.

(** C10 as stated fails: the endpoint answers, without any embedding, a
    request for one text, and [generateEmbeddings] returns no vector. *)
Lemma answer_without_embeddings_is_passed_on :
  generateEmbeddings fullConfig noEmbeddings ["text"%string] = Fulfilled []
  /\ List.length (@nil (option Vector)) <> List.length ["text"%string].
Proof. split; [reflexivity | discriminate]. Qed.

(** C10, amended: [generateEmbeddings] always resolves; when the API key is
    missing or the embedding call fails it resolves to the hash-based
    embedding of every text, one vector of 384 coordinates per text; when the
    call succeeds it resolves to the [values] of the embeddings answered, in
    their order, one per embedding answered. *)
Theorem generateEmbeddings_resolves_with_hash_fallback
    (cfg : AiConfig) (net : FetchOutcome) (texts : list string) :
  (exists vs, generateEmbeddings cfg net texts = Fulfilled vs)
  /\ (keyMissing cfg || callFails net = true ->
      generateEmbeddings cfg net texts = Fulfilled (hashFallback texts)
      /\ List.length (hashFallback texts) = List.length texts
      /\ Forall (fun v => exists xs, v = Some xs
                                     /\ List.length xs = DEFAULT_DIMS)
                (hashFallback texts))
  /\ (keyMissing cfg || callFails net = false ->
      generateEmbeddings cfg net texts
      = Fulfilled (map valuesOf (answeredItems net))).
Proof.
  split; [|split].
  - unfold generateEmbeddings, tryCatch.
    destruct (requestEmbeddings cfg net texts); eexists; reflexivity.
  - unfold generateEmbeddings, tryCatch, requestEmbeddings, keyMissing.
    intros Hfail. split; [|split].
    + destruct (Js.truthy (embeddingApiKey cfg)) eqn:Hk1; simpl in Hfail.
      * rewrite Hk1.
        destruct net as [e|ok st body]; [reflexivity|].
        destruct ok; simpl in *; [|reflexivity].
        destruct body as [e| |[items|]]; try reflexivity.
        rewrite (mapValues_nullish items Hfail). reflexivity.
      * destruct (Js.truthy (apiKey (slots cfg gemini1))) eqn:Hk2;
          simpl in Hfail; [|reflexivity].
        destruct net as [e|ok st body]; [reflexivity|].
        destruct ok; simpl in *; [|reflexivity].
        destruct body as [e| |[items|]]; try reflexivity.
        rewrite (mapValues_nullish items Hfail). reflexivity.
    + apply hashFallback_length.
    + unfold hashFallback. apply Forall_forall. intros v Hv.
      apply in_map_iff in Hv. destruct Hv as [text [<- _]].
      eexists. split; [reflexivity | apply simpleHashEmbedding_length].
  - unfold generateEmbeddings, tryCatch, requestEmbeddings, keyMissing.
    intros Hok. apply orb_false_iff in Hok. destruct Hok as [Hkey Hcall].
    assert (Hpresent :
              Js.truthy (if Js.truthy (embeddingApiKey cfg)
                         then embeddingApiKey cfg
                         else apiKey (slots cfg gemini1)) = true).
    { destruct (Js.truthy (embeddingApiKey cfg)) eqn:Hk1.
      - first [exact Hk1 | reflexivity].
      - simpl in Hkey. apply negb_false_iff in Hkey. exact Hkey. }
    rewrite Hpresent.
    destruct net as [e|ok st body]; [discriminate|].
    simpl in Hcall. apply orb_false_iff in Hcall. destruct Hcall as [Hok Hbody].
    rewrite Hok.
    destruct body as [e| |[items|]]; try discriminate.
    rewrite (mapValues_answered items Hbody). reflexivity.
Qed.

Lemma generateEmbeddings_witness :
  keyMissing bareConfig || callFails noEmbeddings = true
  /\ keyMissing fullConfig || callFails timedOut = true
  /\ generateEmbeddings bareConfig noEmbeddings ["a"; "b"]%string
     = Fulfilled (hashFallback ["a"; "b"]%string)
  /\ generateEmbeddings fullConfig timedOut ["a"; "b"]%string
     = Fulfilled (hashFallback ["a"; "b"]%string)
  /\ keyMissing fullConfig || callFails noEmbeddings = false
  /\ generateEmbeddings fullConfig noEmbeddings ["a"; "b"]%string
     = Fulfilled [].
Proof.
  assert (H1 : keyMissing bareConfig || callFails noEmbeddings = true)
    by reflexivity.
  assert (H2 : keyMissing fullConfig || callFails timedOut = true)
    by reflexivity.
  assert (H3 : keyMissing fullConfig || callFails noEmbeddings = false)
    by reflexivity.
  destruct (generateEmbeddings_resolves_with_hash_fallback
              bareConfig noEmbeddings ["a"; "b"]%string) as [_ [Ha _]].
  destruct (generateEmbeddings_resolves_with_hash_fallback
              fullConfig timedOut ["a"; "b"]%string) as [_ [Hb _]].
  destruct (generateEmbeddings_resolves_with_hash_fallback
              fullConfig noEmbeddings ["a"; "b"]%string) as [_ [_ Hc]].
  pose proof (Ha H1) as [Ha' _].
  pose proof (Hb H2) as [Hb' _].
  pose proof (Hc H3) as Hc'.
  repeat split; assumption.
Defined.

End EmbeddingFacts.

(** ** The output parser *)

Module ParserFacts.

Import Js Parser Spec.

Lemma sanitizeAnswer_string rt s field :
  sanitizeAnswer rt (JStr s) field = Fulfilled (sanitizeText rt field s).
Proof. reflexivity. Qed.

Lemma fallback_resolves rt cleaned :
  fallback rt cleaned
  = Fulfilled (answerObject (sanitizeText rt "answer" cleaned) [] []).
Proof. reflexivity. Qed.

(** A [try] block followed by code that cannot throw cannot throw. *)
Lemma orElse_resolves body rest :
  (exists v, rest = Fulfilled v) -> exists v, orElse body rest = Fulfilled v.
Proof.
  intros [v ->]. destruct body as [[w|]|e]; simpl; eexists; reflexivity.
Qed.

Lemma orElse_fellThrough body rest :
  fellThrough body = true -> orElse body rest = rest.
Proof.
  destruct body as [[w|]|e]; simpl; [discriminate | reflexivity | reflexivity].
Qed.

(** What [JSON.parse] gave survives the answer test only if it is not
    [null]. *)
Lemma sanitizeParsed_not_null rt parsed parsed' b :
  sanitizeParsed rt parsed = Fulfilled (parsed', b) -> parsed' <> JNull.
Proof.
  unfold sanitizeParsed.
  destruct parsed as [|b0|x|s|items|fields]; simpl; try discriminate;
    try (intros H; injection H as <- <-; discriminate).
  destruct (truthy (assoc "answer" fields)).
  - destruct (assoc "answer" fields) as [v|]; simpl.
    + destruct (sanitizeAnswer rt v "answer"); simpl; [|discriminate].
      intros H. injection H as <- <-. discriminate.
    + intros H. injection H as <- <-. discriminate.
  - intros H. injection H as <- <-. discriminate.
Qed.

Lemma parseWithAnswer_not_null rt text v :
  parseWithAnswer rt text = Fulfilled (Some v) -> v <> JNull.
Proof.
  unfold parseWithAnswer.
  destruct (JSON_parse rt text) as [parsed|e]; simpl; [|discriminate].
  destruct (sanitizeParsed rt parsed) as [[parsed' b]|e] eqn:Hs; simpl;
    [|discriminate].
  destruct b; [|discriminate].
  intros H. injection H as <-. eapply sanitizeParsed_not_null; eauto.
Qed.

Lemma attempt1_not_null rt cleaned v :
  attempt1 rt cleaned = Fulfilled (Some v) -> v <> JNull.
Proof.
  unfold attempt1.
  destruct (JSON_parse rt cleaned) as [parsed|e]; simpl; [|discriminate].
  destruct (sanitizeParsed rt parsed) as [[parsed' b]|e] eqn:Hs; simpl;
    [|discriminate].
  intros H. injection H as <-. eapply sanitizeParsed_not_null; eauto.
Qed.

Lemma attempt2_not_null rt cleaned v :
  attempt2 rt cleaned = Fulfilled (Some v) -> v <> JNull.
Proof.
  unfold attempt2. destruct (braceSpan cleaned); [|discriminate].
  apply parseWithAnswer_not_null.
Qed.

Lemma attempt3_not_null rt cleaned v :
  attempt3 rt cleaned = Fulfilled (Some v) -> v <> JNull.
Proof.
  unfold attempt3. destruct (fromFirstLine _ _); [|discriminate].
  apply parseWithAnswer_not_null.
Qed.

Lemma attempt4_not_null rt cleaned v :
  attempt4 rt cleaned = Fulfilled (Some v) -> v <> JNull.
Proof.
  unfold attempt4. destruct (answerField rt cleaned); [|discriminate].
  simpl. intros H. injection H as <-. discriminate.
Qed.

Lemma orElse_not_null body rest v :
  (forall w, body = Fulfilled (Some w) -> w <> JNull) ->
  (forall w, rest = Fulfilled w -> w <> JNull) ->
  orElse body rest = Fulfilled v -> v <> JNull.
Proof.
  intros Hbody Hrest. destruct body as [[w|]|e]; simpl; auto.
  intros H. injection H as <-. apply Hbody. reflexivity.
Qed.

(** [parseJSON] never hands [null] to its callers, whose field reads can
    therefore not throw. *)
Lemma parseJSON_not_null rt raw v :
  parseJSON rt raw = Fulfilled v -> v <> JNull.
Proof.
  unfold parseJSON.
  apply orElse_not_null; [apply attempt1_not_null|]. intros w1.
  apply orElse_not_null; [apply attempt2_not_null|]. intros w2.
  apply orElse_not_null; [apply attempt3_not_null|]. intros w3.
  apply orElse_not_null; [apply attempt4_not_null|]. intros w4.
  rewrite fallback_resolves. intros H. injection H as <-. discriminate.
Qed.

Lemma parseJSON_resolves rt raw :
  exists v, parseJSON rt raw = Fulfilled v /\ v <> JNull.
Proof.
  assert (H : exists v, parseJSON rt raw = Fulfilled v).
  { unfold parseJSON. repeat apply orElse_resolves.
    rewrite fallback_resolves. eexists. reflexivity. }
  destruct H as [v Hv]. exists v. split; [exact Hv|].
  eapply parseJSON_not_null; eauto.
Qed.

(** *** What the value returned is *)

Lemma assign_answer x fields :
  assoc "answer" (assign "answer" x fields) = Some x.
Proof.
  induction fields as [|[k v] fields IH]; simpl; [reflexivity|].
  destruct (String.eqb k "answer") eqn:Hk; simpl; rewrite Hk; auto.
Qed.

(** The test-and-assign step either leaves the value as parsed, its answer
    not being truthy, or returns an object with a string answer. *)
Lemma sanitizeParsed_structured rt parsed parsed' b :
  sanitizeParsed rt parsed = Fulfilled (parsed', b) ->
  (b = true /\ structured parsed')
  \/ (b = false /\ parsed' = parsed
      /\ exists a, getField parsed "answer" = Fulfilled a /\ truthy a = false).
Proof.
  unfold sanitizeParsed. intros H.
  destruct (getField parsed "answer") as [a|] eqn:Hget; [|discriminate H].
  cbn [bind] in H. destruct (truthy a) eqn:Ht.
  - destruct a as [v|]; [|discriminate Ht].
    destruct (sanitizeAnswer rt v "answer") as [t|]; [|discriminate H].
    cbn [bind] in H.
    destruct parsed as [| | | |items|fields]; cbn [setField bind] in H;
      try discriminate H.
    + discriminate Hget.
    + injection H as <- <-. left. split; [reflexivity|].
      exists (assign "answer" (JStr t) fields), t.
      split; [reflexivity | apply assign_answer].
  - injection H as <- <-. right. split; [reflexivity|].
    split; [reflexivity|]. exists a. split; [reflexivity | exact Ht].
Qed.

Lemma parseWithAnswer_structured rt text v :
  parseWithAnswer rt text = Fulfilled (Some v) -> structured v.
Proof.
  unfold parseWithAnswer. intros H.
  destruct (JSON_parse rt text) as [parsed|]; [|discriminate H].
  cbn [bind] in H.
  destruct (sanitizeParsed rt parsed) as [[parsed' b]|] eqn:Hs;
    [|discriminate H].
  cbn [bind fst snd] in H. destruct b; [|discriminate H].
  injection H as <-.
  destruct (sanitizeParsed_structured rt parsed parsed' true Hs)
    as [[_ Hst]|[Hb _]]; [exact Hst | discriminate Hb].
Qed.

Lemma answerObject_structured answer followups takeaways :
  structured (answerObject answer followups takeaways).
Proof. eexists. exists answer. split; reflexivity. Qed.

(** The attempts after the first only return an object with a string
    answer. *)
Lemma later_attempts_structured rt cleaned v :
  orElse (attempt2 rt cleaned)
    (orElse (attempt3 rt cleaned)
       (orElse (attempt4 rt cleaned) (fallback rt cleaned))) = Fulfilled v ->
  structured v.
Proof.
  intros H.
  destruct (attempt2 rt cleaned) as [[v2|]|] eqn:H2.
  { cbn [orElse] in H. injection H as <-. unfold attempt2 in H2.
    destruct (braceSpan cleaned); [|discriminate H2].
    exact (parseWithAnswer_structured _ _ _ H2). }
  all: cbn [orElse] in H.
  all: destruct (attempt3 rt cleaned) as [[v3|]|] eqn:H3.
  all: try (cbn [orElse] in H; injection H as <-; unfold attempt3 in H3;
            destruct (fromFirstLine _ _); [|discriminate H3];
            exact (parseWithAnswer_structured _ _ _ H3)).
  all: cbn [orElse] in H.
  all: unfold attempt4, fallback in H.
  all: destruct (answerField rt cleaned);
    rewrite ?sanitizeAnswer_string in H; cbn [bind orElse] in H;
    injection H as <-; apply answerObject_structured.
Qed.

(** C7, as amended: for every raw text, and whatever [JSON.parse] and the
    regular expressions do with it, [parseJSON] returns a value and does not
    throw.  The value is an object whose answer is a string, unless
    [JSON.parse] accepted the cleaned text as a value without a truthy
    answer, which is then returned as it is.  When none of the four recovery
    attempts returns, the value is the object whose answer is the cleaned
    text, sanitized, and whose follow-up and takeaway lists are empty. *)
Theorem parseJSON_never_throws (rt : Runtime) (raw : string) :
  (exists v, parseJSON rt raw = Fulfilled v /\ v <> JNull)
  /\ (forall v, parseJSON rt raw = Fulfilled v ->
        structured v
        \/ (JSON_parse rt (clean rt raw) = Fulfilled v
            /\ exists a, getField v "answer" = Fulfilled a
                         /\ truthy a = false))
  /\ (fellThrough (attempt1 rt (clean rt raw)) = true ->
      fellThrough (attempt2 rt (clean rt raw)) = true ->
      fellThrough (attempt3 rt (clean rt raw)) = true ->
      fellThrough (attempt4 rt (clean rt raw)) = true ->
      parseJSON rt raw
      = Fulfilled (JObj [("answer"%string,
                          JStr (sanitizeText rt "answer" (clean rt raw)));
                         ("suggestedFollowups"%string, JArr []);
                         ("keyTakeaways"%string, JArr [])])).
Proof.
  split; [apply parseJSON_resolves|]. split.
  - intros v. unfold parseJSON. set (cleaned := clean rt raw).
    destruct (attempt1 rt cleaned) as [[v1|]|] eqn:H1; cbn [orElse].
    + intros H. injection H as <-. unfold attempt1 in H1.
      destruct (JSON_parse rt cleaned) as [parsed|] eqn:Hparse;
        [|discriminate H1].
      cbn [bind] in H1.
      destruct (sanitizeParsed rt parsed) as [[parsed' b]|] eqn:Hs;
        [|discriminate H1].
      cbn [bind fst] in H1. injection H1 as <-.
      destruct (sanitizeParsed_structured rt parsed parsed' b Hs)
        as [[_ Hst]|[_ [-> Hfalsy]]].
      * left. exact Hst.
      * right. split; [reflexivity | exact Hfalsy].
    + intros H. left. exact (later_attempts_structured rt cleaned v H).
    + intros H. left. exact (later_attempts_structured rt cleaned v H).
  - intros H1 H2 H3 H4. unfold parseJSON.
    rewrite !orElse_fellThrough by assumption.
    apply fallback_resolves.
Qed.

Lemma parseJSON_witness :
  fellThrough (attempt1 plainRuntime (clean plainRuntime "  no JSON here  "))
  = true
  /\ parseJSON plainRuntime "  no JSON here  "
     = Fulfilled (JObj [("answer"%string, JStr "no JSON here");
                        ("suggestedFollowups"%string, JArr []);
                        ("keyTakeaways"%string, JArr [])]).
Proof.
  split; [reflexivity|].
  exact (proj2 (proj2 (parseJSON_never_throws plainRuntime "  no JSON here  "))
               eq_refl eq_refl eq_refl eq_refl).
Defined.

(** C7 as stated fails: when [JSON.parse] reads the text as a number, the
    first attempt returns that number, which is no structured answer. *)
Lemma parseJSON_passes_on_a_bare_number :
  parseJSON numberRuntime "42" = Fulfilled (JNum 42%float)
  /\ ~ structured (JNum 42%float)
  /\ getField (JNum 42%float) "answer" = Fulfilled None.
Proof.
  split; [reflexivity|]. split; [|reflexivity].
  intros [fields [s [H _]]]. discriminate H.
Qed.

End ParserFacts.

(** ** The retrieval pipeline *)

Module RagFacts.

Import Js Parser Rag Spec.

(** *** Comparisons of doubles *)

Lemma compare_cont_swap mx my :
  Pos.compare_cont Eq my mx = CompOpp (Pos.compare_cont Eq mx my).
Proof. rewrite (Pos.compare_cont_antisym mx my Eq). reflexivity. Qed.

Lemma SFcompare_Lt_Gt x y :
  SpecFloat.SFcompare x y = Some Lt -> SpecFloat.SFcompare y x = Some Gt.
Proof.
  destruct x as [sx|sx| |sx mx ex], y as [sy|sy| |sy my ey]; simpl;
    try discriminate;
    try (destruct sx; try destruct sy; simpl; congruence).
  rewrite (Z.compare_antisym ex ey), (compare_cont_swap mx my).
  destruct sx, sy; simpl; try congruence;
    destruct (ex ?= ey)%Z; simpl; try congruence;
    destruct (Pos.compare_cont Eq mx my); simpl; congruence.
Qed.

(** [x < y] excludes [y <= x]. *)
Lemma ltb_not_leb (x y : float) :
  (x <? y)%float = true -> (y <=? x)%float = false.
Proof.
  rewrite ltb_spec, leb_spec. unfold SpecFloat.SFltb, SpecFloat.SFleb.
  destruct (SpecFloat.SFcompare (Prim2SF x) (Prim2SF y)) as [[| |]|] eqn:E;
    try discriminate.
  intros _. rewrite (SFcompare_Lt_Gt _ _ E). reflexivity.
Qed.

(** *** The similarity filter *)

Lemma In_insertChunk x a sorted :
  In x (insertChunk a sorted) -> x = a \/ In x sorted.
Proof.
  induction sorted as [|b rest IH]; simpl.
  - intros [<-|[]]. left. reflexivity.
  - destruct (0 <? similarity b - similarity a)%float; simpl.
    + intros [<-|H]; [right; left; reflexivity|].
      destruct (IH H) as [->|H']; [left; reflexivity | right; right; exact H'].
    + intros [<-|H]; [left; reflexivity | right; exact H].
Qed.

Lemma In_sortBySimilarity x cs : In x (sortBySimilarity cs) -> In x cs.
Proof.
  induction cs as [|c cs IH]; simpl; [tauto|].
  intros H. apply In_insertChunk in H. destruct H as [->|H]; auto.
Qed.

Lemma In_firstn {A} (x : A) n l : In x (firstn n l) -> In x l.
Proof.
  revert l. induction n as [|n IH]; intros [|y l]; simpl; try tauto.
  intros [<-|H]; [left; reflexivity | right; apply IH; exact H].
Qed.

(** Only chunks that pass the threshold are kept. *)
Lemma relevantChunks_usable n boosted :
  Forall (fun c => usable c = true) (relevantChunks n boosted).
Proof.
  apply Forall_forall. intros c Hc. unfold relevantChunks in Hc.
  apply In_firstn, In_sortBySimilarity, filter_In in Hc. tauto.
Qed.

(** Chunks that all fail the threshold leave nothing. *)
Lemma relevantChunks_none n boosted :
  Forall (fun c => usable c = false) boosted -> relevantChunks n boosted = [].
Proof.
  intros H. unfold relevantChunks.
  assert (Hf : filter usable boosted = []).
  { induction H as [|c cs Hc _ IH]; simpl; [reflexivity|].
    rewrite Hc. exact IH. }
  rewrite Hf. simpl. apply firstn_nil.
Qed.

(** *** What reaches [generateCompletion] *)

Lemma generate_sent e p st :
  sent (snd (generate e p st)) = sent st ++ [p].
Proof. reflexivity. Qed.

Lemma cachedOrGenerated_sent e key p st :
  sent (snd (cachedOrGenerated e key p st)) = sent st
  \/ sent (snd (cachedOrGenerated e key p st)) = sent st ++ [p].
Proof.
  unfold cachedOrGenerated, generate.
  destruct (Cache.getCached (readAt e) key (cache st)) as [[hit|] store1].
  - destruct (Js.truthy hit); simpl; [left; reflexivity|].
    destruct (generateCompletion e p); simpl; right; reflexivity.
  - destruct (generateCompletion e p); simpl; right; reflexivity.
Qed.

(** The LLM-only path cites nothing, reports the fixed confidence and sends
    at most its own prompt. *)
Lemma llmOnlyAnswer_ungrounded e query lvl history st :
  let out := llmOnlyAnswer e query lvl history st in
  (forall r, fst out = Fulfilled r ->
             sources r = [] /\ confidence r = LLM_ONLY_CONFIDENCE)
  /\ (sent (snd out) = sent st
      \/ sent (snd out)
         = sent st ++ [LLM_ANSWER_PROMPT query lvl (formatHistory history)]).
Proof.
  unfold llmOnlyAnswer.
  pose proof (cachedOrGenerated_sent e
                (Cache.makeCacheKey "ask" query (levelName lvl))
                (LLM_ANSWER_PROMPT query lvl (formatHistory history)) st)
    as Hsent.
  destruct (cachedOrGenerated e _ _ st) as [[raw|err] st1]; simpl in *.
  - destruct (parseJSON (rt e) raw) as [parsed|err]; simpl.
    + split; [|exact Hsent].
      intros r.
      destruct (getField parsed "answer") as [a|]; simpl; [|discriminate].
      destruct (getField parsed "suggestedFollowups") as [f|]; simpl;
        [|discriminate].
      destruct (getField parsed "keyTakeaways") as [k|]; simpl;
        [|discriminate].
      intros H. injection H as <-. split; reflexivity.
    + split; [discriminate | exact Hsent].
  - split; [discriminate | exact Hsent].
Qed.

(** When the completion arrives, the LLM-only path returns an answer. *)
Lemma llmOnlyAnswer_answers e query lvl history st raw :
  generateCompletion e (LLM_ANSWER_PROMPT query lvl (formatHistory history))
  = Fulfilled raw ->
  exists r, fst (llmOnlyAnswer e query lvl history st) = Fulfilled r.
Proof.
  intros Hgen. unfold llmOnlyAnswer, cachedOrGenerated, generate.
  rewrite Hgen.
  destruct (Cache.getCached (readAt e) _ (cache st)) as [[hit|] store1];
    [destruct (Js.truthy hit)|]; simpl.
  - destruct (ParserFacts.parseJSON_resolves (rt e) hit) as [v [Hv Hnn]].
    rewrite Hv.
    destruct v as [|b|x|s|items|fields]; try congruence; simpl;
      eexists; reflexivity.
  - destruct (ParserFacts.parseJSON_resolves (rt e) raw) as [v [Hv Hnn]].
    rewrite Hv.
    destruct v as [|b|x|s|items|fields]; try congruence; simpl;
      eexists; reflexivity.
  - destruct (ParserFacts.parseJSON_resolves (rt e) raw) as [v [Hv Hnn]].
    rewrite Hv.
    destruct v as [|b|x|s|items|fields]; try congruence; simpl;
      eexists; reflexivity.
Qed.

(** A grounded result cites, and shows to the model, only chunks that
    passed the threshold. *)
Lemma ragPipeline_grounded e query topK lvl history st r st' :
  ragPipeline e query topK lvl history st = (Fulfilled (Some r), st') ->
  exists cs context,
    Forall (fun c => usable c = true) cs
    /\ chunksWithIds cs = Fulfilled context
    /\ citeAll cs = Fulfilled (sources r)
    /\ sent st'
       = sent st ++ [RAG_ANSWER_PROMPT query lvl context (formatHistory history)].
Proof.
  unfold ragPipeline.
  destruct (AI.generateEmbedding _ _ _) as [v|err]; [|discriminate].
  destruct (queryDocuments e v topK) as [results|err]; [|discriminate].
  destruct (ids results) as [|i0 is0]; [discriminate|].
  destruct (boostAll _ _) as [boosted|err]; [|discriminate].
  pose proof (relevantChunks_usable (rerankTop e) boosted) as Husable.
  destruct (relevantChunks (rerankTop e) boosted) as [|c0 cs0] eqn:Hrel;
    [discriminate|].
  destruct (chunksWithIds (c0 :: cs0)) as [context|err] eqn:Hctx;
    [|discriminate].
  unfold generate.
  destruct (generateCompletion e _) as [raw|err]; [|discriminate].
  unfold groundedResult.
  destruct (parseJSON (rt e) raw) as [parsed|err]; [|discriminate].
  destruct (citeAll (c0 :: cs0)) as [citations|err] eqn:Hcite; [|discriminate].
  destruct (getField parsed "answer") as [a|]; simpl; [|discriminate].
  destruct (getField parsed "suggestedFollowups") as [f|]; simpl;
    [|discriminate].
  destruct (getField parsed "keyTakeaways") as [k|]; simpl; [|discriminate].
  intros H. injection H as <- <-. simpl.
  exists (c0 :: cs0), context. auto.
Qed.

(** With no usable neighbour the request is answered by the LLM-only
    path. *)
Lemma handle_without_usable_neighbors e query topK lvl history st boosted :
  boostedNeighbors e query topK = Fulfilled boosted ->
  Forall (fun c => usable c = false) boosted ->
  handle e ask query topK lvl history st
  = llmOnlyAnswer e query lvl history st.
Proof.
  unfold boostedNeighbors, handle, ragPipeline. intros Hnb Hlow.
  destruct (AI.generateEmbedding _ _ _) as [v|err]; [|discriminate].
  simpl in Hnb.
  destruct (queryDocuments e v topK) as [results|err]; [|discriminate].
  simpl in Hnb.
  destruct (ids results) as [|i0 is0]; [reflexivity|].
  rewrite Hnb. rewrite (relevantChunks_none _ _ Hlow). reflexivity.
Qed.

(** A grounded result is made of the neighbours retrieved for the
    question that passed the threshold, and of nothing else. *)
Lemma ragPipeline_grounded_from e query topK lvl history st r st' :
  ragPipeline e query topK lvl history st = (Fulfilled (Some r), st') ->
  exists boosted context,
    boostedNeighbors e query topK = Fulfilled boosted
    /\ Forall (fun c => In c boosted
                        /\ (SIMILARITY_THRESHOLD <=? similarity c)%float = true)
              (relevantChunks (rerankTop e) boosted)
    /\ chunksWithIds (relevantChunks (rerankTop e) boosted) = Fulfilled context
    /\ citeAll (relevantChunks (rerankTop e) boosted) = Fulfilled (sources r)
    /\ sent st'
       = sent st ++ [RAG_ANSWER_PROMPT query lvl context (formatHistory history)].
Proof.
  unfold ragPipeline.
  destruct (AI.generateEmbedding (aiConfig e) (embeddingNet e) query)
    as [v|err] eqn:Hemb; [|discriminate].
  destruct (queryDocuments e v topK) as [results|err] eqn:Hq; [|discriminate].
  destruct (ids results) as [|i0 is0]; [discriminate|].
  destruct (boostAll (queryTerms query) (scoredChunks results))
    as [boosted|err] eqn:Hboost; [|discriminate].
  assert (Hb : boostedNeighbors e query topK = Fulfilled boosted).
  { unfold boostedNeighbors. rewrite Hemb. cbn [bind]. rewrite Hq.
    cbn [bind]. exact Hboost. }
  assert (Hfrom : Forall (fun c => In c boosted
                                   /\ (SIMILARITY_THRESHOLD <=? similarity c)%float
                                      = true)
                         (relevantChunks (rerankTop e) boosted)).
  { apply Forall_forall. intros c Hc. unfold relevantChunks in Hc.
    apply In_firstn, In_sortBySimilarity, filter_In in Hc. exact Hc. }
  destruct (relevantChunks (rerankTop e) boosted) as [|c0 cs0] eqn:Hrel;
    [discriminate|].
  destruct (chunksWithIds (c0 :: cs0)) as [context|err] eqn:Hctx;
    [|discriminate].
  unfold generate.
  destruct (generateCompletion e _) as [raw|err]; [|discriminate].
  unfold groundedResult.
  destruct (parseJSON (rt e) raw) as [parsed|err]; [|discriminate].
  destruct (citeAll (c0 :: cs0)) as [citations|err] eqn:Hcite; [|discriminate].
  destruct (getField parsed "answer") as [a|]; simpl; [|discriminate].
  destruct (getField parsed "suggestedFollowups") as [f|]; simpl;
    [|discriminate].
  destruct (getField parsed "keyTakeaways") as [k|]; simpl; [|discriminate].
  intros H. injection H as <- <-.
  exists boosted, context. rewrite Hrel.
  split; [exact Hb|]. split; [exact Hfrom|].
  split; [exact Hctx|]. split; [exact Hcite | reflexivity].
Qed.

(** C8: when every neighbour retrieved for a question has, after the
    keyword boost, a similarity below 0.3, [handle] answers through
    [llmOnlyAnswer]: an answer it returns has no sources and the confidence
    0.5, which is below the 0.6 of a high-confidence answer; no prompt other
    than the LLM-only prompt is sent, and an answer is returned whenever the
    completion arrives.  And for every question, whatever was retrieved: a
    grounded result cites and shows to the model only neighbours retrieved
    for that question whose boosted similarity is at least 0.3. *)
Theorem low_similarity_answer_is_ungrounded
    (e : Env) (query : string) (topK : nat) (lvl : Level)
    (history : option (list InteractionRecord)) (st : State) :
  let out := handle e ask query topK lvl history st in
  let prompt := LLM_ANSWER_PROMPT query lvl (formatHistory history) in
  (forall boosted,
      boostedNeighbors e query topK = Fulfilled boosted ->
      Forall (fun c => (similarity c <? SIMILARITY_THRESHOLD)%float = true)
             boosted ->
      out = llmOnlyAnswer e query lvl history st
      /\ (forall r, fst out = Fulfilled r ->
                    sources r = [] /\ confidence r = LLM_ONLY_CONFIDENCE)
      /\ (sent (snd out) = sent st \/ sent (snd out) = sent st ++ [prompt])
      /\ (forall raw, generateCompletion e prompt = Fulfilled raw ->
                      exists r, fst out = Fulfilled r))
  /\ (LLM_ONLY_CONFIDENCE <? CONFIDENCE_HIGH)%float = true
  /\ (forall st0 r st',
         ragPipeline e query topK lvl history st0 = (Fulfilled (Some r), st') ->
         exists boosted context,
           boostedNeighbors e query topK = Fulfilled boosted
           /\ Forall (fun c =>
                        In c boosted
                        /\ (SIMILARITY_THRESHOLD <=? similarity c)%float = true)
                     (relevantChunks (rerankTop e) boosted)
           /\ chunksWithIds (relevantChunks (rerankTop e) boosted)
              = Fulfilled context
           /\ citeAll (relevantChunks (rerankTop e) boosted)
              = Fulfilled (sources r)
           /\ sent st'
              = sent st0 ++ [RAG_ANSWER_PROMPT query lvl context
                                               (formatHistory history)]).
Proof.
  intros out prompt. split; [|split].
  - intros boosted Hneighbors Hlow.
    assert (Hout : out = llmOnlyAnswer e query lvl history st).
    { apply (handle_without_usable_neighbors e query topK lvl history st
               boosted Hneighbors).
      eapply Forall_impl; [|exact Hlow].
      intros c Hc. apply ltb_not_leb. exact Hc. }
    destruct (llmOnlyAnswer_ungrounded e query lvl history st) as [Hres Hsent].
    rewrite <- Hout in Hres, Hsent.
    split; [exact Hout|]. split; [exact Hres|]. split; [exact Hsent|].
    intros raw Hraw. rewrite Hout.
    eapply llmOnlyAnswer_answers. exact Hraw.
  - reflexivity.
  - intros st0 r st' Hrun.
    apply (ragPipeline_grounded_from e query topK lvl history st0 r st' Hrun).
Qed.

Lemma low_similarity_witness :
  boostedNeighbors (sampleEnv distantNeighbor) "what is xss" 10
  = Fulfilled distantBoosted
  /\ Forall (fun c => (similarity c <? SIMILARITY_THRESHOLD)%float = true)
            distantBoosted
  /\ (exists r,
         fst (handle (sampleEnv distantNeighbor) ask "what is xss" 10 beginner
                     None freshState) = Fulfilled r
         /\ sources r = [] /\ confidence r = LLM_ONLY_CONFIDENCE)
  /\ groundedRun = (Fulfilled (Some groundedAnswer), snd groundedRun)
  /\ exists boosted,
       boostedNeighbors (sampleEnv closeNeighbors) "what is xss" 10
       = Fulfilled boosted
       /\ Forall (fun c =>
                    In c boosted
                    /\ (SIMILARITY_THRESHOLD <=? similarity c)%float = true)
                 (relevantChunks 5 boosted)
       /\ citeAll (relevantChunks 5 boosted)
          = Fulfilled (sources groundedAnswer).
Proof.
  assert (H1 : boostedNeighbors (sampleEnv distantNeighbor) "what is xss" 10
               = Fulfilled distantBoosted) by reflexivity.
  assert (H2 : Forall (fun c => (similarity c <? SIMILARITY_THRESHOLD)%float
                                = true) distantBoosted).
  { repeat constructor. }
  assert (H3 : groundedRun = (Fulfilled (Some groundedAnswer), snd groundedRun))
    by (vm_compute; reflexivity).
  destruct (low_similarity_answer_is_ungrounded (sampleEnv distantNeighbor)
              "what is xss" 10 beginner None freshState) as [Hlow _].
  destruct (Hlow distantBoosted H1 H2) as [_ [Hres [_ Hans]]].
  destruct (Hans "Cross-site scripting is ..."%string eq_refl) as [r Hr].
  destruct (low_similarity_answer_is_ungrounded (sampleEnv closeNeighbors)
              "what is xss" 10 beginner None freshState) as [_ [_ Hgrounded]].
  destruct (Hgrounded freshState groundedAnswer (snd groundedRun) H3)
    as [boosted [context [Hb [Hfrom [_ [Hcite _]]]]]].
  split; [exact H1|]. split; [exact H2|].
  split; [exists r; split; [exact Hr | apply Hres; exact Hr]|].
  split; [exact H3|].
  exists boosted. split; [exact Hb|]. split; [exact Hfrom | exact Hcite].
Defined.

End RagFacts.

(** ** More on the queue: nobody waits beside a free slot *)

Module GateProps.

Import Queue AI Spec.

Lemma fullWhenWaiting_acquire c q :
  fullWhenWaiting q -> fullWhenWaiting (fst (acquire c q)).
Proof.
  intros [Hle Hfull]. unfold fullWhenWaiting, acquire.
  destruct (running q <? maxConcurrent q)%Z eqn:Hlt; simpl.
  - apply Z.ltb_lt in Hlt. split; [lia|].
    destruct Hfull as [Hw|Hr]; [left; exact Hw | lia].
  - apply Z.ltb_ge in Hlt. split; [exact Hle | right; lia].
Qed.

Lemma fullWhenWaiting_release q :
  fullWhenWaiting q -> fullWhenWaiting (fst (release q)).
Proof.
  intros [Hle Hfull]. unfold fullWhenWaiting, release.
  destruct (waiting q) as [|next rest]; simpl.
  - split; [lia | left; reflexivity].
  - split; [exact Hle|]. destruct Hfull as [Hw|Hr]; [discriminate|].
    right. exact Hr.
Qed.

Lemma fullWhenWaiting_step g e :
  fullWhenWaiting (queue g) -> fullWhenWaiting (queue (step g e)).
Proof.
  intros H. destruct e as [c|c]; simpl.
  - pose proof (fullWhenWaiting_acquire c (queue g) H) as H'.
    destruct (acquire c (queue g)) as [q granted]. destruct granted; exact H'.
  - pose proof (fullWhenWaiting_release (queue g) H) as H'.
    destruct (release (queue g)) as [q [next|]]; exact H'.
Qed.

Lemma fullWhenWaiting_run es : forall g,
  fullWhenWaiting (queue g) -> fullWhenWaiting (queue (run g es)).
Proof.
  induction es as [|e es IH]; intros g Hg; simpl; [exact Hg|].
  apply IH, fullWhenWaiting_step, Hg.
Qed.

(** X1: along every interleaving of [acquire] and [release] calls on
    [llmQueue], legitimate or not, the running count never exceeds 2 and
    the wait list is non-empty only while the running count is 2: no caller
    is left waiting beside a free slot. *)
Theorem nobody_waits_beside_a_free_slot (es : list event) :
  (running (queue (run llmGate es)) <= 2)%Z
  /\ (waiting (queue (run llmGate es)) = []
      \/ running (queue (run llmGate es)) = 2%Z).
Proof.
  assert (H : fullWhenWaiting (queue (run llmGate es))).
  { apply fullWhenWaiting_run. split; simpl; [lia | left; reflexivity]. }
  destruct H as [Hle Hfull].
  rewrite QueueFacts.maxConcurrent_run in Hle, Hfull. exact (conj Hle Hfull).
Qed.

Lemma suspendedListed_move pl c old ph ps :
  suspendedListed pl ->
  phaseOf c (calls pl) = Some old -> holdsSlot ph = true ->
  suspendedListed {| shared := {| store := ps; gate := gate (shared pl) |};
                     calls := setPhase c ph (calls pl) |}.
Proof.
  intros Hl Hc Hph c' Hc'. simpl in *.
  destruct (Nat.eq_dec c' c) as [->|Hne].
  - rewrite (PoolFacts.phaseOf_setPhase_same c ph _ old Hc) in Hc'.
    injection Hc' as ->. discriminate.
  - rewrite PoolFacts.phaseOf_setPhase_other in Hc' by exact Hne.
    apply Hl. exact Hc'.
Qed.

Lemma suspendedListed_leave cfg pl c old r tried ps :
  consistent pl -> suspendedListed pl ->
  phaseOf c (calls pl) = Some old -> holdsSlot old = true ->
  suspendedListed (leave cfg c r tried ps pl).
Proof.
  intros Hcons Hl Hc Hold c'. unfold leave, release.
  assert (Hdone : forall x, x <> c ->
            phaseOf x (setPhase c (Done r tried) (calls pl))
            = phaseOf x (calls pl)).
  { intros x Hx. apply PoolFacts.phaseOf_setPhase_other. exact Hx. }
  assert (Hself : phaseOf c (setPhase c (Done r tried) (calls pl))
                  = Some (Done r tried)).
  { eapply PoolFacts.phaseOf_setPhase_same; eauto. }
  destruct (waiting (gate (shared pl))) as [|w rest] eqn:Hw; simpl.
  - intros Hc'. destruct (Nat.eq_dec c' c) as [->|Hne].
    + rewrite Hself in Hc'. discriminate.
    + rewrite Hdone in Hc' by exact Hne.
      pose proof (Hl c' Hc') as Hin. rewrite Hw in Hin. exact Hin.
  - assert (Hwsus : phaseOf w (calls pl) = Some Suspended).
    { apply (waiting_suspended Hcons). rewrite Hw. left. reflexivity. }
    assert (Hwc : w <> c).
    { intros ->. rewrite Hwsus in Hc. injection Hc as <-. discriminate. }
    intros Hc'.
    destruct (Nat.eq_dec c' w) as [->|Hnw].
    + rewrite (PoolFacts.phaseOf_setPhase_same w _ _ Suspended) in Hc'.
      * discriminate.
      * rewrite Hdone by exact Hwc. exact Hwsus.
    + rewrite PoolFacts.phaseOf_setPhase_other in Hc' by exact Hnw.
      destruct (Nat.eq_dec c' c) as [->|Hne].
      * rewrite Hself in Hc'. discriminate.
      * rewrite Hdone in Hc' by exact Hne.
        pose proof (Hl c' Hc') as Hin. rewrite Hw in Hin.
        destruct Hin as [Heq|Hin]; [congruence | exact Hin].
Qed.

Lemma suspendedListed_act cfg pl a pl' :
  consistent pl -> suspendedListed pl ->
  act cfg pl a = Some pl' -> suspendedListed pl'.
Proof.
  intros Hcons Hl. destruct a as [c|c t|c out t]; simpl.
  - destruct (phaseOf c (calls pl)) eqn:Hc; [discriminate|].
    unfold acquire.
    destruct (running (gate (shared pl)) <? maxConcurrent (gate (shared pl)))%Z;
      intros H; injection H as <-; intros c' Hc'; simpl in *;
      rewrite PoolFacts.phaseOf_app in Hc'.
    + destruct (phaseOf c' (calls pl)) eqn:Hold.
      * injection Hc' as ->. apply Hl. exact Hold.
      * destruct (Nat.eqb c c'); discriminate.
    + apply in_or_app.
      destruct (phaseOf c' (calls pl)) eqn:Hold.
      * injection Hc' as ->. left. apply Hl. exact Hold.
      * destruct (Nat.eqb c c') eqn:E; [|discriminate].
        apply Nat.eqb_eq in E. right. left. exact E.
  - destruct (phaseOf c (calls pl)) as [[|todo tried lastError| |]|] eqn:Hc;
      try discriminate.
    destruct todo as [|key rest].
    + intros H. injection H as <-.
      eapply suspendedListed_leave; eauto.
    + destruct (beginTurn t key (store (shared pl))) as [ps1|];
        intros H; injection H as <-.
      * eapply suspendedListed_move; eauto.
      * destruct pl as [[st g] cs]. simpl in *.
        eapply (suspendedListed_move
                  {| shared := {| store := st; gate := g |}; calls := cs |});
          eauto.
  - destruct (phaseOf c (calls pl)) as [[| |key rest tried lastError|]|] eqn:Hc;
      try discriminate.
    destruct (endTurn out t key (store (shared pl)) lastError)
      as [|ps' text|ps' lastError']; intros H; try discriminate;
      injection H as <-.
    + eapply suspendedListed_leave; eauto.
    + eapply suspendedListed_move; eauto.
Qed.

Lemma fullWhenWaiting_act cfg pl a pl' :
  fullWhenWaiting (gate (shared pl)) ->
  act cfg pl a = Some pl' -> fullWhenWaiting (gate (shared pl')).
Proof.
  intros Hq.
  assert (Hleave : forall c r tried ps,
             fullWhenWaiting (gate (shared (leave cfg c r tried ps pl)))).
  { intros c r tried ps. unfold leave.
    pose proof (fullWhenWaiting_release _ Hq) as H.
    destruct (release (gate (shared pl))) as [q woken]. exact H. }
  destruct a as [c|c t|c out t]; simpl.
  - destruct (phaseOf c (calls pl)); [discriminate|].
    pose proof (fullWhenWaiting_acquire c _ Hq) as H.
    destruct (acquire c (gate (shared pl))) as [q granted].
    intros E. injection E as <-. exact H.
  - destruct (phaseOf c (calls pl)) as [[|todo tried lastError| |]|];
      try discriminate.
    destruct todo as [|key rest].
    + intros E. injection E as <-. apply Hleave.
    + destruct (beginTurn t key (store (shared pl)));
        intros E; injection E as <-; exact Hq.
  - destruct (phaseOf c (calls pl)) as [[| |key rest tried lastError|]|];
      try discriminate.
    destruct (endTurn out t key (store (shared pl)) lastError);
      intros E; try discriminate; injection E as <-;
      [apply Hleave | exact Hq].
Qed.

Lemma waiting_schedule cfg acts : forall pl pl',
  consistent pl -> suspendedListed pl -> fullWhenWaiting (gate (shared pl)) ->
  schedule cfg pl acts = Some pl' ->
  consistent pl' /\ suspendedListed pl' /\ fullWhenWaiting (gate (shared pl')).
Proof.
  induction acts as [|a acts IH]; intros pl pl' Hc Hl Hq; simpl.
  - intros H. injection H as <-. auto.
  - destruct (act cfg pl a) as [pl1|] eqn:Ha; [|discriminate].
    apply IH.
    + eapply PoolFacts.consistent_act; eauto.
    + eapply suspendedListed_act; eauto.
    + eapply fullWhenWaiting_act; eauto.
Qed.

(** X2: along every interleaving of [generateCompletion] calls, the calls
    suspended in [acquire] are exactly the callers on the wait list, so that
    each of them is reached by a later [release], and a call is suspended
    only while two calls are inside their [try] block. *)
Theorem suspended_calls_are_the_wait_list
    (cfg : AiConfig) (acts : list Action) (pl : Pool)
    (Hreach : schedule cfg (start cfg) acts = Some pl) :
  (forall c, phaseOf c (calls pl) = Some Suspended
             <-> In c (waiting (gate (shared pl))))
  /\ (forall c, phaseOf c (calls pl) = Some Suspended -> inFlight pl = 2).
Proof.
  assert (H0 : suspendedListed (start cfg)) by (intros c Hc; discriminate Hc).
  assert (H1 : fullWhenWaiting (gate (shared (start cfg))))
    by (split; simpl; [lia | left; reflexivity]).
  destruct (waiting_schedule cfg acts (start cfg) pl
              (PoolFacts.consistent_start cfg) H0 H1 Hreach) as [Hc [Hl Hq]].
  split.
  - intros c. split; [apply Hl | apply (waiting_suspended Hc)].
  - intros c Hsus. apply Hl in Hsus.
    destruct Hq as [_ [Hempty|Hfull]].
    + rewrite Hempty in Hsus. destruct Hsus.
    + pose proof (running_counts Hc) as Hcnt.
      pose proof (maximum_fixed Hc) as Hmax.
      change (slotsHeld (calls pl)) with (inFlight pl) in Hcnt. lia.
Qed.

Lemma suspended_calls_witness :
  schedule fullConfig (start fullConfig) thirdWaits = Some afterThirdWaits
  /\ phaseOf 3 (calls afterThirdWaits) = Some Suspended
  /\ In 3 (waiting (gate (shared afterThirdWaits)))
  /\ inFlight afterThirdWaits = 2.
Proof.
  assert (H : schedule fullConfig (start fullConfig) thirdWaits
              = Some afterThirdWaits) by reflexivity.
  destruct (suspended_calls_are_the_wait_list fullConfig thirdWaits
              afterThirdWaits H) as [Hiff Hfull].
  assert (Hs : phaseOf 3 (calls afterThirdWaits) = Some Suspended)
    by reflexivity.
  split; [exact H|]. split; [exact Hs|].
  split; [apply Hiff; exact Hs | apply (Hfull 3); exact Hs].
Defined.

End GateProps.


(** ** More on the response cache *)

Module CacheProps.

Import Cache Spec.

Lemma map_get_set_same key entry m :
  map_get key (map_set key entry m) = Some entry.
Proof.
  induction m as [|[k e] m IH]; simpl.
  - rewrite String.eqb_refl. reflexivity.
  - destruct (String.eqb k key) eqn:E; simpl; rewrite E; [reflexivity | exact IH].
Qed.

(** X3: a value written with [setCache] is returned by [getCached] for the
    same key up to and including the instant its TTL ends, whatever the cache
    held before, and is a miss strictly after that instant. *)
Theorem getCached_after_setCache
    (now now' ttl : Z) (key val : string) (m : Store) :
  fst (getCached now' key (setCache now key val ttl m))
  = if (now + ttl <? now')%Z then None else Some val.
Proof.
  unfold getCached, setCache.
  rewrite map_get_set_same. simpl.
  destruct (now + ttl <? now')%Z; reflexivity.
Qed.

(** X4: starting from the empty cache, every sequence of reads, writes and
    sweeps that never writes the empty key leaves at most [MAX_ENTRIES]
    (200) entries. *)
Theorem named_keys_stay_within_capacity (ops : list op)
    (Hnamed : writesNamedKeys ops) :
  (size (run [] ops) <= MAX_ENTRIES)%nat.
Proof.
  assert (H0 : withinCapacity []).
  { split; [unfold size, MAX_ENTRIES; simpl; lia | constructor]. }
  destruct (CacheFacts.capacity_respected_for_named_keys ops [] Hnamed H0)
    as [Hsize _].
  exact Hsize.
Qed.

Lemma named_keys_witness :
  writesNamedKeys readThenWrite
  /\ (size (run [] readThenWrite) <= MAX_ENTRIES)%nat
  /\ size (run [] readThenWrite) = 200.
Proof.
  assert (H : writesNamedKeys readThenWrite).
  { unfold writesNamedKeys. apply Forall_forall. intros o Ho.
    unfold readThenWrite, twoHundredWrites in Ho.
    apply in_app_or in Ho. destruct Ho as [Ho|[<-|[<-|[]]]].
    - apply in_map_iff in Ho. destruct Ho as [n [<- _]]. reflexivity.
    - exact I.
    - reflexivity. }
  split; [exact H|]. split; [|reflexivity].
  apply (named_keys_stay_within_capacity readThenWrite H).
Defined.

(** X5: in a full cache of distinct keys, a hit on the oldest entry
    followed by the write of a new key evicts the second oldest entry and
    keeps the entry that was read, now followed by the new one. *)
Theorem read_then_write_evicts_second_oldest
    (now now' ttl : Z) (key val k1 k2 : string) (e1 e2 : CacheEntry)
    (rest : Store)
    (Hdistinct : NoDup (keys ((k1, e1) :: (k2, e2) :: rest)))
    (Hfull : (MAX_ENTRIES <= size ((k1, e1) :: (k2, e2) :: rest))%nat)
    (Hlive : (now <= expiresAt e1)%Z)
    (Hnamed : Js.truthy k2 = true)
    (Hnew : ~ In key (keys ((k1, e1) :: (k2, e2) :: rest))) :
  fst (getCached now k1 ((k1, e1) :: (k2, e2) :: rest)) = Some (value e1)
  /\ setCache now' key val ttl
       (snd (getCached now k1 ((k1, e1) :: (k2, e2) :: rest)))
     = rest ++ [(k1, e1);
                (key, {| value := val; expiresAt := (now' + ttl)%Z |})].
Proof.
  assert (Hget : map_get k1 ((k1, e1) :: (k2, e2) :: rest) = Some e1).
  { simpl. rewrite String.eqb_refl. reflexivity. }
  assert (Hexp : (expiresAt e1 <? now)%Z = false) by (apply Z.ltb_ge; lia).
  rewrite (CacheFacts.getCached_hit_refreshes now k1 _ e1 Hdistinct Hget Hexp).
  simpl fst. simpl snd. split; [reflexivity|].
  simpl map_delete. rewrite String.eqb_refl.
  change (((k2, e2) :: rest) ++ [(k1, e1)])
    with ((k2, e2) :: (rest ++ [(k1, e1)])).
  rewrite CacheFacts.setCache_full_evicts_oldest.
  - rewrite <- app_assoc. reflexivity.
  - unfold size in *. simpl in *. rewrite length_app. simpl. lia.
  - exact Hnamed.
  - apply CacheFacts.map_get_absent. unfold keys. rewrite map_app. simpl.
    intros Hin. apply Hnew. simpl. apply in_app_or in Hin.
    destruct Hin as [Hin|[Hin|[]]]; [right; right; exact Hin | left; exact Hin].
Qed.

Lemma read_then_write_witness :
  fullCache = (keyOf 1, {| value := "v"; expiresAt := 300000 |})
              :: (keyOf 2, {| value := "v"; expiresAt := 300000 |})
              :: skipn 2 fullCache
  /\ map_get (keyOf 1)
       (setCache 2 (keyOf 201) "v" DEFAULT_TTL_MS
          (snd (getCached 1 (keyOf 1) fullCache)))
     = Some {| value := "v"; expiresAt := 300000 |}
  /\ map_get (keyOf 2)
       (setCache 2 (keyOf 201) "v" DEFAULT_TTL_MS
          (snd (getCached 1 (keyOf 1) fullCache)))
     = None.
Proof.
  assert (Hshape :
            fullCache = (keyOf 1, {| value := "v"; expiresAt := 300000 |})
                        :: (keyOf 2, {| value := "v"; expiresAt := 300000 |})
                        :: skipn 2 fullCache) by reflexivity.
  split; [exact Hshape|].
  assert (Hd : NoDup (keys ((keyOf 1, {| value := "v"; expiresAt := 300000 |})
                            :: (keyOf 2, {| value := "v"; expiresAt := 300000 |})
                            :: skipn 2 fullCache))).
  { rewrite <- Hshape. unfold fullCache.
    apply CacheFacts.distinct_keys_kept. constructor. }
  assert (Hnew : ~ In (keyOf 201)
                   (keys ((keyOf 1, {| value := "v"; expiresAt := 300000 |})
                          :: (keyOf 2, {| value := "v"; expiresAt := 300000 |})
                          :: skipn 2 fullCache))).
  { rewrite <- Hshape. intros Hin.
    apply (CacheFacts.map_get_key_absent_contra (keyOf 201) fullCache Hin).
    reflexivity. }
  destruct (read_then_write_evicts_second_oldest 1 2 DEFAULT_TTL_MS
              (keyOf 201) "v" (keyOf 1) (keyOf 2)
              {| value := "v"; expiresAt := 300000 |}
              {| value := "v"; expiresAt := 300000 |}
              (skipn 2 fullCache) Hd) as [_ Heq].
  - rewrite <- Hshape. apply Nat.leb_le. reflexivity.
  - simpl. lia.
  - reflexivity.
  - exact Hnew.
  - rewrite <- Hshape in Heq. rewrite Heq. split; reflexivity.
Defined.

Lemma map_get_cleanup now key m :
  NoDup (keys m) ->
  map_get key (cleanup now m)
  = match map_get key m with
    | Some entry => if (expiresAt entry <? now)%Z then None else Some entry
    | None => None
    end.
Proof.
  unfold cleanup.
  induction m as [|[k e] m IH]; simpl; intros Hnd; [reflexivity|].
  inversion Hnd as [|? ? Hnotin Hrest]; subst.
  destruct (String.eqb k key) eqn:E.
  - apply String.eqb_eq in E. subst k.
    destruct (expiresAt e <? now)%Z; simpl.
    + apply CacheFacts.map_get_absent. intros Hin. apply Hnotin.
      unfold keys in *. apply in_map_iff in Hin.
      destruct Hin as [[k' e'] [Hk Hin]]. apply filter_In in Hin.
      apply in_map_iff. exists (k', e'). tauto.
    + rewrite String.eqb_refl. reflexivity.
  - destruct (expiresAt e <? now)%Z; simpl; [|rewrite E]; apply IH; exact Hrest.
Qed.

(** X6: the periodic sweep is invisible to readers: in a cache of distinct
    keys, [getCached] returns at the time of the sweep the same value, or the
    same miss, after the sweep as before it. *)
Theorem sweep_is_invisible_to_readers (now : Z) (key : string) (m : Store)
    (Hdistinct : NoDup (keys m)) :
  fst (getCached now key (cleanup now m)) = fst (getCached now key m).
Proof.
  unfold getCached. rewrite (map_get_cleanup now key m Hdistinct).
  destruct (map_get key m) as [entry|]; [|reflexivity].
  destruct (expiresAt entry <? now)%Z eqn:E; [reflexivity|].
  rewrite E. reflexivity.
Qed.

Lemma sweep_witness :
  NoDup (keys mixedCache)
  /\ size (cleanup 1000 mixedCache) = 1
  /\ fst (getCached 1000 "new" (cleanup 1000 mixedCache)) = Some "fresh"%string
  /\ fst (getCached 1000 "old" (cleanup 1000 mixedCache)) = None.
Proof.
  assert (H : NoDup (keys mixedCache)).
  { repeat constructor; simpl; intuition discriminate. }
  split; [exact H|]. split; [reflexivity|]. split.
  - rewrite (sweep_is_invisible_to_readers 1000 "new" mixedCache H).
    reflexivity.
  - rewrite (sweep_is_invisible_to_readers 1000 "old" mixedCache H).
    reflexivity.
Defined.

End CacheProps.

(** ** Normalised text: lower case and trimmed *)

Module TextProps.

Import Js Spec.
Local Open Scope string_scope.

Lemma lowerChar_idempotent a : lowerChar (lowerChar a) = lowerChar a.
Proof.
  destruct a as [[] [] [] [] [] [] [] []]; reflexivity.
Qed.

Lemma isWhitespace_lowerChar a : isWhitespace (lowerChar a) = isWhitespace a.
Proof.
  destruct a as [[] [] [] [] [] [] [] []]; reflexivity.
Qed.

Lemma toLowerCase_idempotent s : toLowerCase (toLowerCase s) = toLowerCase s.
Proof.
  induction s as [|a s IH]; simpl; [reflexivity|].
  rewrite lowerChar_idempotent, IH. reflexivity.
Qed.

Lemma toLowerCase_app s t :
  toLowerCase (s ++ t) = toLowerCase s ++ toLowerCase t.
Proof.
  induction s as [|a s IH]; simpl; [reflexivity | rewrite IH; reflexivity].
Qed.

Lemma app_empty_r s : s ++ "" = s.
Proof. induction s as [|a s IH]; simpl; [reflexivity | rewrite IH; reflexivity]. Qed.

Lemma app_assoc_string s t u : (s ++ t) ++ u = s ++ (t ++ u).
Proof. induction s as [|a s IH]; simpl; [reflexivity | rewrite IH; reflexivity]. Qed.

Lemma rev_onto_app s : forall acc, rev_onto s acc = reverse s ++ acc.
Proof.
  unfold reverse. induction s as [|a s IH]; intros acc; simpl; [reflexivity|].
  rewrite IH, (IH (String a "")), app_assoc_string. reflexivity.
Qed.

Lemma reverse_cons a s : reverse (String a s) = reverse s ++ String a "".
Proof. unfold reverse at 1. simpl. apply rev_onto_app. Qed.

Lemma reverse_app s t : reverse (s ++ t) = reverse t ++ reverse s.
Proof.
  induction s as [|a s IH]; simpl.
  - rewrite app_empty_r. reflexivity.
  - rewrite !reverse_cons, IH, app_assoc_string. reflexivity.
Qed.

Lemma reverse_involutive s : reverse (reverse s) = s.
Proof.
  induction s as [|a s IH]; [reflexivity|].
  rewrite reverse_cons, reverse_app, IH. reflexivity.
Qed.

Lemma toLowerCase_reverse s : toLowerCase (reverse s) = reverse (toLowerCase s).
Proof.
  induction s as [|a s IH]; [reflexivity|].
  simpl toLowerCase. rewrite !reverse_cons, toLowerCase_app, IH. reflexivity.
Qed.

Lemma trimStart_toLowerCase s :
  trimStart (toLowerCase s) = toLowerCase (trimStart s).
Proof.
  induction s as [|a s IH]; simpl; [reflexivity|].
  rewrite isWhitespace_lowerChar.
  destruct (isWhitespace a); [exact IH | reflexivity].
Qed.

Lemma trimEnd_toLowerCase s : trimEnd (toLowerCase s) = toLowerCase (trimEnd s).
Proof.
  unfold trimEnd.
  rewrite <- toLowerCase_reverse, trimStart_toLowerCase, toLowerCase_reverse.
  reflexivity.
Qed.

Lemma trim_toLowerCase s : trim (toLowerCase s) = toLowerCase (trim s).
Proof.
  unfold trim. rewrite trimStart_toLowerCase, trimEnd_toLowerCase. reflexivity.
Qed.

Lemma trimStart_idempotent s : trimStart (trimStart s) = trimStart s.
Proof.
  induction s as [|a s IH]; simpl; [reflexivity|].
  destruct (isWhitespace a) eqn:E; [exact IH|].
  simpl. rewrite E. reflexivity.
Qed.

Lemma trimStart_snoc s a :
  isWhitespace a = false ->
  trimStart (s ++ String a "") = trimStart s ++ String a "".
Proof.
  intros Ha. induction s as [|b s IH]; simpl.
  - rewrite Ha. reflexivity.
  - destruct (isWhitespace b); [exact IH | reflexivity].
Qed.

(** A character that is not whitespace stops [trimEnd]. *)
Lemma trimEnd_cons a s :
  isWhitespace a = false -> trimEnd (String a s) = String a (trimEnd s).
Proof.
  intros Ha. unfold trimEnd.
  rewrite reverse_cons, (trimStart_snoc _ a Ha), reverse_app. reflexivity.
Qed.

Lemma trimEnd_idempotent s : trimEnd (trimEnd s) = trimEnd s.
Proof.
  unfold trimEnd. rewrite reverse_involutive, trimStart_idempotent.
  reflexivity.
Qed.

Lemma trimStart_trim s : trimStart (trim s) = trim s.
Proof.
  unfold trim.
  destruct (trimStart s) as [|a t] eqn:E; [reflexivity|].
  assert (Ha : isWhitespace a = false).
  { clear -E. induction s as [|b s IH]; simpl in E; [discriminate|].
    destruct (isWhitespace b) eqn:Eb; [exact (IH E)|].
    injection E as <- _. exact Eb. }
  rewrite (trimEnd_cons a t Ha). simpl. rewrite Ha. reflexivity.
Qed.

Lemma trim_idempotent s : trim (trim s) = trim s.
Proof.
  unfold trim at 1. rewrite trimStart_trim. unfold trim.
  apply trimEnd_idempotent.
Qed.

(** Normalising twice is normalising once. *)
Lemma normalise_idempotent s :
  trim (toLowerCase (trim (toLowerCase s))) = trim (toLowerCase s).
Proof.
  rewrite (trim_toLowerCase s), toLowerCase_idempotent.
  rewrite (trim_toLowerCase (trim s)), trim_idempotent. reflexivity.
Qed.

Lemma append_cancel_l p s t : p ++ s = p ++ t -> s = t.
Proof.
  induction p as [|a p IH]; simpl; [tauto|].
  intros H. injection H as H. apply IH. exact H.
Qed.

(** X7: two queries get the same cache key for a command and a level
    exactly when they agree once lower-cased and trimmed; a query and its
    normal form share their key, and an [ask] key never equals a [related]
    key. *)
Theorem makeCacheKey_normalises (command level q q' : string) :
  (Cache.makeCacheKey command q level = Cache.makeCacheKey command q' level
   <-> trim (toLowerCase q) = trim (toLowerCase q'))
  /\ Cache.makeCacheKey command (trim (toLowerCase q)) level
     = Cache.makeCacheKey command q level
  /\ Cache.makeCacheKey "ask" q level <> Cache.makeCacheKey "related" q' level.
Proof.
  unfold Cache.makeCacheKey. split; [|split].
  - split.
    + intros H. apply append_cancel_l in H. simpl in H. injection H as H.
      apply append_cancel_l in H. simpl in H. injection H as H. exact H.
    + intros ->. reflexivity.
  - rewrite normalise_idempotent. reflexivity.
  - simpl. intros H. discriminate H.
Qed.

End TextProps.

(** ** More on the provider chain *)

Module FallbackProps.

Import Queue AI Spec.

(** *** [getActiveProvider] *)

Lemma firstAvailable_none now keys : forall ps ps',
  firstAvailable now keys ps = (None, ps') ->
  ps' = ps /\ forall k, In k keys -> beginTurn now k ps = None.
Proof.
  induction keys as [|key rest IH]; intros ps ps'; simpl.
  - intros H. injection H as <-. split; [reflexivity | intros k []].
  - destruct (0 <? rateLimitedUntil (lookup ps key))%Z eqn:Hpos;
      [|discriminate].
    destruct (rateLimitedUntil (lookup ps key) <=? now)%Z eqn:Hdue;
      [discriminate|].
    intros H. destruct (IH ps ps' H) as [-> Hrest].
    split; [reflexivity|]. intros k [<-|Hk]; [|apply Hrest; exact Hk].
    unfold beginTurn. rewrite Hpos, Hdue. reflexivity.
Qed.

Lemma firstAvailable_some now keys : forall ps ps' key,
  firstAvailable now keys ps = (Some key, ps') ->
  exists before later,
    keys = before ++ key :: later
    /\ (forall k, In k before -> beginTurn now k ps = None)
    /\ beginTurn now key ps = Some ps'.
Proof.
  induction keys as [|k0 rest IH]; intros ps ps' key; simpl; [discriminate|].
  unfold beginTurn at 1.
  destruct (0 <? rateLimitedUntil (lookup ps k0))%Z eqn:Hpos.
  - destruct (rateLimitedUntil (lookup ps k0) <=? now)%Z eqn:Hdue.
    + intros H. injection H as <- <-. exists [], rest.
      split; [reflexivity|]. split; [intros k []|].
      unfold beginTurn. rewrite Hpos, Hdue. reflexivity.
    + intros H. destruct (IH ps ps' key H) as [before [later [-> [Hb Hk]]]].
      exists (k0 :: before), later. split; [reflexivity|]. split; [|exact Hk].
      intros k [<-|Hin]; [|apply Hb; exact Hin].
      unfold beginTurn. rewrite Hpos, Hdue. reflexivity.
  - intros H. injection H as <- <-. exists [], rest.
    split; [reflexivity|]. split; [intros k []|].
    unfold beginTurn. rewrite Hpos. reflexivity.
Qed.

(** The [reduce] of [getActiveProvider] picks a provider whose cooldown
    ends no later than any other. *)
Lemma soonest_is_minimal ps rest : forall first,
  let pick := fold_left
                (fun a b =>
                   if (rateLimitedUntil (lookup ps a)
                         <=? rateLimitedUntil (lookup ps b))%Z
                   then a else b) rest first in
  In pick (first :: rest)
  /\ forall k, In k (first :: rest) ->
               (rateLimitedUntil (lookup ps pick)
                <= rateLimitedUntil (lookup ps k))%Z.
Proof.
  induction rest as [|b rest IH]; intros first; simpl.
  - split; [left; reflexivity|]. intros k [<-|[]]. lia.
  - destruct (rateLimitedUntil (lookup ps first)
                <=? rateLimitedUntil (lookup ps b))%Z eqn:E.
    + apply Z.leb_le in E. destruct (IH first) as [Hin Hmin]. split.
      * destruct Hin as [Hin|Hin]; [left; exact Hin | right; right; exact Hin].
      * intros k [<-|[<-|Hk]].
        -- apply Hmin. left. reflexivity.
        -- specialize (Hmin first (or_introl eq_refl)). lia.
        -- apply Hmin. right. exact Hk.
    + apply Z.leb_gt in E. destruct (IH b) as [Hin Hmin]. split.
      * right. exact Hin.
      * intros k [<-|[<-|Hk]].
        -- specialize (Hmin b (or_introl eq_refl)). lia.
        -- apply Hmin. left. reflexivity.
        -- apply Hmin. right. exact Hk.
Qed.

(** X8: [getActiveProvider] returns the first provider of
    [PROVIDER_PRIORITY] that is not cooling, every provider before it being
    in cooldown, and clears its cooldown if that has run out; when every
    provider is cooling it returns one whose cooldown ends soonest and
    changes nothing; it fails only when no provider is configured. *)
Theorem getActiveProvider_picks_first_or_soonest
    (cfg : AiConfig) (now : Z) (ps : Providers) :
  match getActiveProvider cfg now ps with
  | (Some key, ps') =>
      (exists before later,
          PROVIDER_PRIORITY cfg = before ++ key :: later
          /\ (forall k, In k before -> beginTurn now k ps = None)
          /\ beginTurn now key ps = Some ps')
      \/ (ps' = ps
          /\ In key (PROVIDER_PRIORITY cfg)
          /\ forall k, In k (PROVIDER_PRIORITY cfg) ->
                       beginTurn now k ps = None
                       /\ (rateLimitedUntil (lookup ps key)
                           <= rateLimitedUntil (lookup ps k))%Z)
  | (None, ps') => PROVIDER_PRIORITY cfg = [] /\ ps' = ps
  end.
Proof.
  unfold getActiveProvider.
  destruct (firstAvailable now (PROVIDER_PRIORITY cfg) ps) as [[key|] ps']
    eqn:Hfirst.
  - left. apply (firstAvailable_some now _ ps ps' key Hfirst).
  - destruct (firstAvailable_none now _ ps ps' Hfirst) as [-> Hcool].
    destruct (PROVIDER_PRIORITY cfg) as [|first rest]; simpl;
      [split; reflexivity|].
    right. destruct (soonest_is_minimal ps rest first) as [Hin Hmin].
    split; [reflexivity|]. split; [exact Hin|].
    intros k Hk. split; [apply Hcool; exact Hk | apply Hmin; exact Hk].
Qed.

(** *** Cooldowns *)

(** X9: once a provider has answered 429 or 402 at time [t], every turn
    that reaches it before [t + 30000] skips it, and the first turn at or
    after [t + 30000] attempts it and clears the cooldown; the other
    providers are untouched. *)
Theorem rate_limited_provider_cools_for_30_seconds
    (t now : Z) (key : ProviderSlot) (e : Thrown) (ps : Providers)
    (Hstatus : errorStatus (asApiError e) = Some (CNum 429)
               \/ errorStatus (asApiError e) = Some (CNum 402))
    (Hclock : (0 <= t)%Z) :
  beginTurn now key (recordFailure t key e ps)
  = (if (t + RATE_LIMIT_COOLDOWN_MS <=? now)%Z
     then Some (update key (setRateLimitedUntil 0) (recordFailure t key e ps))
     else None)
  /\ RATE_LIMIT_COOLDOWN_MS = 30000%Z
  /\ forall other, other <> key ->
       lookup (recordFailure t key e ps) other = lookup ps other.
Proof.
  assert (Hrec : recordFailure t key e ps = markRateLimited t key ps).
  { unfold recordFailure. destruct Hstatus as [-> | ->]; reflexivity. }
  rewrite Hrec. unfold markRateLimited. split; [|split].
  - unfold beginTurn. rewrite FallbackFacts.lookup_update.
    assert (Hself : slot_eqb key key = true) by (destruct key; reflexivity).
    rewrite Hself. simpl rateLimitedUntil.
    assert (Hpos : (0 <? t + RATE_LIMIT_COOLDOWN_MS)%Z = true).
    { apply Z.ltb_lt. unfold RATE_LIMIT_COOLDOWN_MS. lia. }
    rewrite Hpos. reflexivity.
  - reflexivity.
  - intros other Hne. rewrite FallbackFacts.lookup_update.
    destruct (slot_eqb key other) eqn:E; [|reflexivity].
    destruct key, other; try discriminate; congruence.
Qed.

Lemma rate_limited_witness :
  beginTurn 39999 gemini1 (recordFailure 10000 gemini1 rateLimitError
                                         (providers fullConfig)) = None
  /\ (exists ps', beginTurn 40000 gemini1
                    (recordFailure 10000 gemini1 rateLimitError
                                   (providers fullConfig)) = Some ps'
                  /\ rateLimitedUntil (lookup ps' gemini1) = 0%Z).
Proof.
  assert (H : errorStatus (asApiError rateLimitError) = Some (CNum 429)
              \/ errorStatus (asApiError rateLimitError) = Some (CNum 402))
    by (left; reflexivity).
  assert (Hc : (0 <= 10000)%Z) by lia.
  destruct (rate_limited_provider_cools_for_30_seconds 10000 39999 gemini1
              rateLimitError (providers fullConfig) H Hc) as [Hskip _].
  destruct (rate_limited_provider_cools_for_30_seconds 10000 40000 gemini1
              rateLimitError (providers fullConfig) H Hc) as [Htry _].
  split; [exact Hskip|]. eexists. split; [exact Htry | reflexivity].
Defined.

(** *** The traces a call leaves in the provider table *)

Lemma beginTurn_cooldown t key ps ps1 k :
  beginTurn t key ps = Some ps1 ->
  rateLimitedUntil (lookup ps1 k) = rateLimitedUntil (lookup ps k)
  \/ rateLimitedUntil (lookup ps1 k) = 0%Z.
Proof.
  unfold beginTurn.
  destruct (0 <? rateLimitedUntil (lookup ps key))%Z.
  - destruct (rateLimitedUntil (lookup ps key) <=? t)%Z; [|discriminate].
    intros H. injection H as <-. rewrite FallbackFacts.lookup_update.
    destruct (slot_eqb key k); [right | left]; reflexivity.
  - intros H. injection H as <-. left. reflexivity.
Qed.

Lemma slot_eqb_eq a b : slot_eqb a b = true -> a = b.
Proof. destruct a, b; simpl; congruence. Qed.

Lemma recordFailure_cooldown t key e ps k :
  rateLimitedUntil (lookup (recordFailure t key e ps) k)
  = rateLimitedUntil (lookup ps k)
  \/ (k = key
      /\ statusIs 429 (errorStatus (asApiError e))
         || statusIs 402 (errorStatus (asApiError e)) = true
      /\ rateLimitedUntil (lookup (recordFailure t key e ps) k)
         = (t + RATE_LIMIT_COOLDOWN_MS)%Z).
Proof.
  unfold recordFailure, markRateLimited.
  destruct (statusIs 429 _ || statusIs 402 _) eqn:Hrl.
  - rewrite FallbackFacts.lookup_update.
    destruct (slot_eqb key k) eqn:E; [|left; reflexivity].
    right. apply slot_eqb_eq in E. subst k. auto.
  - left. destruct (statusIs 404 _); [|reflexivity].
    rewrite FallbackFacts.lookup_update.
    destruct (slot_eqb key k) eqn:E; [|reflexivity].
    apply slot_eqb_eq in E. subst k. reflexivity.
Qed.

(** X10: the only cooldown a run of the provider loop starts is the
    30-second cooldown of a provider of the chain whose call was rejected
    with status 429 or 402, counted from the time of that failure; apart
    from that a cooldown is left as it was or cleared.  Timeouts, connection
    errors, 5xx and 404 answers and empty completions start no cooldown. *)
Theorem only_rate_limits_start_a_cooldown
    (env : ProviderSlot -> Observation) (keys tried : list ProviderSlot)
    (ps : Providers) (lastError : option Thrown) (k : ProviderSlot) :
  let r := providerLoop env keys ps tried lastError in
  rateLimitedUntil (lookup (after r) k) = rateLimitedUntil (lookup ps k)
  \/ rateLimitedUntil (lookup (after r) k) = 0%Z
  \/ (In k keys
      /\ exists e,
          outcome (env k) = Rejected e
          /\ statusIs 429 (errorStatus (asApiError e))
             || statusIs 402 (errorStatus (asApiError e)) = true
          /\ rateLimitedUntil (lookup (after r) k)
             = (failedAt (env k) + 30000)%Z).
Proof.
  revert ps tried lastError.
  induction keys as [|key rest IH]; intros ps tried lastError; simpl.
  - left. reflexivity.
  - assert (Hlift : forall ps1 tried1 le1,
               (rateLimitedUntil (lookup ps1 k) = rateLimitedUntil (lookup ps k)
                \/ rateLimitedUntil (lookup ps1 k) = 0%Z
                \/ (k = key
                    /\ exists e,
                        outcome (env k) = Rejected e
                        /\ statusIs 429 (errorStatus (asApiError e))
                           || statusIs 402 (errorStatus (asApiError e)) = true
                        /\ rateLimitedUntil (lookup ps1 k)
                           = (failedAt (env k) + 30000)%Z)) ->
               let r := providerLoop env rest ps1 tried1 le1 in
               rateLimitedUntil (lookup (after r) k)
               = rateLimitedUntil (lookup ps k)
               \/ rateLimitedUntil (lookup (after r) k) = 0%Z
               \/ (In k (key :: rest)
                   /\ exists e,
                       outcome (env k) = Rejected e
                       /\ statusIs 429 (errorStatus (asApiError e))
                          || statusIs 402 (errorStatus (asApiError e)) = true
                       /\ rateLimitedUntil (lookup (after r) k)
                          = (failedAt (env k) + 30000)%Z)).
    { intros ps1 tried1 le1 H1.
      destruct (IH ps1 tried1 le1) as [Hsame|[Hzero|[Hin [e [Ho [Hs Hv]]]]]].
      - simpl. rewrite Hsame.
        destruct H1 as [H1|[H1|[-> [e [Ho [Hs Hv]]]]]]; auto.
        right. right. split; [left; reflexivity|]. exists e. auto.
      - right. left. exact Hzero.
      - right. right. split; [right; exact Hin|]. exists e. auto. }
    unfold turn.
    destruct (beginTurn (now (env key)) key ps) as [ps1|] eqn:Hbegin.
    + pose proof (beginTurn_cooldown _ _ _ _ k Hbegin) as Hb.
      unfold endTurn.
      destruct (outcome (env key)) as [[text|]|e] eqn:Hout.
      * destruct (Js.truthy text); simpl.
        -- destruct Hb as [Hb|Hb]; auto.
        -- apply Hlift. destruct Hb as [Hb|Hb]; auto.
      * apply Hlift. destruct Hb as [Hb|Hb]; auto.
      * apply Hlift.
        destruct (recordFailure_cooldown (failedAt (env key)) key e ps1 k)
          as [Hsame|[-> [Hs Hv]]].
        -- rewrite Hsame. destruct Hb as [Hb|Hb]; auto.
        -- right. right. split; [reflexivity|]. exists e.
           split; [exact Hout|]. split; [exact Hs|]. exact Hv.
    + apply Hlift. left. reflexivity.
Qed.

(** *** Priority order *)

Lemma providerLoop_first_success env keys : forall ps tried lastError text,
  settled (providerLoop env keys ps tried lastError) = Fulfilled text ->
  exists before key later picked,
    keys = before ++ key :: later
    /\ attempted (providerLoop env keys ps tried lastError)
       = tried ++ picked ++ [key]
    /\ Subsequence picked before
    /\ outcome (env key) = Resolved (Some text)
    /\ text <> EmptyString
    /\ forall k, In k picked ->
                 forall t, outcome (env k) = Resolved (Some t) ->
                           t = EmptyString.
Proof.
  induction keys as [|key rest IH]; intros ps tried lastError text; simpl;
    [discriminate|].
  assert (Hnext : forall ps1 le1 (attempted_here : bool),
             settled (providerLoop env rest ps1
                        (if attempted_here then tried ++ [key] else tried) le1)
             = Fulfilled text ->
             (attempted_here = true ->
              forall t, outcome (env key) = Resolved (Some t) ->
                        t = EmptyString) ->
             exists before k later picked,
               key :: rest = before ++ k :: later
               /\ attempted (providerLoop env rest ps1
                     (if attempted_here then tried ++ [key] else tried) le1)
                  = tried ++ picked ++ [k]
               /\ Subsequence picked before
               /\ outcome (env k) = Resolved (Some text)
               /\ text <> EmptyString
               /\ forall x, In x picked ->
                            forall t, outcome (env x) = Resolved (Some t) ->
                                      t = EmptyString).
  { intros ps1 le1 here Hs Hkey.
    destruct (IH ps1 _ le1 text Hs)
      as [before [k [later [picked [-> [Ha [Hsub [Ho [Hne Hp]]]]]]]]].
    destruct here.
    - exists (key :: before), k, later, (key :: picked).
      split; [reflexivity|]. split.
      + rewrite Ha, <- app_assoc. reflexivity.
      + split; [apply sub_keep; exact Hsub|]. split; [exact Ho|].
        split; [exact Hne|].
        intros x [<-|Hx]; [apply Hkey; reflexivity | apply Hp; exact Hx].
    - exists (key :: before), k, later, picked.
      split; [reflexivity|]. split; [exact Ha|].
      split; [apply sub_drop; exact Hsub|]. auto. }
  unfold turn.
  destruct (beginTurn (now (env key)) key ps) as [ps1|].
  - unfold endTurn. destruct (outcome (env key)) as [[t0|]|e] eqn:Hout.
    + destruct t0 as [|a t0']; simpl.
      * intros Hs. apply (Hnext ps1 lastError true Hs).
        intros _ t Ht. congruence.
      * intros Hs. injection Hs as <-.
        exists [], key, rest, []. simpl.
        split; [reflexivity|]. split; [reflexivity|].
        split; [constructor|]. split; [exact Hout|].
        split; [discriminate|]. intros x [].
    + intros Hs. apply (Hnext ps1 lastError true Hs).
      intros _ t Ht. discriminate Ht.
    + intros Hs. apply (Hnext _ (Some e) true Hs).
      intros _ t Ht. discriminate Ht.
  - intros Hs. apply (Hnext ps lastError false Hs). intros H. discriminate H.
Qed.

End FallbackProps.


(** ** More on the hash-based embedding *)

Module EmbeddingProps.

Import Js AI Spec.

Lemma sum_of_squares_zero n :
  fold_left (fun sum v => (sum + v * v)%float) (repeat 0%float n) 0%float
  = 0%float.
Proof.
  induction n as [|n IH]; simpl; [reflexivity|].
  change (0 + 0 * 0)%float with 0%float. exact IH.
Qed.

Lemma blank_normalises_to_empty text :
  isBlank text = true -> trim (toLowerCase text) = EmptyString.
Proof.
  unfold isBlank. rewrite TextProps.trim_toLowerCase.
  destruct (trim text); [reflexivity | discriminate].
Qed.

(** X13: [simpleHashEmbedding] always returns [dims] coordinates; for an
    empty or blank text it returns the all-zero vector, the magnitude test
    keeping it from dividing by zero; and it gives a text and its lower-cased,
    trimmed form the same vector. *)
Theorem simpleHashEmbedding_shape (text : string) (dims : nat) :
  List.length (simpleHashEmbedding text dims) = dims
  /\ (isBlank text = true ->
      simpleHashEmbedding text dims = repeat 0%float dims)
  /\ simpleHashEmbedding (trim (toLowerCase text)) dims
     = simpleHashEmbedding text dims.
Proof.
  split; [|split].
  - unfold simpleHashEmbedding.
    destruct (_ <? _)%float;
      rewrite ?length_map, EmbeddingFacts.accumulate_length;
      apply repeat_length.
  - intros Hblank. unfold simpleHashEmbedding.
    rewrite (blank_normalises_to_empty text Hblank). simpl accumulate.
    rewrite sum_of_squares_zero. reflexivity.
  - unfold simpleHashEmbedding. rewrite TextProps.normalise_idempotent.
    reflexivity.
Qed.

Lemma simpleHashEmbedding_witness :
  isBlank "   " = true
  /\ simpleHashEmbedding "   " 4 = [0; 0; 0; 0]%float
  /\ simpleHashEmbedding "  XSS " 4 = simpleHashEmbedding "xss" 4.
Proof.
  destruct (simpleHashEmbedding_shape "   " 4) as [_ [Hzero _]].
  destruct (simpleHashEmbedding_shape "  XSS " 4) as [_ [_ Hnorm]].
  split; [reflexivity|]. split; [exact (Hzero eq_refl) | exact (eq_sym Hnorm)].
Defined.

End EmbeddingProps.

(** ** More on the output parser *)

Module ParserProps.

Import Js Parser Spec.

(** *** Substrings *)

Lemma startsWith_app s t needle :
  startsWith s needle = true -> startsWith (s ++ t) needle = true.
Proof.
  revert s. induction needle as [|b needle IH]; intros s; simpl.
  - destruct (s ++ t)%string; reflexivity.
  - destruct s as [|a s]; simpl; [discriminate|].
    intros H. apply andb_true_iff in H. destruct H as [Hab Hrest].
    rewrite Hab. simpl. apply IH. exact Hrest.
Qed.

Lemma startsWith_empty s : startsWith s EmptyString = true.
Proof. destruct s; reflexivity. Qed.

Lemma includes_app_l s t needle :
  includes s needle = true -> includes (s ++ t) needle = true.
Proof.
  induction s as [|a s IH]; simpl.
  - rewrite orb_false_r. intros H.
    destruct needle; [|discriminate H].
    destruct t; reflexivity.
  - intros H. apply orb_true_iff in H. destruct H as [H|H].
    + pose proof (startsWith_app (String a s) t needle H) as H'.
      simpl in H'. rewrite H'. reflexivity.
    + rewrite (IH H). apply orb_true_r.
Qed.

Lemma includes_app_r s t needle :
  includes t needle = true -> includes (s ++ t) needle = true.
Proof.
  intros H. induction s as [|a s IH]; simpl; [exact H|].
  rewrite IH. apply orb_true_r.
Qed.

Lemma trimStart_suffix s : exists u, s = (u ++ trimStart s)%string.
Proof.
  induction s as [|a s [u IH]]; simpl.
  - exists EmptyString. reflexivity.
  - destruct (isWhitespace a).
    + exists (String a u). simpl. rewrite <- IH. reflexivity.
    + exists EmptyString. reflexivity.
Qed.

Lemma trimEnd_prefix s : exists u, s = (trimEnd s ++ u)%string.
Proof.
  unfold trimEnd. destruct (trimStart_suffix (reverse s)) as [u Hu].
  exists (reverse u).
  rewrite <- TextProps.reverse_app, <- Hu, TextProps.reverse_involutive.
  reflexivity.
Qed.

(** Trimming cannot create an occurrence of a substring. *)
Lemma includes_trim s needle :
  includes (trim s) needle = true -> includes s needle = true.
Proof.
  unfold trim. intros H.
  destruct (trimEnd_prefix (trimStart s)) as [u Hu].
  destruct (trimStart_suffix s) as [v Hv].
  rewrite Hv. apply includes_app_r. rewrite Hu. apply includes_app_l. exact H.
Qed.

(** *** Blank lines *)

Lemma collapseFrom_runs text run :
  runsWithinTwo (collapseFrom text run) (Nat.min run 2) = true.
Proof.
  revert run. induction text as [|a text IH]; intros run;
    cbn [collapseFrom]; [reflexivity|].
  destruct (Ascii.eqb a lf) eqn:Ha.
  - destruct (2 <=? run)%nat eqn:Hrun.
    + apply Nat.leb_le in Hrun.
      replace (Nat.min run 2) with (Nat.min (S run) 2) by lia. apply IH.
    + apply Nat.leb_gt in Hrun. cbn [runsWithinTwo]. rewrite Ha.
      replace (S (Nat.min run 2)) with (Nat.min (S run) 2) by lia.
      rewrite IH, andb_true_r. apply Nat.leb_le. lia.
  - cbn [runsWithinTwo]. rewrite Ha. apply (IH 0%nat).
Qed.

Lemma runsWithinTwo_no_triple text run :
  runsWithinTwo text run = true -> includes text tripleLf = false.
Proof.
  revert run. induction text as [|a text IH]; intros run H; [reflexivity|].
  cbn [includes]. apply orb_false_iff. split.
  - unfold tripleLf. cbn [startsWith]. cbn [runsWithinTwo] in H.
    destruct (Ascii.eqb a lf); [|reflexivity]. cbn [andb].
    apply andb_true_iff in H. destruct H as [_ H].
    destruct text as [|b text]; [reflexivity|].
    cbn [startsWith]. cbn [runsWithinTwo] in H.
    destruct (Ascii.eqb b lf); [|reflexivity]. cbn [andb].
    apply andb_true_iff in H. destruct H as [_ H].
    destruct text as [|c text]; [reflexivity|].
    cbn [startsWith]. cbn [runsWithinTwo] in H.
    destruct (Ascii.eqb c lf); [|reflexivity].
    apply andb_true_iff in H. destruct H as [H _].
    apply Nat.leb_le in H. lia.
  - cbn [runsWithinTwo] in H. destruct (Ascii.eqb a lf).
    + apply andb_true_iff in H. destruct H as [_ H]. exact (IH _ H).
    + exact (IH _ H).
Qed.

Lemma collapseBlankLines_no_triple text :
  includes (collapseBlankLines text) tripleLf = false.
Proof.
  apply (runsWithinTwo_no_triple _ 0). exact (collapseFrom_runs text 0).
Qed.

(** X14.  Whatever the text and whatever the wrapper match, the string
    path of [sanitizeAnswer] returns a text without three line feeds in a
    row and without white space at either end; sanitising it again with no
    wrapper and no backslash left changes nothing of that: the result is
    its own trim. *)
Theorem sanitizeText_is_tidy (rt : Runtime) (field text : string) :
  includes (sanitizeText rt field text) tripleLf = false
  /\ trim (sanitizeText rt field text) = sanitizeText rt field text.
Proof.
  unfold sanitizeText. split.
  - match goal with
    | |- includes (trim ?t) _ = false =>
        destruct (includes (trim t) tripleLf) eqn:Hin; [|reflexivity];
        apply includes_trim in Hin;
        rewrite collapseBlankLines_no_triple in Hin; discriminate Hin
    end.
  - apply TextProps.trim_idempotent.
Qed.

(** *** The first attempt *)

Lemma assoc_assign_same key x fields :
  assoc key (assign key x fields) = Some x.
Proof.
  induction fields as [|[k v] fields IH]; simpl.
  - rewrite String.eqb_refl. reflexivity.
  - destruct (String.eqb k key) eqn:Hk; simpl; rewrite Hk; auto.
Qed.

Lemma assoc_assign_other key key' x fields :
  key' <> key -> assoc key' (assign key x fields) = assoc key' fields.
Proof.
  intros Hne. induction fields as [|[k v] fields IH]; simpl.
  - destruct (String.eqb key key') eqn:Hk; [|reflexivity].
    apply String.eqb_eq in Hk. congruence.
  - destruct (String.eqb k key) eqn:Hk; simpl.
    + apply String.eqb_eq in Hk. subst k.
      destruct (String.eqb key key') eqn:Hk'; [|reflexivity].
      apply String.eqb_eq in Hk'. congruence.
    + rewrite IH. reflexivity.
Qed.

(** X15.  When [JSON.parse] accepts the cleaned output as an object whose
    answer is a non-empty string, [parseJSON] returns that object with the
    answer sanitised and every other field as the model wrote it. *)
Theorem parseJSON_keeps_parsed_fields
    (rt : Runtime) (raw text : string) (fields : list (string * JsValue))
    (Hparse : JSON_parse rt (clean rt raw) = Fulfilled (JObj fields))
    (Hanswer : assoc "answer" fields = Some (JStr text))
    (Hfilled : text <> EmptyString) :
  exists fields',
    parseJSON rt raw = Fulfilled (JObj fields')
    /\ assoc "answer" fields' = Some (JStr (sanitizeText rt "answer" text))
    /\ forall key, key <> "answer"%string -> assoc key fields' = assoc key fields.
Proof.
  exists (assign "answer" (JStr (sanitizeText rt "answer" text)) fields).
  split; [|split].
  - unfold parseJSON, attempt1. rewrite Hparse.
    unfold sanitizeParsed. cbn [bind getField]. rewrite Hanswer.
    assert (Ht : truthy (Some (JStr text)) = true).
    { destruct text; [contradiction Hfilled; reflexivity | reflexivity]. }
    rewrite Ht. reflexivity.
  - apply assoc_assign_same.
  - intros key Hkey. apply assoc_assign_other. exact Hkey.
Qed.

Lemma parseJSON_keeps_parsed_fields_witness :
  exists fields',
    parseJSON cannedRuntime "{}" = Fulfilled (JObj fields')
    /\ assoc "answer" fields'
       = Some (JStr (sanitizeText cannedRuntime "answer" "  XSS is\nscripting  "))
    /\ forall key, key <> "answer"%string ->
         assoc key fields' = assoc key modelAnswer.
Proof.
  apply (parseJSON_keeps_parsed_fields cannedRuntime "{}"
           "  XSS is\nscripting  " modelAnswer).
  - reflexivity.
  - reflexivity.
  - discriminate.
Defined.

(** *** The answer of every result *)

Lemma sanitizeParsed_answer rt parsed parsed' b :
  sanitizeParsed rt parsed = Fulfilled (parsed', b) ->
  (b = true \/ parsed' = parsed /\ forall a,
       getField parsed "answer" = Fulfilled (Some a) -> truthy (Some a) = false)
  /\ (b = true -> answerIsText parsed').
Proof.
  unfold sanitizeParsed. intros H.
  destruct (getField parsed "answer") as [a|] eqn:Hget; [|discriminate H].
  cbn [bind] in H. destruct (truthy a) eqn:Ht.
  - destruct a as [v|]; [|discriminate Ht].
    destruct (sanitizeAnswer rt v "answer") as [t|]; [|discriminate H].
    cbn [bind] in H.
    destruct parsed as [| | | |items|fields]; cbn [setField bind] in H;
      try discriminate H.
    + (* an array: the assignment is lost, but an array has no answer *)
      discriminate Hget.
    + injection H as <- <-. split; [left; reflexivity|].
      intros _ a Ha _. cbn [getField] in Ha.
      rewrite assoc_assign_same in Ha. injection Ha as <-. eauto.
  - injection H as <- <-. split; [|discriminate].
    right. split; [reflexivity|]. intros a' Ha'. congruence.
Qed.

Lemma answerObject_answer answer followups takeaways :
  answerIsText (answerObject answer followups takeaways).
Proof. intros a Ha _. injection Ha as <-. eauto. Qed.

Lemma parseWithAnswer_answer rt text v :
  parseWithAnswer rt text = Fulfilled (Some v) -> answerIsText v.
Proof.
  unfold parseWithAnswer. intros H.
  destruct (JSON_parse rt text) as [parsed|]; [|discriminate H].
  cbn [bind] in H.
  destruct (sanitizeParsed rt parsed) as [[parsed' b]|] eqn:Hs; [|discriminate H].
  cbn [bind fst snd] in H. destruct b; [|discriminate H].
  injection H as <-. apply (sanitizeParsed_answer _ _ _ _ Hs). reflexivity.
Qed.

Lemma sanitizeAnswer_string_resolves rt s field :
  sanitizeAnswer rt (JStr s) field = Fulfilled (sanitizeText rt field s).
Proof. reflexivity. Qed.

(** The attempts after the first only return an object with a text answer. *)
Lemma rest_answer rt cleaned v :
  orElse (attempt2 rt cleaned)
    (orElse (attempt3 rt cleaned)
       (orElse (attempt4 rt cleaned) (fallback rt cleaned))) = Fulfilled v ->
  answerIsText v.
Proof.
  intros H.
  destruct (attempt2 rt cleaned) as [[v2|]|] eqn:H2.
  { cbn [orElse] in H. injection H as <-. unfold attempt2 in H2.
    destruct (braceSpan cleaned); [|discriminate H2].
    exact (parseWithAnswer_answer _ _ _ H2). }
  all: cbn [orElse] in H.
  all: destruct (attempt3 rt cleaned) as [[v3|]|] eqn:H3.
  all: try (cbn [orElse] in H; injection H as <-; unfold attempt3 in H3;
            destruct (fromFirstLine _ _); [|discriminate H3];
            exact (parseWithAnswer_answer _ _ _ H3)).
  all: cbn [orElse] in H.
  all: unfold attempt4, fallback in H.
  all: destruct (answerField rt cleaned);
    rewrite ?sanitizeAnswer_string_resolves in H; cbn [bind orElse] in H;
    injection H as <-; apply answerObject_answer.
Qed.

(** X16.  Whichever attempt produced it, a result of [parseJSON] never
    carries a truthy answer that is not a string: an answer the model
    wrote as an object, an array or a number has been turned into text. *)
Theorem parseJSON_answer_is_text (rt : Runtime) (raw : string)
    (v a : JsValue)
    (Hresult : parseJSON rt raw = Fulfilled v)
    (Hfield : getField v "answer" = Fulfilled (Some a))
    (Htruthy : truthy (Some a) = true) :
  exists s, a = JStr s.
Proof.
  revert a Hfield Htruthy. change (answerIsText v).
  unfold parseJSON in Hresult. set (cleaned := clean rt raw) in *.
  destruct (attempt1 rt cleaned) as [[v1|]|] eqn:H1.
  - cbn [orElse] in Hresult. injection Hresult as <-.
    unfold attempt1 in H1.
    destruct (JSON_parse rt cleaned) as [parsed|]; [|discriminate H1].
    cbn [bind] in H1.
    destruct (sanitizeParsed rt parsed) as [[parsed' b]|] eqn:Hs;
      [|discriminate H1].
    cbn [bind fst] in H1. injection H1 as <-.
    destruct (sanitizeParsed_answer _ _ _ _ Hs) as [[Hb | [-> Hfalsy]] Htext].
    + exact (Htext Hb).
    + intros a Ha Ht. rewrite (Hfalsy a Ha) in Ht. discriminate Ht.
  - cbn [orElse] in Hresult. apply (rest_answer rt cleaned v Hresult).
  - cbn [orElse] in Hresult. apply (rest_answer rt cleaned v Hresult).
Qed.

Lemma parseJSON_answer_is_text_witness :
  exists s,
    JStr (sanitizeText cannedRuntime "answer" "  XSS is\nscripting  ") = JStr s.
Proof.
  apply (parseJSON_answer_is_text cannedRuntime "{}"
           (JObj (assign "answer"
                    (JStr (sanitizeText cannedRuntime "answer"
                             "  XSS is\nscripting  "))
                    modelAnswer))).
  - reflexivity.
  - reflexivity.
  - reflexivity.
Defined.

End ParserProps.

(** ** The embed limits *)

Module FormatterProps.

Import Js Formatters.

Lemma length_append s t :
  String.length (s ++ t) = (String.length s + String.length t)%nat.
Proof. induction s as [|a s IH]; simpl; [reflexivity | rewrite IH; reflexivity]. Qed.

Lemma length_substring0 n s :
  String.length (substring 0 n s) = Nat.min n (String.length s).
Proof.
  revert n. induction s as [|a s IH]; intros [|n]; simpl; try reflexivity.
  rewrite IH. reflexivity.
Qed.

Lemma startsWith_substring0 n s : startsWith s (substring 0 n s) = true.
Proof.
  revert n. induction s as [|a s IH]; intros [|n]; simpl; try reflexivity.
  rewrite Ascii.eqb_refl, IH. reflexivity.
Qed.

Lemma sliceToZ_prefix end_ text : startsWith text (sliceToZ end_ text) = true.
Proof.
  unfold sliceToZ. destruct (end_ <? 0)%Z; apply startsWith_substring0.
Qed.

Lemma length_sliceToZ end_ text :
  Z.of_nat (String.length (sliceToZ end_ text))
  = Z.max 0 (if (end_ <? 0)%Z
             then Z.of_nat (String.length text) + end_
             else Z.min end_ (Z.of_nat (String.length text))).
Proof.
  unfold sliceToZ. destruct (end_ <? 0)%Z eqn:Hneg;
    rewrite length_substring0; [apply Z.ltb_lt in Hneg | apply Z.ltb_ge in Hneg];
    lia.
Qed.

(** X17.  [truncate] returns a text that fits the limit exactly when the
    limit is at least three or the text fitted already: a text within the
    limit comes back unchanged, a longer one is cut to a prefix followed by
    three dots that is as long as the limit, and under a limit below three
    the result is longer than the limit. *)
Theorem truncate_fits_the_limit (text : string) (maxLength : Z) :
  (Z.of_nat (String.length (truncate text maxLength)) <= maxLength
   <-> 3 <= maxLength \/ Z.of_nat (String.length text) <= maxLength)%Z
  /\ ((Z.of_nat (String.length text) <= maxLength)%Z ->
      truncate text maxLength = text)
  /\ ((maxLength < Z.of_nat (String.length text))%Z ->
      exists kept,
        truncate text maxLength = (kept ++ "...")%string
        /\ startsWith text kept = true
        /\ ((3 <= maxLength)%Z ->
            Z.of_nat (String.length (truncate text maxLength)) = maxLength)).
Proof.
  unfold truncate.
  destruct (Z.of_nat (String.length text) <=? maxLength)%Z eqn:Hfit.
  - apply Z.leb_le in Hfit. split; [|split].
    + split; [right; exact Hfit | intros _; exact Hfit].
    + reflexivity.
    + intros Hlong. lia.
  - apply Z.leb_gt in Hfit.
    assert (Hlen : Z.of_nat (String.length
                               (sliceToZ (maxLength - 3) text ++ "..."))
                   = (Z.of_nat (String.length
                                  (sliceToZ (maxLength - 3) text)) + 3)%Z).
    { rewrite length_append. simpl String.length. lia. }
    pose proof (length_sliceToZ (maxLength - 3) text) as Hkept.
    split; [|split].
    + rewrite Hlen, Hkept.
      destruct (maxLength - 3 <? 0)%Z eqn:Hneg;
        [apply Z.ltb_lt in Hneg | apply Z.ltb_ge in Hneg]; lia.
    + intros Hshort. lia.
    + intros _. exists (sliceToZ (maxLength - 3) text).
      split; [reflexivity|]. split; [apply sliceToZ_prefix|].
      intros Hthree. rewrite Hlen, Hkept.
      destruct (maxLength - 3 <? 0)%Z eqn:Hneg;
        [apply Z.ltb_lt in Hneg | apply Z.ltb_ge in Hneg]; lia.
Qed.

Lemma truncate_witness :
  truncate "short" 10 = "short"%string
  /\ (exists kept,
        truncate "a long description" 10 = (kept ++ "...")%string
        /\ startsWith "a long description" kept = true
        /\ Z.of_nat (String.length (truncate "a long description" 10)) = 10%Z)
  /\ ~ (Z.of_nat (String.length (truncate "abcdef" 2)) <= 2)%Z.
Proof.
  destruct (truncate_fits_the_limit "short" 10) as [_ [Hsame _]].
  destruct (truncate_fits_the_limit "a long description" 10) as [_ [_ Hcut]].
  destruct (truncate_fits_the_limit "abcdef" 2) as [Hiff _].
  split; [apply Hsame; simpl; lia|].
  split.
  - destruct Hcut as [kept [Heq [Hpre Hlen]]]; [simpl; lia|].
    exists kept. split; [exact Heq|]. split; [exact Hpre|]. apply Hlen. lia.
  - intros Hfit. apply Hiff in Hfit. simpl in Hfit. lia.
Defined.

End FormatterProps.

(** ** More on the retrieval module *)

Module RagProps.

Import Js Parser Rag Spec.

Lemma citeAll_cited cs xs :
  citeAll cs = Fulfilled xs ->
  List.length xs = List.length cs
  /\ Forall (fun x => exists c, In c cs /\ relevance x = similarity c
                                /\ (String.length (text x) <= 153)%nat) xs.
Proof.
  revert xs. induction cs as [|c cs IH]; intros xs H; cbn [citeAll] in H.
  - injection H as <-. split; [reflexivity | constructor].
  - unfold cite in H. destruct (metadata c) as [m|]; [|discriminate H].
    destruct (content c) as [body|]; [|discriminate H].
    cbn [bind] in H. destruct (citeAll cs) as [ys|]; [|discriminate H].
    cbn [bind] in H. injection H as <-.
    destruct (IH ys eq_refl) as [Hlen Hall]. split.
    + cbn [List.length]. rewrite Hlen. reflexivity.
    + constructor.
      * exists c. split; [left; reflexivity|]. split; [reflexivity|].
        cbn [text]. unfold sliceTo.
        rewrite FormatterProps.length_append,
                FormatterProps.length_substring0.
        cbn [String.length]. lia.
      * eapply Forall_impl; [|exact Hall].
        intros x [c' [Hin H']]. exists c'. split; [right; exact Hin | exact H'].
Qed.

(** What a grounded result was made from. *)
Lemma ragPipeline_anatomy e query topK lvl history st r st' :
  ragPipeline e query topK lvl history st = (Fulfilled (Some r), st') ->
  exists boosted,
    relevantChunks (rerankTop e) boosted <> []
    /\ citeAll (relevantChunks (rerankTop e) boosted) = Fulfilled (sources r)
    /\ confidence r = groundedConfidence (relevantChunks (rerankTop e) boosted)
    /\ lastConfidence st' = confidence r
    /\ cache st' = cache st.
Proof.
  unfold ragPipeline.
  destruct (AI.generateEmbedding _ _ _) as [v|err]; [|discriminate].
  destruct (queryDocuments e v topK) as [results|err]; [|discriminate].
  destruct (ids results) as [|i0 is0]; [discriminate|].
  destruct (boostAll _ _) as [boosted|err]; [|discriminate].
  destruct (relevantChunks (rerankTop e) boosted) as [|c0 cs0] eqn:Hrel;
    [discriminate|].
  destruct (chunksWithIds (c0 :: cs0)) as [context|err]; [|discriminate].
  unfold generate.
  destruct (generateCompletion e _) as [raw|err]; [|discriminate].
  unfold groundedResult.
  destruct (parseJSON (rt e) raw) as [parsed|err]; [|discriminate].
  destruct (citeAll (c0 :: cs0)) as [citations|err] eqn:Hcite; [|discriminate].
  destruct (getField parsed "answer") as [a|]; cbn [bind]; [|discriminate].
  destruct (getField parsed "suggestedFollowups") as [f|]; cbn [bind];
    [|discriminate].
  destruct (getField parsed "keyTakeaways") as [k|]; cbn [bind];
    [|discriminate].
  intros H. injection H as <- <-. exists boosted. rewrite Hrel.
  split; [discriminate|]. split; [exact Hcite|]. repeat split.
Qed.

(** X18.  A grounded answer cites between one and [rerankTop] chunks;
    every citation has a relevance of at least the similarity threshold
    and a text of at most 153 characters; the confidence it reports is the
    one left in [lastConfidence], and the response cache is untouched. *)
Theorem grounded_answer_cites_its_context
    (e : Env) (query : string) (topK : nat) (lvl : Level)
    (history : option (list InteractionRecord)) (st st' : State)
    (r : RAGResult)
    (Hgrounded : ragPipeline e query topK lvl history st
                 = (Fulfilled (Some r), st')) :
  (1 <= List.length (sources r) <= rerankTop e)%nat
  /\ Forall (fun x => (SIMILARITY_THRESHOLD <=? relevance x)%float = true
                      /\ (String.length (text x) <= 153)%nat) (sources r)
  /\ lastConfidence st' = confidence r
  /\ cache st' = cache st.
Proof.
  destruct (ragPipeline_anatomy e query topK lvl history st r st' Hgrounded)
    as [boosted [Hsome [Hcite [_ [Hlast Hcache]]]]].
  destruct (citeAll_cited _ _ Hcite) as [Hlen Hall].
  split; [|split; [|split; [exact Hlast | exact Hcache]]].
  - rewrite Hlen. split.
    + destruct (relevantChunks (rerankTop e) boosted);
        [contradiction Hsome; reflexivity | cbn [List.length]; lia].
    + unfold relevantChunks. apply firstn_le_length.
  - eapply Forall_impl; [|exact Hall].
    intros x [c [Hin [Hrel Htext]]]. split; [|exact Htext].
    rewrite Hrel.
    pose proof (RagFacts.relevantChunks_usable (rerankTop e) boosted) as Hus.
    rewrite Forall_forall in Hus. exact (Hus c Hin).
Qed.

Lemma grounded_answer_witness :
  groundedRun = (Fulfilled (Some groundedAnswer), snd groundedRun)
  /\ List.length (sources groundedAnswer) = 2%nat
  /\ Forall (fun x => (SIMILARITY_THRESHOLD <=? relevance x)%float = true
                      /\ (String.length (text x) <= 153)%nat)
            (sources groundedAnswer)
  /\ lastConfidence (snd groundedRun) = confidence groundedAnswer.
Proof.
  assert (H : groundedRun = (Fulfilled (Some groundedAnswer), snd groundedRun))
    by (vm_compute; reflexivity).
  destruct (grounded_answer_cites_its_context (sampleEnv closeNeighbors)
              "what is xss" 10 beginner None freshState (snd groundedRun)
              groundedAnswer H) as [_ [Hall [Hlast _]]].
  split; [exact H|]. split; [vm_compute; reflexivity|].
  split; [exact Hall | exact Hlast].
Defined.

(** *** The prompts of one request *)

Lemma ragPipeline_sent e query topK lvl history st :
  sent (snd (ragPipeline e query topK lvl history st)) = sent st
  \/ exists context,
       sent (snd (ragPipeline e query topK lvl history st))
       = sent st ++ [RAG_ANSWER_PROMPT query lvl context
                                       (formatHistory history)].
Proof.
  unfold ragPipeline.
  destruct (AI.generateEmbedding _ _ _) as [v|err]; [|left; reflexivity].
  destruct (queryDocuments e v topK) as [results|err]; [|left; reflexivity].
  destruct (ids results) as [|i0 is0]; [left; reflexivity|].
  destruct (boostAll _ _) as [boosted|err]; [|left; reflexivity].
  destruct (relevantChunks (rerankTop e) boosted) as [|c0 cs0];
    [left; reflexivity|].
  destruct (chunksWithIds (c0 :: cs0)) as [context|err]; [|left; reflexivity].
  right. exists context. unfold generate.
  destruct (generateCompletion e _) as [raw|err]; [|reflexivity].
  unfold groundedResult.
  destruct (parseJSON (rt e) raw) as [parsed|err]; [|reflexivity].
  destruct (citeAll (c0 :: cs0)) as [citations|err]; reflexivity.
Qed.

Lemma findRelated_sent e concept lvl st :
  sent (snd (findRelated e concept lvl st)) = sent st
  \/ sent (snd (findRelated e concept lvl st))
     = sent st ++ [RELATED_PROMPT concept lvl].
Proof.
  unfold findRelated.
  pose proof (RagFacts.cachedOrGenerated_sent e
                (Cache.makeCacheKey "related" concept (levelName lvl))
                (RELATED_PROMPT concept lvl) st) as Hsent.
  destruct (cachedOrGenerated e _ _ st) as [[raw|err] st1];
    cbn [snd] in *; [|exact Hsent].
  destruct (parseJSON (rt e) raw) as [parsed|err]; exact Hsent.
Qed.

(** X19.  One request hands at most two prompts to the model, all of them
    for the question, the level and the history of that request: a
    [related] request at most its own prompt; an [ask] request at most
    the grounded prompt followed by the LLM-only prompt. *)
Theorem request_sends_at_most_two_prompts
    (e : Env) (action : ActionKind) (query : string) (topK : nat)
    (lvl : Level) (history : option (list InteractionRecord)) (st : State) :
  let out := handle e action query topK lvl history st in
  let llmOnly := LLM_ANSWER_PROMPT query lvl (formatHistory history) in
  match action with
  | related =>
      sent (snd out) = sent st
      \/ sent (snd out) = sent st ++ [RELATED_PROMPT query lvl]
  | ask =>
      sent (snd out) = sent st
      \/ sent (snd out) = sent st ++ [llmOnly]
      \/ exists context,
           let grounded :=
             RAG_ANSWER_PROMPT query lvl context (formatHistory history) in
           sent (snd out) = sent st ++ [grounded]
           \/ sent (snd out) = sent st ++ [grounded; llmOnly]
  end.
Proof.
  intros out llmOnly. destruct action.
  - subst out. unfold handle.
    pose proof (ragPipeline_sent e query topK lvl history st) as Hrag.
    destruct (ragPipeline e query topK lvl history st) as [[[r|]|err] st1];
      cbn [snd] in Hrag.
    + cbn [snd]. destruct Hrag as [H | [context H]];
        [left; exact H | right; right; exists context; left; exact H].
    + destruct (RagFacts.llmOnlyAnswer_ungrounded e query lvl history st1)
        as [_ Hllm].
      cbv zeta in Hllm. destruct Hrag as [H | [context H]]; rewrite H in Hllm.
      * destruct Hllm as [H' | H']; [left | right; left]; exact H'.
      * right; right. exists context.
        destruct Hllm as [H' | H']; [left; exact H'|].
        right. rewrite H', <- app_assoc. reflexivity.
    + destruct (RagFacts.llmOnlyAnswer_ungrounded e query lvl history st1)
        as [_ Hllm].
      cbv zeta in Hllm. destruct Hrag as [H | [context H]]; rewrite H in Hllm.
      * destruct Hllm as [H' | H']; [left | right; left]; exact H'.
      * right; right. exists context.
        destruct Hllm as [H' | H']; [left; exact H'|].
        right. rewrite H', <- app_assoc. reflexivity.
  - subst out. apply findRelated_sent.
Qed.

(** *** The response cache across requests *)

(** X20.  When the LLM-only path missed the cache and obtained a non-empty
    completion, the same question at the same level asked again before the
    entry expires gets the same result without any prompt being sent,
    whatever the history then is and whatever the model would answer. *)
Theorem repeated_question_is_served_from_cache
    (e e' : Env) (query : string) (lvl : Level)
    (history history' : option (list InteractionRecord)) (st : State)
    (raw : string)
    (Hmiss : fst (Cache.getCached (readAt e)
                    (Cache.makeCacheKey "ask" query (levelName lvl))
                    (cache st)) = None)
    (Hgen : generateCompletion e
              (LLM_ANSWER_PROMPT query lvl (formatHistory history))
            = Fulfilled raw)
    (Hraw : Js.truthy raw = true)
    (Hfresh : (readAt e' <= writeAt e + Cache.DEFAULT_TTL_MS)%Z)
    (Hrt : rt e' = rt e)
    (Hlabs : labsSection e' = labsSection e)
    (Hcourses : coursesSection e' = coursesSection e) :
  let first := llmOnlyAnswer e query lvl history st in
  let second := llmOnlyAnswer e' query lvl history' (snd first) in
  sent (snd first)
  = sent st ++ [LLM_ANSWER_PROMPT query lvl (formatHistory history)]
  /\ fst second = fst first
  /\ sent (snd second) = sent (snd first).
Proof.
  intros first second.
  assert (Hfirst : exists store,
             first
             = (match parseJSON (rt e) raw with
                | RejectedWith err => RejectedWith err
                | Fulfilled parsed =>
                    bind (getField parsed "answer") (fun a =>
                    bind (getField parsed "suggestedFollowups") (fun f =>
                    bind (getField parsed "keyTakeaways") (fun k =>
                      Fulfilled
                        {| answer := enrich e (orDefault a (JStr raw)) query lvl;
                           sources := [];
                           confidence := LLM_ONLY_CONFIDENCE;
                           suggestedFollowups := orDefault f (JArr []);
                           keyTakeaways := Some (orDefault k (JArr [])) |})))
                end,
                {| cache := Cache.setCache (writeAt e)
                              (Cache.makeCacheKey "ask" query (levelName lvl))
                              raw Cache.DEFAULT_TTL_MS store;
                   lastConfidence :=
                     match parseJSON (rt e) raw with
                     | RejectedWith _ => lastConfidence st
                     | Fulfilled _ => LLM_ONLY_CONFIDENCE
                     end;
                   sent := sent st ++ [LLM_ANSWER_PROMPT query lvl
                                         (formatHistory history)] |})).
  { subst first. unfold llmOnlyAnswer, cachedOrGenerated.
    destruct (Cache.getCached (readAt e) _ (cache st)) as [hit store1].
    cbn [fst] in Hmiss. subst hit. exists store1.
    unfold generate. rewrite Hgen. cbn [setCacheStore cache sent lastConfidence].
    destruct (parseJSON (rt e) raw) as [parsed|err]; reflexivity. }
  destruct Hfirst as [store Hfirst].
  split; [rewrite Hfirst; reflexivity|].
  subst second. rewrite Hfirst. cbn [fst snd].
  unfold llmOnlyAnswer, cachedOrGenerated. cbn [cache].
  unfold Cache.getCached, Cache.setCache.
  rewrite CacheProps.map_get_set_same. cbn [Cache.expiresAt Cache.value].
  assert (Hlive : (writeAt e + Cache.DEFAULT_TTL_MS <? readAt e')%Z = false)
    by (apply Z.ltb_ge; exact Hfresh).
  rewrite Hlive, Hraw, Hrt.
  unfold enrich, append. rewrite Hlabs, Hcourses, Hrt.
  destruct (parseJSON (rt e) raw) as [parsed|err];
    cbn [setCacheStore setLastConfidence cache sent lastConfidence fst snd];
    split; reflexivity.
Qed.

Lemma repeated_question_witness :
  let first := llmOnlyAnswer (sampleEnv distantNeighbor) "what is xss"
                             beginner None freshState in
  fst (llmOnlyAnswer laterEnv "what is xss" beginner None (snd first))
  = fst first
  /\ sent (snd (llmOnlyAnswer laterEnv "what is xss" beginner None (snd first)))
     = sent (snd first).
Proof.
  destruct (repeated_question_is_served_from_cache
              (sampleEnv distantNeighbor) laterEnv "what is xss" beginner
              None None freshState "Cross-site scripting is ..."%string)
    as [_ H].
  - reflexivity.
  - reflexivity.
  - reflexivity.
  - vm_compute. discriminate.
  - reflexivity.
  - reflexivity.
  - reflexivity.
  - exact H.
Defined.

End RagProps.

(** ** The orchestrator *)

Module OrchestratorProps.

Import Js Parser Rag Orchestrator Spec.

Lemma cachedOrGenerated_lastConfidence e key p st :
  lastConfidence (snd (cachedOrGenerated e key p st)) = lastConfidence st.
Proof.
  unfold cachedOrGenerated, generate.
  destruct (Cache.getCached (readAt e) key (cache st)) as [[hit|] store1].
  - destruct (Js.truthy hit); [reflexivity|].
    destruct (generateCompletion e p); reflexivity.
  - destruct (generateCompletion e p); reflexivity.
Qed.

Lemma llmOnlyAnswer_lastConfidence e query lvl history st r st' :
  llmOnlyAnswer e query lvl history st = (Fulfilled r, st') ->
  lastConfidence st' = confidence r /\ sources r = []
  /\ confidence r = LLM_ONLY_CONFIDENCE.
Proof.
  unfold llmOnlyAnswer.
  destruct (cachedOrGenerated e _ _ st) as [[raw|err] st1]; [|discriminate].
  destruct (parseJSON (rt e) raw) as [parsed|err]; [|discriminate].
  destruct (getField parsed "answer") as [a|]; cbn [bind]; [|discriminate].
  destruct (getField parsed "suggestedFollowups") as [f|]; cbn [bind];
    [|discriminate].
  destruct (getField parsed "keyTakeaways") as [k|]; cbn [bind];
    [|discriminate].
  intros H. injection H as <- <-. repeat split.
Qed.

Lemma findRelated_lastConfidence e concept lvl st r st' :
  findRelated e concept lvl st = (Fulfilled r, st') ->
  lastConfidence st' = confidence r.
Proof.
  unfold findRelated.
  destruct (cachedOrGenerated e _ _ st) as [[raw|err] st1]; [|discriminate].
  destruct (parseJSON (rt e) raw) as [parsed|err]; [|discriminate].
  destruct (getField parsed "answer") as [a|]; cbn [bind]; [|discriminate].
  destruct (relatedSuffix e parsed) as [suffix|]; cbn [bind]; [|discriminate].
  destruct (getField parsed "suggestedFollowups") as [f|]; cbn [bind];
    [|discriminate].
  intros H. injection H as <- <-. reflexivity.
Qed.

(** Whichever path answered, [lastConfidence] is the confidence of the
    result just returned. *)
Lemma handle_lastConfidence e action query topK lvl history st r st' :
  handle e action query topK lvl history st = (Fulfilled r, st') ->
  lastConfidence st' = confidence r
  /\ (action = ask -> sources r = [] -> confidence r = LLM_ONLY_CONFIDENCE).
Proof.
  unfold handle. destruct action.
  - destruct (ragPipeline e query topK lvl history st)
      as [[[r0|]|err] st1] eqn:Hrag.
    + intros H. injection H as <- <-.
      destruct (RagProps.ragPipeline_anatomy _ _ _ _ _ _ _ _ Hrag)
        as [boosted [Hsome [Hcite [_ [Hlast _]]]]].
      split; [exact Hlast|]. intros _ Hnone. rewrite Hnone in Hcite.
      destruct (RagProps.citeAll_cited _ _ Hcite) as [Hlen _].
      destruct (relevantChunks (rerankTop e) boosted);
        [contradiction Hsome; reflexivity | discriminate Hlen].
    + intros H. apply llmOnlyAnswer_lastConfidence in H. tauto.
    + intros H. apply llmOnlyAnswer_lastConfidence in H. tauto.
  - intros H. split; [|discriminate].
    exact (findRelated_lastConfidence _ _ _ _ _ _ H).
Qed.

(** X21.  For a request that runs from start to end on its own: the
    response of [execute] reports the confidence of the very result it
    carries, and [handleAsk] stores that confidence with the interaction;
    an answer without sources is stored with confidence 0.5.  When the
    retrieval module fails, the user is shown the apology with confidence
    0.3 while the interaction is stored with confidence 0. *)
Theorem stored_confidence_is_the_answers
    (e : Env) (prefs : option Prefs)
    (memory : option (list InteractionRecord)) (question : string)
    (st : State) :
  let lvl := levelFromPrefs prefs in
  let history := Some (match memory with Some h => h | None => [] end) in
  let response := fst (execute e ask question 10 lvl history st) in
  let result := fst (fst (handleAsk e prefs memory question st)) in
  let stored := snd (fst (handleAsk e prefs memory question st)) in
  match fst (handle e ask question 10 lvl history st) with
  | Fulfilled r =>
      success response = true /\ data response = Some r
      /\ metaConfidence response = confidence r
      /\ result = r
      /\ storedConfidence stored = confidence r
      /\ (sources r = [] -> storedConfidence stored = LLM_ONLY_CONFIDENCE)
  | RejectedWith _ =>
      success response = false /\ data response = None
      /\ result = apology
      /\ confidence result = 0.3%float
      /\ storedConfidence stored = 0%float
  end.
Proof.
  intros lvl history response result stored.
  subst response result stored. unfold handleAsk, execute.
  fold lvl. fold history.
  destruct (handle e ask question 10 lvl history st) as [[r|err] st1] eqn:Hh;
    cbn [fst snd success data metaConfidence storedConfidence].
  - destruct (handle_lastConfidence _ _ _ _ _ _ _ _ _ Hh) as [Hlast Hllm].
    repeat split; try exact Hlast.
    intros Hnone. rewrite Hlast. exact (Hllm eq_refl Hnone).
  - repeat split.
Qed.

End OrchestratorProps.

(** ** The lab registry *)

Module LabsProps.

Import Js Rag Labs Spec.

Lemma In_insertScored x a sorted :
  In x (insertScored a sorted) <-> In x (a :: sorted).
Proof.
  induction sorted as [|b rest IH]; cbn [insertScored]; [tauto|].
  destruct (snd a <? snd b)%nat; [|tauto].
  cbn [In] in *. tauto.
Qed.

Lemma In_sortByScore x xs : In x (sortByScore xs) <-> In x xs.
Proof.
  unfold sortByScore. induction xs as [|a xs IH]; cbn [fold_right]; [tauto|].
  rewrite In_insertScored. cbn [In]. tauto.
Qed.

Lemma length_insertScored a sorted :
  List.length (insertScored a sorted) = S (List.length sorted).
Proof.
  induction sorted as [|b rest IH]; cbn [insertScored]; [reflexivity|].
  destruct (snd a <? snd b)%nat; cbn [List.length]; [rewrite IH|]; reflexivity.
Qed.

Lemma length_sortByScore xs :
  List.length (sortByScore xs) = List.length xs.
Proof.
  unfold sortByScore. induction xs as [|a xs IH]; cbn [fold_right];
    [reflexivity|].
  rewrite length_insertScored, IH. reflexivity.
Qed.

Lemma insertScored_sorted a sorted :
  StronglySorted descending sorted ->
  StronglySorted descending (insertScored a sorted).
Proof.
  induction 1 as [|b rest Hrest IH Hb]; cbn [insertScored].
  - constructor; constructor.
  - destruct (snd a <? snd b)%nat eqn:Hlt.
    + apply Nat.ltb_lt in Hlt. constructor; [exact IH|].
      apply Forall_forall. intros x Hx. apply In_insertScored in Hx.
      destruct Hx as [<- | Hx]; [unfold descending; lia|].
      rewrite Forall_forall in Hb. exact (Hb x Hx).
    + apply Nat.ltb_ge in Hlt. constructor.
      * constructor; assumption.
      * constructor; [exact Hlt|].
        eapply Forall_impl; [|exact Hb].
        intros x Hx. unfold descending in *. lia.
Qed.

Lemma sortByScore_sorted xs : StronglySorted descending (sortByScore xs).
Proof.
  unfold sortByScore. induction xs as [|a xs IH]; cbn [fold_right].
  - constructor.
  - apply insertScored_sorted. exact IH.
Qed.

Lemma firstn_sorted {A} (R : A -> A -> Prop) n l :
  StronglySorted R l -> StronglySorted R (firstn n l).
Proof.
  revert n. induction l as [|a l IH]; intros [|n] H; cbn [firstn];
    try constructor.
  - apply IH. inversion H; assumption.
  - inversion H as [|? ? _ Hall]; subst.
    apply Forall_forall. intros x Hx.
    rewrite Forall_forall in Hall. apply Hall.
    exact (RagFacts.In_firstn x n l Hx).
Qed.

Lemma candidates_In score labs x :
  In x (candidates score labs)
  <-> In (fst x) labs /\ snd x = score (fst x) /\ (MIN_SCORE <= snd x)%nat.
Proof.
  unfold candidates. rewrite filter_In, in_map_iff, Nat.leb_le. split.
  - intros [[lab [<- Hin]] Hmin]. cbn [fst snd] in *. tauto.
  - intros [Hin [Hsnd Hmin]]. split; [|exact Hmin].
    exists (fst x). split; [|exact Hin]. rewrite <- Hsnd.
    destruct x; reflexivity.
Qed.

Lemma ranked_In score labs lab :
  In lab (ranked score labs) ->
  In lab labs /\ (MIN_SCORE <= score lab)%nat.
Proof.
  unfold ranked. fold (candidates score labs).
  intros H. apply in_map_iff in H. destruct H as [x [<- Hx]].
  apply RagFacts.In_firstn in Hx.
  apply (proj1 (In_sortByScore _ _)) in Hx.
  apply (proj1 (candidates_In score labs x)) in Hx.
  destruct Hx as [Hin [Hsnd Hmin]]. rewrite <- Hsnd. tauto.
Qed.

Lemma ranked_length score labs :
  (List.length (ranked score labs) <= MAX_RESULTS)%nat.
Proof. unfold ranked. rewrite length_map. apply firstn_le_length. Qed.

Lemma ranked_nil score labs :
  ranked score labs = [] ->
  forall lab, In lab labs -> (score lab < MIN_SCORE)%nat.
Proof.
  unfold ranked. fold (candidates score labs). intros H lab Hin.
  destruct (Nat.lt_ge_cases (score lab) MIN_SCORE) as [Hlt|Hge]; [exact Hlt|].
  exfalso.
  assert (Hc : In (lab, score lab) (candidates score labs)).
  { apply candidates_In. cbn [fst snd]. tauto. }
  apply (proj2 (In_sortByScore _ _)) in Hc.
  destruct (sortByScore (candidates score labs)) as [|x xs]; [exact Hc|].
  discriminate H.
Qed.

Lemma ranked_found score labs lab :
  In lab labs -> (MIN_SCORE <= score lab)%nat -> ranked score labs <> [].
Proof.
  intros Hin Hmin Hnil.
  pose proof (ranked_nil score labs Hnil lab Hin). lia.
Qed.

Lemma ranked_sorted score labs :
  StronglySorted (fun a b => (score b <= score a)%nat) (ranked score labs).
Proof.
  unfold ranked. fold (candidates score labs).
  assert (Hs : StronglySorted descending
                 (firstn MAX_RESULTS (sortByScore (candidates score labs))))
    by (apply firstn_sorted, sortByScore_sorted).
  assert (Hp : Forall (fun x => snd x = score (fst x))
                 (firstn MAX_RESULTS (sortByScore (candidates score labs)))).
  { apply Forall_forall. intros x Hx.
    apply RagFacts.In_firstn in Hx.
    apply (proj1 (In_sortByScore _ _)) in Hx.
    apply (proj1 (candidates_In score labs x)) in Hx. tauto. }
  induction Hs as [|x xs Hxs IH Hx]; cbn [map]; [constructor|].
  inversion Hp as [|? ? Hpx Hpxs]; subst.
  constructor; [exact (IH Hpxs)|].
  apply Forall_forall. intros lab Hlab. apply in_map_iff in Hlab.
  destruct Hlab as [y [<- Hy]].
  rewrite Forall_forall in Hx, Hpxs.
  pose proof (Hx y Hy) as Hd. unfold descending in Hd.
  rewrite (Hpxs y Hy), Hpx in Hd. exact Hd.
Qed.

Lemma level_eqb_eq a b : level_eqb a b = true <-> a = b.
Proof. destruct a, b; cbn; split; intros H; congruence. Qed.

Lemma fallback_level lvl l :
  existsb (level_eqb l) (LEVEL_PRIORITY lvl) = true <-> In l (LEVEL_PRIORITY lvl).
Proof.
  rewrite existsb_exists. split.
  - intros [x [Hin Heq]]. apply level_eqb_eq in Heq. subst x. exact Hin.
  - intros Hin. exists l. split; [exact Hin | apply level_eqb_eq; reflexivity].
Qed.

(** X22.  [getLabsForTopic] returns at most five labs, all from the
    registry.  Either all of them are of the requested level, or no lab of
    that level reaches the minimum score and all of them are of an adjacent
    level: an expert is never given a beginner lab and a beginner never an
    expert lab. *)
Theorem labs_respect_the_level
    (ALL_LABS : list Lab) (topic : string) (lvl : Level) :
  let labs := getLabsForTopic ALL_LABS topic lvl in
  let lower := toLowerCase topic in
  (List.length labs <= 5)%nat
  /\ (forall lab, In lab labs -> In lab ALL_LABS)
  /\ ((labs <> [] /\ forall lab, In lab labs -> level lab = lvl)
      \/ ((forall lab, In lab ALL_LABS -> level lab = lvl ->
             (scoreAtLevel lower (topicWords lower) lab < 3)%nat)
          /\ forall lab, In lab labs ->
               In (level lab) (LEVEL_PRIORITY lvl)))
  /\ (forall lab, In lab labs ->
        (lvl = expert -> level lab <> beginner)
        /\ (lvl = beginner -> level lab <> expert)).
Proof.
  intros labs lower. subst labs. unfold getLabsForTopic. fold lower.
  set (words := topicWords lower).
  set (atLevel := filter (fun lab => level_eqb (level lab) lvl) ALL_LABS).
  set (near := filter (fun lab => existsb (level_eqb (level lab))
                                          (LEVEL_PRIORITY lvl)) ALL_LABS).
  assert (HatLevel : forall lab,
             In lab (ranked (scoreAtLevel lower words) atLevel) ->
             In lab ALL_LABS /\ level lab = lvl).
  { intros lab H. apply ranked_In in H. destruct H as [H _].
    apply filter_In in H. destruct H as [Hin Hl].
    apply level_eqb_eq in Hl. tauto. }
  assert (Hnear : forall lab,
             In lab (ranked (scoreFallback lower words) near) ->
             In lab ALL_LABS /\ In (level lab) (LEVEL_PRIORITY lvl)).
  { intros lab H. apply ranked_In in H. destruct H as [H _].
    apply filter_In in H. destruct H as [Hin Hl].
    apply fallback_level in Hl. tauto. }
  destruct (ranked (scoreAtLevel lower words) atLevel) as [|l0 ls] eqn:Hranked.
  - split; [apply ranked_length|].
    split; [intros lab H; apply Hnear; exact H|].
    split.
    + right. split; [|intros lab H; apply Hnear; exact H].
      intros lab Hin Hl.
      apply (ranked_nil _ _ Hranked lab).
      apply filter_In. split; [exact Hin | apply level_eqb_eq; exact Hl].
    + intros lab H. apply Hnear in H. destruct H as [_ H].
      split; intros ->; cbn in H; intros Heq; rewrite Heq in H;
        destruct H as [H|[]]; discriminate H.
  - rewrite <- Hranked in *.
    split; [apply ranked_length|].
    split; [intros lab H; apply HatLevel; exact H|].
    split.
    + left. split; [rewrite Hranked; discriminate|].
      intros lab H; apply HatLevel; exact H.
    + intros lab H. apply HatLevel in H. destruct H as [_ H].
      split; intros ->; rewrite H; discriminate.
Qed.

(** X23.  The labs are listed best first: each one scores at least three,
    and no lab is listed before a lab that scores more. *)
Theorem labs_are_listed_best_first
    (ALL_LABS : list Lab) (topic : string) (lvl : Level) :
  let score := rankingScore ALL_LABS topic lvl in
  let labs := getLabsForTopic ALL_LABS topic lvl in
  StronglySorted (fun a b => (score b <= score a)%nat) labs
  /\ Forall (fun lab => (3 <= score lab)%nat) labs.
Proof.
  intros score labs. subst score labs. unfold rankingScore, getLabsForTopic.
  set (lower := toLowerCase topic). set (words := topicWords lower).
  destruct (ranked (scoreAtLevel lower words)
              (filter (fun lab => level_eqb (level lab) lvl) ALL_LABS))
    as [|l0 ls] eqn:Hranked.
  - split; [apply ranked_sorted|].
    apply Forall_forall. intros lab H. apply ranked_In in H. tauto.
  - rewrite <- Hranked. split; [apply ranked_sorted|].
    apply Forall_forall. intros lab H. apply ranked_In in H. tauto.
Qed.

Lemma wordMatches_ge withName words lab score :
  (score <= wordMatches withName words lab score)%nat.
Proof.
  unfold wordMatches. revert score.
  induction words as [|w words IH]; intros score; cbn [fold_left]; [lia|].
  etransitivity; [|apply IH].
  assert (Hin : forall ts s,
             (s <= fold_left (fun score t =>
                                if includes t w then score + 2 else score)
                             ts s)%nat).
  { induction ts as [|t ts IHts]; intros s; cbn [fold_left]; [lia|].
    etransitivity; [|apply IHts]. destruct (includes t w); lia. }
  specialize (Hin (topics lab) score).
  destruct (withName && includes (toLowerCase (name lab)) w); lia.
Qed.

(** X24.  In the fallback the bonus of an expert lab alone reaches the
    minimum score: when no intermediate lab qualifies for the topic of an
    intermediate user, the result is not empty as soon as the registry
    holds one expert lab, whether or not that lab has to do with the
    topic. *)
Theorem expert_labs_qualify_without_a_match
    (ALL_LABS : list Lab) (topic : string) (lab : Lab)
    (Hlisted : In lab ALL_LABS)
    (Hexpert : level lab = expert)
    (Hnone : forall l, In l ALL_LABS -> level l = intermediate ->
               (scoreAtLevel (toLowerCase topic)
                             (topicWords (toLowerCase topic)) l < 3)%nat) :
  getLabsForTopic ALL_LABS topic intermediate <> []
  /\ forall l, In l (getLabsForTopic ALL_LABS topic intermediate) ->
       level l = expert \/ level l = beginner.
Proof.
  unfold getLabsForTopic.
  set (lower := toLowerCase topic) in *. set (words := topicWords lower) in *.
  destruct (ranked (scoreAtLevel lower words)
              (filter (fun l => level_eqb (level l) intermediate) ALL_LABS))
    as [|l0 ls] eqn:Hranked.
  - split.
    + apply (ranked_found _ _ lab).
      * apply filter_In. split; [exact Hlisted|]. rewrite Hexpert. reflexivity.
      * unfold scoreFallback. rewrite Hexpert.
        pose proof (wordMatches_ge false words lab (exactMatches lower lab 0)).
        unfold MIN_SCORE. lia.
    + intros l Hl. apply ranked_In in Hl. destruct Hl as [Hl _].
      apply filter_In in Hl. destruct Hl as [_ Hl].
      apply fallback_level in Hl. cbn in Hl. intuition congruence.
  - exfalso.
    assert (Hin : In l0 (ranked (scoreAtLevel lower words)
                           (filter (fun l => level_eqb (level l) intermediate)
                                   ALL_LABS)))
      by (rewrite Hranked; left; reflexivity).
    apply ranked_In in Hin. destruct Hin as [Hin Hmin].
    apply filter_In in Hin. destruct Hin as [Hin Hl].
    apply level_eqb_eq in Hl.
    pose proof (Hnone l0 Hin Hl). unfold MIN_SCORE in Hmin. lia.
Qed.

Lemma expert_labs_witness :
  getLabsForTopic registry "cooking" intermediate = [overflowLab].
Proof.
  destruct (expert_labs_qualify_without_a_match registry "cooking"
              overflowLab) as [Hsome Hlevels].
  - left. reflexivity.
  - reflexivity.
  - intros l [<-|[<-|[<-|[]]]]; intros Hl; try discriminate Hl.
    vm_compute. lia.
  - reflexivity.
Defined.

End LabsProps.

(** ** The vector store connection *)

Module ChromaProps.

Import Js Chroma Spec.

Lemma getChromaCollection_paused clk net st :
  isRagDisabled st = true ->
  (enteredAt clk - lastRetryAt st < RETRY_INTERVAL_MS)%Z ->
  getChromaCollection clk net st = (None, st)
  /\ contactsServer clk st = false.
Proof.
  intros Hd Hw. apply Z.ltb_lt in Hw.
  unfold getChromaCollection, contactsServer. rewrite Hd, Hw.
  split; reflexivity.
Qed.

Lemma perform_paused c st :
  isRagDisabled st = true ->
  (enteredAt (clockOf c) - lastRetryAt st < RETRY_INTERVAL_MS)%Z ->
  perform c st = (quiet c, st).
Proof.
  intros Hd Hw.
  destruct c as [clk net | clk net add | clk net query];
    cbn [perform clockOf quiet] in *;
    unfold addDocuments, queryDocuments;
    rewrite (proj1 (getChromaCollection_paused clk net st Hd Hw));
    reflexivity.
Qed.

Lemma performAll_paused cs st :
  isRagDisabled st = true ->
  Forall (fun c => (enteredAt (clockOf c) - lastRetryAt st
                    < RETRY_INTERVAL_MS)%Z) cs ->
  performAll cs st = (map quiet cs, st).
Proof.
  intros Hd Hall. induction Hall as [|c cs Hc Hcs IH]; cbn [performAll map].
  - reflexivity.
  - rewrite (perform_paused c st Hd Hc), IH. reflexivity.
Qed.

(** What a connection that fails leaves behind. *)
Lemma getChromaCollection_refused clk net st :
  contactsServer clk st = true -> refused net ->
  fst (getChromaCollection clk net st) = None
  /\ isRagDisabled (snd (getChromaCollection clk net st)) = true
  /\ lastRetryAt (snd (getChromaCollection clk net st)) = failedAt clk.
Proof.
  unfold contactsServer, getChromaCollection. intros Hc Hnet.
  apply andb_true_iff in Hc. destruct Hc as [Hgo Hnone].
  destruct (collection st) eqn:Hcol; [discriminate Hnone|].
  destruct (isRagDisabled st).
  - cbn [andb negb] in Hgo.
    destruct (enteredAt clk - lastRetryAt st <? RETRY_INTERVAL_MS)%Z;
      [discriminate Hgo|].
    cbn [collection]. rewrite ?Hcol.
    destruct net; [| |contradiction Hnet]; repeat split.
  - destruct net; [| |contradiction Hnet]; repeat split.
Qed.

Lemma perform_refused c st :
  contactsServer (clockOf c) st = true -> refused (serverOf c) ->
  fst (perform c st) = quiet c
  /\ isRagDisabled (snd (perform c st)) = true
  /\ lastRetryAt (snd (perform c st)) = failedAt (clockOf c).
Proof.
  intros Hc Hnet.
  destruct c as [clk net | clk net add | clk net query];
    cbn [perform clockOf serverOf quiet] in *;
    unfold addDocuments, queryDocuments;
    destruct (getChromaCollection_refused clk net st Hc Hnet)
      as [Hnone [Hd Hl]];
    destruct (getChromaCollection clk net st) as [col st1];
    cbn [fst snd] in *; subst col; cbn [fst snd]; repeat split; assumption.
Qed.

(** X25.  With calls made one after the other: once a call has tried to
    connect and the connection failed, every call entered less than 60 s
    after that failure returns at once, with no collection, nothing added
    and no result, leaves the module variables alone and does not reach the
    server, whatever the server would answer by then. *)
Theorem failed_connection_pauses_every_call
    (c0 : Call) (cs : list Call) (st0 : State)
    (Htried : contactsServer (clockOf c0) st0 = true)
    (Hfailed : refused (serverOf c0))
    (Hsoon : Forall (fun c => (enteredAt (clockOf c) - failedAt (clockOf c0)
                               < RETRY_INTERVAL_MS)%Z) cs) :
  fst (performAll (c0 :: cs) st0) = map quiet (c0 :: cs)
  /\ snd (performAll (c0 :: cs) st0) = snd (perform c0 st0)
  /\ Forall (fun c => contactsServer (clockOf c) (snd (perform c0 st0)) = false)
            cs.
Proof.
  destruct (perform_refused c0 st0 Htried Hfailed) as [Hreply [Hd Hl]].
  cbn [performAll map].
  destruct (perform c0 st0) as [r st1]. cbn [fst snd] in *. subst r.
  assert (Hsoon' : Forall (fun c => (enteredAt (clockOf c) - lastRetryAt st1
                                     < RETRY_INTERVAL_MS)%Z) cs)
    by (rewrite Hl; exact Hsoon).
  rewrite (performAll_paused cs st1 Hd Hsoon'). cbn [fst snd].
  split; [reflexivity|]. split; [reflexivity|].
  eapply Forall_impl; [|exact Hsoon'].
  intros c Hc. exact (proj2 (getChromaCollection_paused (clockOf c)
                               Unreachable st1 Hd Hc)).
Qed.

Lemma failed_connection_witness :
  fst (performAll (downAt1s :: withinTheMinute) initial)
  = [Got None; Got None; Queried noResults; AddSettled (Fulfilled false)]
  /\ snd (performAll (downAt1s :: withinTheMinute) initial)
     = {| collection := None; isRagDisabled := true; lastRetryAt := 1200 |}.
Proof.
  destruct (failed_connection_pauses_every_call downAt1s withinTheMinute
              initial) as [Hreplies [Hstate _]].
  - reflexivity.
  - exact I.
  - repeat constructor.
  - split; [exact Hreplies | exact Hstate].
Defined.

Lemma getChromaCollection_some clk net st col st1 :
  getChromaCollection clk net st = (Some col, st1) ->
  isRagDisabled st1 = false /\ collection st1 = Some col.
Proof.
  unfold getChromaCollection.
  destruct (isRagDisabled st) eqn:Hd.
  - destruct (enteredAt clk - lastRetryAt st <? RETRY_INTERVAL_MS)%Z;
      [discriminate|].
    cbn [collection].
    destruct (collection st) as [c|] eqn:Hcol.
    + intros H. injection H as <- <-. split; reflexivity.
    + destruct net; cbn [connect]; try discriminate.
      intros H. injection H as <- <-. split; reflexivity.
  - destruct (collection st) as [c|] eqn:Hcol.
    + intros H. injection H as <- <-. split; assumption.
    + destruct net; cbn [connect]; try discriminate.
      intros H. injection H as <- <-. split; [exact Hd | reflexivity].
Qed.

(** X26.  A query that fails on a collection costs no pause: the caller
    gets the empty result, and the very next call, whenever it comes, tries
    to connect again and obtains the collection if the server is back. *)
Theorem failed_query_reconnects_at_once
    (clk : Clock) (net : Connection)
    (query : Collection -> Settled QueryAnswer) (st st1 : State)
    (col : Collection) (err : Thrown)
    (Hheld : getChromaCollection clk net st = (Some col, st1))
    (Hquery : query col = RejectedWith err) :
  let out := queryDocuments clk net query st in
  fst out = noResults
  /\ forall clk',
       contactsServer clk' (snd out) = true
       /\ forall c', fst (getChromaCollection clk' (Connected c') (snd out))
                     = Some c'.
Proof.
  intros out. subst out. unfold queryDocuments. rewrite Hheld, Hquery.
  destruct (getChromaCollection_some clk net st col st1 Hheld) as [Hd _].
  cbn [fst snd]. split; [reflexivity|]. intros clk'.
  unfold contactsServer, getChromaCollection.
  cbn [isRagDisabled collection]. rewrite Hd.
  split; [reflexivity|]. intros c'. reflexivity.
Qed.

Lemma failed_query_witness :
  fst (queryDocuments {| enteredAt := 10; failedAt := 10 |} Unreachable
         (fun _ => RejectedWith (ThrownString "socket hang up")) connectedTo7)
  = noResults
  /\ fst (getChromaCollection {| enteredAt := 11; failedAt := 11 |}
            (Connected 8)
            (snd (queryDocuments {| enteredAt := 10; failedAt := 10 |}
                    Unreachable
                    (fun _ => RejectedWith (ThrownString "socket hang up"))
                    connectedTo7)))
     = Some 8%nat.
Proof.
  destruct (failed_query_reconnects_at_once
              {| enteredAt := 10; failedAt := 10 |} Unreachable
              (fun _ => RejectedWith (ThrownString "socket hang up"))
              connectedTo7 connectedTo7 7%nat (ThrownString "socket hang up")
              eq_refl eq_refl) as [Hempty Hnext].
  split; [exact Hempty|].
  exact (proj2 (Hnext {| enteredAt := 11; failedAt := 11 |}) 8%nat).
Defined.

(** X27.  When the collection was obtained and only its count failed, the
    call returns no collection and starts the pause, but the collection
    stays in the module variable: the first call after the pause hands it
    out without testing the connection again, whatever the server would
    answer. *)
Theorem collection_whose_count_failed_is_kept
    (clk clk' : Clock) (net' : Connection) (st : State) (c : Collection)
    (Htried : contactsServer clk st = true)
    (Hlater : (RETRY_INTERVAL_MS <= enteredAt clk' - failedAt clk)%Z) :
  let st1 := snd (getChromaCollection clk (CountFails c) st) in
  fst (getChromaCollection clk (CountFails c) st) = None
  /\ contactsServer clk' st1 = false
  /\ fst (getChromaCollection clk' net' st1) = Some c.
Proof.
  intros st1. subst st1.
  unfold contactsServer in Htried. apply andb_true_iff in Htried.
  destruct Htried as [Hgo Hnone].
  apply Z.ltb_ge in Hlater.
  unfold getChromaCollection at 1 2 4.
  destruct (collection st) eqn:Hcol; [discriminate Hnone|].
  destruct (isRagDisabled st).
  - cbn [andb negb] in Hgo.
    destruct (enteredAt clk - lastRetryAt st <? RETRY_INTERVAL_MS)%Z;
      [discriminate Hgo|].
    cbn [collection]. rewrite ?Hcol. cbn [connect fst snd].
    unfold contactsServer, getChromaCollection.
    cbn [isRagDisabled lastRetryAt collection]. rewrite Hlater.
    repeat split.
  - cbn [connect fst snd].
    unfold contactsServer, getChromaCollection.
    cbn [isRagDisabled lastRetryAt collection]. rewrite Hlater.
    repeat split.
Qed.

Lemma count_failure_witness :
  fst (getChromaCollection {| enteredAt := 0; failedAt := 50 |}
         (CountFails 7) initial) = None
  /\ fst (getChromaCollection {| enteredAt := 60050; failedAt := 60050 |}
            Unreachable
            (snd (getChromaCollection {| enteredAt := 0; failedAt := 50 |}
                    (CountFails 7) initial)))
     = Some 7%nat.
Proof.
  destruct (collection_whose_count_failed_is_kept
              {| enteredAt := 0; failedAt := 50 |}
              {| enteredAt := 60050; failedAt := 60050 |}
              Unreachable initial 7%nat) as [Hnone [_ Hkept]].
  - reflexivity.
  - vm_compute. discriminate.
  - split; [exact Hnone | exact Hkept].
Defined.

End ChromaProps.

(** ** The rate limiter *)

Module RateLimiterProps.

Import RateLimiter Spec.

Lemma limits_setEntry_same u x l : limits (setEntry u x l) u = x.
Proof. cbn. rewrite String.eqb_refl. reflexivity. Qed.

Lemma limits_setEntry_other u u' x l :
  u <> u' -> limits (setEntry u' x l) u = limits l u.
Proof.
  intros Hne. cbn. destruct (String.eqb u u') eqn:E; [|reflexivity].
  apply String.eqb_eq in E. contradiction.
Qed.

(** Inside a window the counter goes up by one with every check. *)
Lemma checks_inside_window u times : forall l k r,
  limits l u = Some {| count := Z.of_nat k; resetAt := r |} ->
  Forall (fun t => (t <= r)%Z) times ->
  fst (checks u times l)
  = map (fun i => (maxRequests l <? Z.of_nat i)%Z)
        (seq (S k) (List.length times)).
Proof.
  induction times as [|t times IH]; intros l k r Hl Hall;
    cbn [checks List.length seq map]; [reflexivity|].
  inversion Hall as [|? ? Ht Hrest]; subst.
  unfold check, current. rewrite Hl. cbn [resetAt count].
  assert (Hin : (r <? t)%Z = false) by (apply Z.ltb_ge; exact Ht).
  rewrite Hin. cbn [count resetAt].
  set (l1 := setEntry u (Some {| count := Z.of_nat k + 1; resetAt := r |}) l).
  assert (Hl1 : limits l1 u
                = Some {| count := Z.of_nat (S k); resetAt := r |}).
  { subst l1. rewrite limits_setEntry_same. do 2 f_equal. lia. }
  specialize (IH l1 (S k) r Hl1 Hrest).
  destruct (checks u times l1) as [bs l2]. cbn [fst] in *.
  rewrite IH. f_equal. f_equal. lia.
Qed.

(** X28.  The check that opens a window is never blocked; of the checks
    that follow up to the end of the window, the [k]-th of the window is
    blocked exactly when [k] exceeds [maxRequests]. *)
Theorem window_admits_maxRequests_checks
    (userId : string) (now : Z) (times : list Z) (l : Limiter)
    (Hopens : current now userId l = None)
    (Hinside : Forall (fun t => (t <= now + windowMs l)%Z) times) :
  fst (checks userId (now :: times) l)
  = map (blockedAt (maxRequests l)) (seq 1 (S (List.length times))).
Proof.
  cbn [checks seq map]. unfold check at 1. rewrite Hopens.
  set (l1 := setEntry userId
               (Some {| count := 1; resetAt := now + windowMs l |}) l).
  assert (Hl1 : limits l1 userId
                = Some {| count := Z.of_nat 1; resetAt := now + windowMs l |})
    by (subst l1; apply limits_setEntry_same).
  pose proof (checks_inside_window userId times l1 1 (now + windowMs l)
                Hl1 Hinside) as Hrest.
  destruct (checks userId times l1) as [bs l2]. cbn [fst] in *.
  rewrite Hrest. f_equal.
  apply map_ext_in. intros i Hi. apply in_seq in Hi.
  unfold blockedAt.
  assert (H1 : (1 <? i)%nat = true) by (apply Nat.ltb_lt; lia).
  rewrite H1. reflexivity.
Qed.

Lemma window_witness :
  fst (checks "alice" [1000; 1001; 1500; 61000]%Z (create 2 60000))
  = [false; false; true; true].
Proof.
  apply (window_admits_maxRequests_checks "alice" 1000
           [1001; 1500; 61000]%Z (create 2 60000)).
  - reflexivity.
  - repeat constructor; vm_compute; discriminate.
Defined.

(** X29.  For a limiter that allows at least one request, [remaining]
    and [check] agree: asked at the same moment, the check blocks the user
    exactly when no request remains. *)
Theorem check_blocks_when_nothing_remains
    (now : Z) (userId : string) (l : Limiter)
    (Hpositive : (0 < maxRequests l)%Z) :
  fst (check now userId l) = true <-> remaining now userId l = 0%Z.
Proof.
  unfold check, remaining.
  destruct (current now userId l) as [entry|]; cbn [fst count].
  - rewrite Z.ltb_lt. lia.
  - split; [discriminate | lia].
Qed.

Lemma check_blocks_witness :
  fst (check 1500 "alice"
         (snd (checks "alice" [1000; 1001]%Z (create 2 60000)))) = true
  <-> remaining 1500 "alice"
        (snd (checks "alice" [1000; 1001]%Z (create 2 60000))) = 0%Z.
Proof.
  apply check_blocks_when_nothing_remains. reflexivity.
Defined.

Lemma remaining_frame now u l l' :
  current now u l' = current now u l -> maxRequests l' = maxRequests l ->
  remaining now u l' = remaining now u l.
Proof. unfold remaining. intros -> ->. reflexivity. Qed.

Lemma check_frame now u l l' :
  current now u l' = current now u l -> maxRequests l' = maxRequests l ->
  fst (check now u l') = fst (check now u l).
Proof.
  unfold check. intros -> Hmax.
  destruct (current now u l); cbn [fst]; [rewrite Hmax|]; reflexivity.
Qed.

(** X30.  The limits are kept per user: a check or a reset of one user
    changes neither what another user has left nor whether that user's
    next check is blocked. *)
Theorem limits_are_per_user
    (now now' : Z) (userId other : string) (l : Limiter)
    (Hother : userId <> other) :
  remaining now userId (snd (check now' other l)) = remaining now userId l
  /\ fst (check now userId (snd (check now' other l)))
     = fst (check now userId l)
  /\ remaining now userId (reset other l) = remaining now userId l
  /\ fst (check now userId (reset other l)) = fst (check now userId l).
Proof.
  assert (Hset : forall x,
             current now userId (setEntry other x l) = current now userId l).
  { intros x. unfold current.
    rewrite (limits_setEntry_other userId other x l Hother). reflexivity. }
  assert (Hcheck : current now userId (snd (check now' other l))
                   = current now userId l).
  { unfold check. destruct (current now' other l); cbn [snd]; apply Hset. }
  assert (Hmax : maxRequests (snd (check now' other l)) = maxRequests l).
  { unfold check. destruct (current now' other l); reflexivity. }
  split; [apply remaining_frame; assumption|].
  split; [apply check_frame; assumption|].
  split; [apply remaining_frame | apply check_frame];
    solve [apply Hset | reflexivity].
Qed.

Lemma limits_per_user_witness :
  remaining 1002 "alice"
    (snd (check 1001 "bob" (snd (check 1000 "alice" (create 2 60000)))))
  = 1%Z.
Proof.
  destruct (limits_are_per_user 1002 1001 "alice" "bob"
              (snd (check 1000 "alice" (create 2 60000)))) as [H _].
  - discriminate.
  - rewrite H. reflexivity.
Defined.

End RateLimiterProps.

(** ** One call among interleaved calls *)

Module CallFacts.

Import Queue AI Spec.

(** *** Selections *)

Lemma Subsequence_nil {A} (l : list A) : Subsequence [] l.
Proof. induction l; constructor; assumption. Qed.

Lemma Subsequence_app {A} (l1 l2 l1' l2' : list A) :
  Subsequence l1 l2 -> Subsequence l1' l2' ->
  Subsequence (l1 ++ l1') (l2 ++ l2').
Proof.
  induction 1 as [|x l1 l2 _ IH|x l1 l2 _ IH]; intros H'; simpl.
  - exact H'.
  - apply sub_drop. exact (IH H').
  - apply sub_keep. exact (IH H').
Qed.

Lemma Subsequence_skip {A} (l1 l2 : list A) (x : A) :
  Subsequence l1 l2 -> Subsequence l1 (l2 ++ [x]).
Proof.
  intros H. rewrite <- (app_nil_r l1).
  apply Subsequence_app; [exact H | apply Subsequence_nil].
Qed.

Lemma Subsequence_take {A} (l1 l2 l3 : list A) (x : A) :
  Subsequence l1 l2 -> Subsequence (l1 ++ [x]) (l2 ++ x :: l3).
Proof.
  intros H. apply Subsequence_app; [exact H|].
  apply sub_keep. apply Subsequence_nil.
Qed.

(** *** The phases of the calls *)

Lemma phaseOf_present c cs :
  phaseOf c cs <> None <-> In c (map fst cs).
Proof.
  induction cs as [|[c' ph] cs IH]; simpl; [tauto|].
  destruct (Nat.eqb c' c) eqn:E.
  - apply Nat.eqb_eq in E. split; [auto | discriminate].
  - apply Nat.eqb_neq in E. rewrite IH. tauto.
Qed.

Lemma phaseOf_In c ph cs :
  NoDup (map fst cs) -> In (c, ph) cs -> phaseOf c cs = Some ph.
Proof.
  induction cs as [|[c' ph'] cs IH]; simpl; intros Hnd Hin; [contradiction|].
  inversion Hnd as [|? ? Hnotin Hrest]; subst.
  destruct Hin as [Heq|Hin].
  - injection Heq as -> ->. rewrite Nat.eqb_refl. reflexivity.
  - destruct (Nat.eqb c' c) eqn:E; [|auto].
    apply Nat.eqb_eq in E. subst c'. exfalso. apply Hnotin.
    apply in_map_iff. exists (c, ph). auto.
Qed.

Lemma callers_setPhase c ph cs : map fst (setPhase c ph cs) = map fst cs.
Proof.
  induction cs as [|[c' ph'] cs IH]; simpl; [reflexivity|].
  destruct (Nat.eqb c' c); simpl; [reflexivity | rewrite IH; reflexivity].
Qed.

(** The phase of every call after a call has left its [try] block. *)
Lemma phaseOf_leave cfg pl c0 old r tried ps c :
  consistent pl ->
  phaseOf c0 (calls pl) = Some old -> holdsSlot old = true ->
  phaseOf c (calls (leave cfg c0 r tried ps pl))
  = if Nat.eqb c c0 then Some (Done r tried)
    else match waiting (gate (shared pl)) with
         | w :: _ =>
             if Nat.eqb c w
             then Some (InLoop (PROVIDER_PRIORITY cfg) [] None)
             else phaseOf c (calls pl)
         | [] => phaseOf c (calls pl)
         end.
Proof.
  intros Hcons Hc0 Hold. unfold leave, release.
  destruct (waiting (gate (shared pl))) as [|w rest] eqn:Hw; cbn [calls].
  - destruct (Nat.eqb c c0) eqn:E.
    + apply Nat.eqb_eq in E. subst c.
      eapply PoolFacts.phaseOf_setPhase_same; eauto.
    + apply Nat.eqb_neq in E. apply PoolFacts.phaseOf_setPhase_other. exact E.
  - assert (Hwsus : phaseOf w (calls pl) = Some Suspended).
    { apply (waiting_suspended Hcons). rewrite Hw. left. reflexivity. }
    assert (Hwc : w <> c0).
    { intros ->. rewrite Hwsus in Hc0. injection Hc0 as <-. discriminate. }
    destruct (Nat.eqb c c0) eqn:E.
    + apply Nat.eqb_eq in E. subst c.
      rewrite PoolFacts.phaseOf_setPhase_other by congruence.
      eapply PoolFacts.phaseOf_setPhase_same; eauto.
    + apply Nat.eqb_neq in E.
      destruct (Nat.eqb c w) eqn:E'.
      * apply Nat.eqb_eq in E'. subst c.
        apply (PoolFacts.phaseOf_setPhase_same w _ _ Suspended).
        rewrite PoolFacts.phaseOf_setPhase_other by exact Hwc. exact Hwsus.
      * apply Nat.eqb_neq in E'.
        rewrite !PoolFacts.phaseOf_setPhase_other by assumption.
        reflexivity.
Qed.

(** A call other than the one that acts keeps its phase, unless it is the
    waiter that is handed the slot. *)
Lemma act_other cfg pl a pl' c :
  consistent pl -> act cfg pl a = Some pl' -> actor a <> c ->
  phaseOf c (calls pl') = phaseOf c (calls pl)
  \/ (phaseOf c (calls pl) = Some Suspended
      /\ phaseOf c (calls pl')
         = Some (InLoop (PROVIDER_PRIORITY cfg) [] None)).
Proof.
  intros Hcons Hact Hne.
  assert (Hleave : forall c0 old r tried ps,
             phaseOf c0 (calls pl) = Some old -> holdsSlot old = true ->
             c0 <> c ->
             phaseOf c (calls (leave cfg c0 r tried ps pl))
             = phaseOf c (calls pl)
             \/ (phaseOf c (calls pl) = Some Suspended
                 /\ phaseOf c (calls (leave cfg c0 r tried ps pl))
                    = Some (InLoop (PROVIDER_PRIORITY cfg) [] None))).
  { intros c0 old r tried ps Hc0 Hold Hc0c.
    rewrite (phaseOf_leave cfg pl c0 old r tried ps c Hcons Hc0 Hold).
    assert (E : Nat.eqb c c0 = false) by (apply Nat.eqb_neq; congruence).
    rewrite E.
    destruct (waiting (gate (shared pl))) as [|w rest] eqn:Hw;
      [left; reflexivity|].
    destruct (Nat.eqb c w) eqn:E'; [|left; reflexivity].
    apply Nat.eqb_eq in E'. subst w. right. split; [|reflexivity].
    apply (waiting_suspended Hcons). rewrite Hw. left. reflexivity. }
  destruct a as [c0|c0 t|c0 out t]; cbn [act actor] in *.
  - destruct (phaseOf c0 (calls pl)) eqn:Hc0; [discriminate|].
    destruct (acquire c0 (gate (shared pl))) as [q granted].
    injection Hact as <-. cbn [calls]. left.
    rewrite PoolFacts.phaseOf_app.
    destruct (phaseOf c (calls pl)); [reflexivity|].
    assert (E : Nat.eqb c0 c = false) by (apply Nat.eqb_neq; exact Hne).
    rewrite E. reflexivity.
  - destruct (phaseOf c0 (calls pl)) as [[|todo tried lastError| |]|] eqn:Hc0;
      try discriminate.
    destruct todo as [|key rest].
    + injection Hact as <-. eapply Hleave; eauto.
    + destruct (beginTurn t key (store (shared pl))) as [ps1|];
        injection Hact as <-; cbn [calls]; left;
        apply PoolFacts.phaseOf_setPhase_other; congruence.
  - destruct (phaseOf c0 (calls pl)) as [[| |key rest tried lastError|]|] eqn:Hc0;
      try discriminate.
    destruct (endTurn out t key (store (shared pl)) lastError)
      as [|ps' text|ps' lastError']; try discriminate;
      injection Hact as <-.
    + eapply Hleave; eauto.
    + cbn [calls]. left. apply PoolFacts.phaseOf_setPhase_other. congruence.
Qed.

(** A call that has settled takes no further step. *)
Lemma act_done_disabled cfg pl a c r tried :
  phaseOf c (calls pl) = Some (Done r tried) -> actor a = c ->
  act cfg pl a = None.
Proof.
  intros Hc <-. destruct a as [c0|c0 t|c0 out t]; cbn [act actor] in *;
    rewrite Hc; reflexivity.
Qed.

Lemma schedule_app cfg acts1 : forall pl acts2,
  schedule cfg pl (acts1 ++ acts2)
  = match schedule cfg pl acts1 with
    | Some pl1 => schedule cfg pl1 acts2
    | None => None
    end.
Proof.
  induction acts1 as [|a acts1 IH]; intros pl acts2; simpl; [reflexivity|].
  destruct (act cfg pl a) as [pl1|]; [apply IH | reflexivity].
Qed.

Lemma transcript_app cfg acts1 c : forall pl pl1 acts2,
  schedule cfg pl acts1 = Some pl1 ->
  transcript cfg pl (acts1 ++ acts2) c
  = transcript cfg pl acts1 c ++ transcript cfg pl1 acts2 c.
Proof.
  induction acts1 as [|a acts1 IH]; intros pl pl1 acts2; simpl.
  - intros H. injection H as <-. reflexivity.
  - destruct (act cfg pl a) as [pl'|]; [|discriminate].
    intros H. rewrite (IH pl' pl1 acts2 H), app_assoc. reflexivity.
Qed.

(** A call that has settled stays as it is, whatever the other calls do. *)
Lemma done_is_final cfg acts : forall pl pl' c r tried,
  consistent pl ->
  phaseOf c (calls pl) = Some (Done r tried) ->
  schedule cfg pl acts = Some pl' ->
  phaseOf c (calls pl') = Some (Done r tried)
  /\ transcript cfg pl acts c = [].
Proof.
  induction acts as [|a acts IH]; intros pl pl' c r tried Hcons Hc; simpl.
  - intros H. injection H as <-. split; [exact Hc | reflexivity].
  - destruct (act cfg pl a) as [pl1|] eqn:Ha; [|discriminate].
    intros Hs.
    assert (Hne : actor a <> c).
    { intros Heq. rewrite (act_done_disabled cfg pl a c r tried Hc Heq) in Ha.
      discriminate. }
    assert (Hc1 : phaseOf c (calls pl1) = Some (Done r tried)).
    { destruct (act_other cfg pl a pl1 c Hcons Ha Hne) as [H|[H _]].
      - rewrite H. exact Hc.
      - rewrite Hc in H. discriminate. }
    destruct (IH pl1 pl' c r tried
                (PoolFacts.consistent_act cfg pl a pl1 Hcons Ha) Hc1 Hs)
      as [Hfinal Htr].
    split; [exact Hfinal|]. rewrite Htr, app_nil_r.
    destruct a as [c0|c0 t|c0 out t]; cbn [delivered actor] in *;
      try reflexivity.
    destruct (Nat.eqb c0 c) eqn:E; [|reflexivity].
    apply Nat.eqb_eq in E. contradiction.
Qed.

(** *** The provider calls of one call *)

Lemma lastErrorOf_snoc tr d :
  lastErrorOf (tr ++ [d])
  = match snd d with
    | Rejected e => Some e
    | Resolved _ => lastErrorOf tr
    end.
Proof. unfold lastErrorOf. rewrite fold_left_app. reflexivity. Qed.

Lemma accounted_entering cfg :
  accounted cfg [] (Some (InLoop (PROVIDER_PRIORITY cfg) [] None)).
Proof.
  cbn [accounted]. split; [|repeat split].
  exists []. split; [reflexivity | constructor].
Qed.

(** One step of any call keeps every call accounted for. *)
Lemma accounted_act cfg pl a pl' c tr :
  consistent pl -> act cfg pl a = Some pl' ->
  accounted cfg tr (phaseOf c (calls pl)) ->
  accounted cfg (tr ++ delivered pl a c) (phaseOf c (calls pl')).
Proof.
  intros Hcons Hact Hacc.
  destruct (Nat.eq_dec (actor a) c) as [Hself|Hother].
  - subst c. destruct a as [c|c t|c out t]; cbn [act actor delivered] in *.
    + (* a new call *)
      destruct (phaseOf c (calls pl)) eqn:Hc; [discriminate|].
      cbn [accounted] in Hacc. subst tr.
      destruct (acquire c (gate (shared pl))) as [q granted].
      injection Hact as <-. cbn [calls].
      rewrite PoolFacts.phaseOf_app, Hc, Nat.eqb_refl.
      destruct granted; [apply accounted_entering | reflexivity].
    + (* the loop head *)
      rewrite app_nil_r.
      destruct (phaseOf c (calls pl)) as [[|todo tried lastError| |]|] eqn:Hc;
        try discriminate.
      cbn [accounted] in Hacc.
      destruct Hacc as [[done [Hprio Hsub]] [Htried [Hnone Hlast]]].
      destruct todo as [|key rest].
      * injection Hact as <-.
        rewrite (phaseOf_leave cfg pl c _ _ tried _ c Hcons Hc eq_refl).
        rewrite Nat.eqb_refl. cbn [accounted].
        rewrite app_nil_r in Hprio. rewrite Hprio, Hlast.
        repeat split; assumption.
      * destruct (beginTurn t key (store (shared pl))) as [ps1|];
          injection Hact as <-; cbn [calls];
          rewrite (PoolFacts.phaseOf_setPhase_same c _ _ _ Hc);
          cbn [accounted].
        -- split; [|split; [|split]]; try assumption.
           ++ exists done. split; [exact Hprio|]. rewrite <- Htried. exact Hsub.
           ++ rewrite Htried. reflexivity.
        -- split; [|repeat split; assumption].
           exists (done ++ [key]). split.
           ++ rewrite <- app_assoc. exact Hprio.
           ++ apply Subsequence_skip. exact Hsub.
    + (* a provider call settles *)
      rewrite Nat.eqb_refl.
      destruct (phaseOf c (calls pl)) as [[| |key rest tried lastError|]|] eqn:Hc;
        try discriminate.
      cbn [accounted] in Hacc.
      destruct Hacc as [[done [Hprio Hsub]] [Htried [Hnone Hlast]]].
      assert (Hnext : forall lastError',
                 unusableCall (key, out) = true ->
                 lastError' = lastErrorOf (tr ++ [(key, out)]) ->
                 accounted cfg (tr ++ [(key, out)])
                   (phaseOf c (setPhase c (InLoop rest tried lastError')
                                        (calls pl)))).
      { intros lastError' Hun Hle.
        rewrite (PoolFacts.phaseOf_setPhase_same c _ _ _ Hc). cbn [accounted].
        split; [|split; [|split]].
        - exists (done ++ [key]). split.
          + rewrite <- app_assoc. exact Hprio.
          + rewrite Htried. apply Subsequence_take with (l3 := []). exact Hsub.
        - rewrite map_app. exact Htried.
        - rewrite forallb_app, Hnone. cbn [forallb]. rewrite Hun. reflexivity.
        - exact Hle. }
      unfold endTurn in Hact.
      destruct out as [[text|]|e].
      * destruct (Js.truthy text) eqn:Htext.
        -- injection Hact as <-.
           rewrite (phaseOf_leave cfg pl c _ _ tried _ c Hcons Hc eq_refl).
           rewrite Nat.eqb_refl. cbn [accounted].
           exists tr, key, done, rest. repeat split; assumption.
        -- injection Hact as <-. cbn [calls].
           apply Hnext.
           ++ unfold unusableCall. cbn [snd usableOutcome]. rewrite Htext.
              reflexivity.
           ++ rewrite lastErrorOf_snoc. exact Hlast.
      * injection Hact as <-. cbn [calls].
        apply Hnext; [reflexivity|].
        rewrite lastErrorOf_snoc. exact Hlast.
      * injection Hact as <-. cbn [calls].
        apply Hnext; [reflexivity|].
        rewrite lastErrorOf_snoc. reflexivity.
  - assert (Hd : delivered pl a c = []).
    { destruct a as [c0|c0 t|c0 out t]; cbn [delivered actor] in *;
        try reflexivity.
      assert (E : Nat.eqb c0 c = false) by (apply Nat.eqb_neq; exact Hother).
      rewrite E. reflexivity. }
    rewrite Hd, app_nil_r.
    destruct (act_other cfg pl a pl' c Hcons Hact Hother) as [H|[Hs H]].
    + rewrite H. exact Hacc.
    + rewrite Hs in Hacc. cbn [accounted] in Hacc. subst tr.
      rewrite H. apply accounted_entering.
Qed.

Lemma accounted_schedule cfg c acts : forall pl pl' tr,
  consistent pl -> schedule cfg pl acts = Some pl' ->
  accounted cfg tr (phaseOf c (calls pl)) ->
  accounted cfg (tr ++ transcript cfg pl acts c) (phaseOf c (calls pl')).
Proof.
  induction acts as [|a acts IH]; intros pl pl' tr Hcons; simpl.
  - intros H Hacc. injection H as <-. rewrite app_nil_r. exact Hacc.
  - destruct (act cfg pl a) as [pl1|] eqn:Ha; [|discriminate].
    intros Hs Hacc. rewrite app_assoc.
    apply (IH pl1 pl' _ (PoolFacts.consistent_act cfg pl a pl1 Hcons Ha) Hs).
    apply (accounted_act cfg pl a pl1 c tr Hcons Ha Hacc).
Qed.

(** Along every interleaving, the phase of every call agrees with the
    provider calls that settled for it. *)
Lemma accounted_from_start cfg acts pl c :
  schedule cfg (start cfg) acts = Some pl ->
  accounted cfg (transcript cfg (start cfg) acts c) (phaseOf c (calls pl)).
Proof.
  intros Hreach.
  apply (accounted_schedule cfg c acts (start cfg) pl []
           (PoolFacts.consistent_start cfg) Hreach).
  reflexivity.
Qed.

Lemma exhausted_is_LLMError lastError :
  exists msg, exhausted lastError = LLMError "all" msg.
Proof. unfold exhausted. eexists. reflexivity. Qed.

(** What is attempted is a selection of [PROVIDER_PRIORITY]. *)
Lemma accounted_tried cfg tr ph :
  accounted cfg tr (Some ph) ->
  Subsequence (triedOf ph) (PROVIDER_PRIORITY cfg).
Proof.
  destruct ph as [|todo tried le|key rest tried le|[text|e] tried];
    cbn [accounted triedOf].
  - intros _. apply Subsequence_nil.
  - intros [[done [-> Hsub]] _]. rewrite <- (app_nil_r tried).
    apply Subsequence_app; [exact Hsub | apply Subsequence_nil].
  - intros [[done [-> Hsub]] [-> _]]. apply Subsequence_take. exact Hsub.
  - intros [earlier [key [done [rest [_ [_ [_ [-> [-> Hsub]]]]]]]]].
    apply Subsequence_take. exact Hsub.
  - intros [_ [_ [Hsub _]]]. exact Hsub.
Qed.

(** *** Every call settles *)

Lemma callers_leave cfg c r tried ps pl :
  map fst (calls (leave cfg c r tried ps pl)) = map fst (calls pl).
Proof.
  unfold leave. destruct (release (gate (shared pl))) as [q [w|]];
    cbn [calls]; rewrite ?callers_setPhase; reflexivity.
Qed.

(** The calls of the pool stay, and a new call is added at the end. *)
Lemma callers_act cfg pl a pl' :
  act cfg pl a = Some pl' ->
  map fst (calls pl') = map fst (calls pl)
  \/ (phaseOf (actor a) (calls pl) = None
      /\ map fst (calls pl') = map fst (calls pl) ++ [actor a]).
Proof.
  destruct a as [c|c t|c out t]; cbn [act actor].
  - destruct (phaseOf c (calls pl)) eqn:Hc; [discriminate|].
    destruct (acquire c (gate (shared pl))) as [q granted].
    intros H. injection H as <-. right. split; [reflexivity|].
    cbn [calls]. rewrite map_app. reflexivity.
  - destruct (phaseOf c (calls pl)) as [[|todo tried lastError| |]|];
      try discriminate.
    destruct todo as [|key rest].
    + intros H. injection H as <-. left. apply callers_leave.
    + destruct (beginTurn t key (store (shared pl)));
        intros H; injection H as <-; left; apply callers_setPhase.
  - destruct (phaseOf c (calls pl)) as [[| |key rest tried lastError|]|];
      try discriminate.
    destruct (endTurn out t key (store (shared pl)) lastError);
      intros H; try discriminate; injection H as <-; left;
      [apply callers_leave | apply callers_setPhase].
Qed.

Lemma distinctCallers_act cfg pl a pl' :
  distinctCallers pl -> act cfg pl a = Some pl' -> distinctCallers pl'.
Proof.
  unfold distinctCallers. intros Hnd Hact.
  destruct (callers_act cfg pl a pl' Hact) as [->|[Hnew ->]]; [exact Hnd|].
  apply NoDup_app; [exact Hnd | repeat constructor; intros [] |].
  intros x Hx [<-|[]]. apply phaseOf_present in Hx. contradiction.
Qed.

Lemma present_act cfg pl a pl' c :
  act cfg pl a = Some pl' ->
  phaseOf c (calls pl) <> None -> phaseOf c (calls pl') <> None.
Proof.
  intros Hact Hc. apply phaseOf_present. apply phaseOf_present in Hc.
  destruct (callers_act cfg pl a pl' Hact) as [->|[_ ->]]; [exact Hc|].
  apply in_or_app. left. exact Hc.
Qed.

Lemma phaseOf_entry c ph cs : phaseOf c cs = Some ph -> In (c, ph) cs.
Proof.
  induction cs as [|[c' ph'] cs IH]; simpl; [discriminate|].
  destruct (Nat.eqb c' c) eqn:E.
  - apply Nat.eqb_eq in E. subst c'. intros H. injection H as ->. left.
    reflexivity.
  - intros H. right. exact (IH H).
Qed.

Lemma work_setPhase cfg c ph cs old :
  phaseOf c cs = Some old ->
  let n := List.length (PROVIDER_PRIORITY cfg) in
  (work cfg (setPhase c ph cs) + workOf n old
   = work cfg cs + workOf n ph)%nat.
Proof.
  unfold work. induction cs as [|[c' ph'] cs IH]; simpl; [discriminate|].
  destruct (Nat.eqb c' c) eqn:E; simpl.
  - intros H. injection H as ->. lia.
  - intros H. specialize (IH H). simpl in IH. lia.
Qed.

Lemma workOf_holder n ph : holdsSlot ph = true -> (1 <= workOf n ph)%nat.
Proof. destruct ph; simpl; intros H; try discriminate; lia. Qed.

Lemma work_leave cfg pl c old r tried ps :
  consistent pl ->
  phaseOf c (calls pl) = Some old -> holdsSlot old = true ->
  (work cfg (calls (leave cfg c r tried ps pl)) < work cfg (calls pl))%nat.
Proof.
  intros Hcons Hc Hold.
  pose proof (work_setPhase cfg c (Done r tried) (calls pl) old Hc) as Hdone.
  pose proof (workOf_holder (List.length (PROVIDER_PRIORITY cfg)) old Hold)
    as Hpos.
  cbn zeta in Hdone. cbn [workOf] in Hdone.
  unfold leave, release.
  destruct (waiting (gate (shared pl))) as [|w rest] eqn:Hw; cbn [calls].
  - lia.
  - assert (Hwsus : phaseOf w (calls pl) = Some Suspended).
    { apply (waiting_suspended Hcons). rewrite Hw. left. reflexivity. }
    assert (Hwc : w <> c).
    { intros ->. rewrite Hwsus in Hc. injection Hc as <-. discriminate. }
    assert (Hw1 : phaseOf w (setPhase c (Done r tried) (calls pl))
                  = Some Suspended).
    { rewrite PoolFacts.phaseOf_setPhase_other by exact Hwc. exact Hwsus. }
    pose proof (work_setPhase cfg w (InLoop (PROVIDER_PRIORITY cfg) [] None)
                  _ Suspended Hw1) as Hwake.
    cbn zeta in Hwake. cbn [workOf] in Hwake. lia.
Qed.

(** Every step of a call inside its [try] block brings the pool closer to
    the end. *)
Lemma act_decreases cfg pl a pl' :
  consistent pl -> act cfg pl a = Some pl' ->
  (forall c, a <> Invoke c) ->
  (work cfg (calls pl') < work cfg (calls pl))%nat.
Proof.
  intros Hcons Hact Hstep.
  destruct a as [c|c t|c out t]; cbn [act] in Hact.
  - exfalso. apply (Hstep c). reflexivity.
  - destruct (phaseOf c (calls pl)) as [[|todo tried lastError| |]|] eqn:Hc;
      try discriminate.
    destruct todo as [|key rest].
    + injection Hact as <-. eapply work_leave; eauto.
    + destruct (beginTurn t key (store (shared pl))) as [ps1|];
        injection Hact as <-; cbn [calls];
        match goal with
        | |- (work cfg (setPhase c ?ph _) < _)%nat =>
            pose proof (work_setPhase cfg c ph (calls pl) _ Hc) as H
        end;
        cbn zeta in H; cbn [workOf List.length] in H; lia.
  - destruct (phaseOf c (calls pl)) as [[| |key rest tried lastError|]|] eqn:Hc;
      try discriminate.
    destruct (endTurn out t key (store (shared pl)) lastError)
      as [|ps' text|ps' lastError']; try discriminate;
      injection Hact as <-.
    + eapply work_leave; eauto.
    + cbn [calls].
      pose proof (work_setPhase cfg c (InLoop rest tried lastError')
                    (calls pl) _ Hc) as H.
      cbn zeta in H. cbn [workOf] in H. lia.
Qed.

Lemma nextAction_some out clock cs a :
  nextAction out clock cs = Some a ->
  exists c ph,
    In (c, ph) cs
    /\ ((exists todo tried lastError,
            ph = InLoop todo tried lastError /\ a = Advance c clock)
        \/ (exists key rest tried lastError,
               ph = Awaiting key rest tried lastError
               /\ a = Deliver c (out c key) clock)).
Proof.
  induction cs as [|[c ph] cs IH]; simpl; [discriminate|].
  destruct ph as [|todo tried le|key rest tried le|r tried].
  - intros H. destruct (IH H) as [c' [ph' [Hin H']]].
    exists c', ph'. split; [right; exact Hin | exact H'].
  - intros H. injection H as <-. exists c, (InLoop todo tried le).
    split; [left; reflexivity|]. left. eauto.
  - intros H. injection H as <-. exists c, (Awaiting key rest tried le).
    split; [left; reflexivity|]. right. exists key, rest, tried, le. auto.
  - intros H. destruct (IH H) as [c' [ph' [Hin H']]].
    exists c', ph'. split; [right; exact Hin | exact H'].
Qed.

Lemma nextAction_none out clock cs :
  nextAction out clock cs = None ->
  forall c ph, In (c, ph) cs -> holdsSlot ph = false.
Proof.
  induction cs as [|[c ph] cs IH]; simpl; [intros _ ? ? []|].
  destruct ph as [|todo tried le|key rest tried le|r tried];
    try discriminate; intros H c' ph' [Heq|Hin];
    try (injection Heq as <- <-; reflexivity); eapply IH; eauto.
Qed.

Lemma slotsHeld_none cs :
  (forall c ph, In (c, ph) cs -> holdsSlot ph = false) -> slotsHeld cs = 0%nat.
Proof.
  unfold slotsHeld. induction cs as [|[c ph] cs IH]; intros H; simpl;
    [reflexivity|].
  rewrite (H c ph (or_introl eq_refl)). apply IH.
  intros c' ph' Hin. apply (H c' ph'). right. exact Hin.
Qed.

Lemma work_zero cfg cs c ph :
  work cfg cs = 0%nat -> phaseOf c cs = Some ph ->
  exists r tried, ph = Done r tried.
Proof.
  intros Hw Hc. apply phaseOf_entry in Hc. unfold work in Hw.
  induction cs as [|[c' ph'] cs IH]; simpl in *; [contradiction|].
  destruct Hc as [Heq|Hin].
  - injection Heq as -> ->. destruct ph; simpl in Hw; try lia. eauto.
  - apply IH; [lia | exact Hin].
Qed.

(** The action [nextAction] proposes is enabled. *)
Lemma nextAction_enabled cfg out clock pl a :
  distinctCallers pl ->
  nextAction out clock (calls pl) = Some a ->
  (exists pl', act cfg pl a = Some pl')
  /\ (forall c, a <> Invoke c)
  /\ forall c, Forall (fun d => snd d = out c (fst d)) (delivered pl a c).
Proof.
  intros Hnd Hnext.
  destruct (nextAction_some out clock (calls pl) a Hnext)
    as [c [ph [Hin [[todo [tried [le [-> ->]]]]
                   |[key [rest [tried [le [-> ->]]]]]]]]];
    pose proof (phaseOf_In c _ (calls pl) Hnd Hin) as Hc.
  - split; [|split].
    + cbn [act]. rewrite Hc. destruct todo as [|key rest]; [eauto|].
      destruct (beginTurn clock key (store (shared pl))); eauto.
    + intros c'. discriminate.
    + intros c'. constructor.
  - split; [|split].
    + cbn [act]. rewrite Hc. unfold endTurn.
      destruct (out c key) as [[text|]|e]; [destruct (Js.truthy text)| |];
        eauto.
    + intros c'. discriminate.
    + intros c'. cbn [delivered].
      destruct (Nat.eqb c c') eqn:E; [|constructor].
      apply Nat.eqb_eq in E. subst c'. rewrite Hc.
      constructor; [reflexivity | constructor].
Qed.

(** With enough fuel the calls of the pool all settle, along a schedule in
    which every provider call settles as [out] says. *)
Lemma drain_completes cfg out clock : forall fuel pl,
  consistent pl -> suspendedListed pl ->
  fullWhenWaiting (gate (shared pl)) -> distinctCallers pl ->
  (work cfg (calls pl) <= fuel)%nat ->
  schedule cfg pl (fst (drain cfg out clock fuel pl))
  = Some (snd (drain cfg out clock fuel pl))
  /\ (forall c, phaseOf c (calls pl) <> None ->
        exists r tried,
          phaseOf c (calls (snd (drain cfg out clock fuel pl)))
          = Some (Done r tried))
  /\ (forall c, Forall (fun d => snd d = out c (fst d))
                       (transcript cfg pl (fst (drain cfg out clock fuel pl)) c)).
Proof.
  induction fuel as [|fuel IH]; intros pl Hcons Hlisted Hfull Hnd Hwork.
  - cbn [drain fst snd schedule transcript].
    split; [reflexivity|]. split; [|intros c; constructor].
    intros c Hc. destruct (phaseOf c (calls pl)) as [ph|] eqn:Hph;
      [|contradiction Hc; reflexivity].
    destruct (work_zero cfg (calls pl) c ph ltac:(lia) Hph) as [r [tried ->]].
    eauto.
  - cbn [drain].
    destruct (nextAction out clock (calls pl)) as [a|] eqn:Hnext.
    + destruct (nextAction_enabled cfg out clock pl a Hnd Hnext)
        as [[pl1 Hact] [Hstep Hout]].
      rewrite Hact.
      pose proof (act_decreases cfg pl a pl1 Hcons Hact Hstep) as Hless.
      destruct (IH pl1
                  (PoolFacts.consistent_act cfg pl a pl1 Hcons Hact)
                  (GateProps.suspendedListed_act cfg pl a pl1 Hcons Hlisted Hact)
                  (GateProps.fullWhenWaiting_act cfg pl a pl1 Hfull Hact)
                  (distinctCallers_act cfg pl a pl1 Hnd Hact)
                  ltac:(lia)) as [Hs [Hdone Htr]].
      destruct (drain cfg out clock fuel pl1) as [acts pl2].
      cbn [fst snd] in *. cbn [schedule transcript]. rewrite Hact.
      split; [exact Hs|]. split.
      * intros c Hc. apply Hdone. eapply present_act; eauto.
      * intros c. apply Forall_app. split; [apply Hout | apply Htr].
    + cbn [fst snd schedule transcript].
      split; [reflexivity|]. split; [|intros c; constructor].
      intros c Hc. destruct (phaseOf c (calls pl)) as [ph|] eqn:Hph;
        [|contradiction Hc; reflexivity].
      pose proof (nextAction_none out clock (calls pl) Hnext) as Hidle.
      pose proof (Hidle c ph (phaseOf_entry c ph _ Hph)) as Hph'.
      destruct ph as [|todo tried le|key rest tried le|r tried];
        try discriminate Hph'; [|eauto].
      exfalso.
      pose proof (Hlisted c Hph) as Hin.
      pose proof (slotsHeld_none (calls pl) Hidle) as Hzero.
      pose proof (running_counts Hcons) as Hcnt.
      pose proof (maximum_fixed Hcons) as Hmax.
      destruct Hfull as [_ [Hempty|Hrun]].
      * rewrite Hempty in Hin. destruct Hin.
      * rewrite Hzero in Hcnt. simpl in Hcnt. lia.
Qed.

(** *** What holds of every pool that is reached *)

Lemma distinctCallers_schedule cfg acts : forall pl pl',
  distinctCallers pl -> schedule cfg pl acts = Some pl' -> distinctCallers pl'.
Proof.
  induction acts as [|a acts IH]; intros pl pl' Hnd; simpl.
  - intros H. injection H as <-. exact Hnd.
  - destruct (act cfg pl a) as [pl1|] eqn:Ha; [|discriminate].
    apply IH. eapply distinctCallers_act; eauto.
Qed.

Lemma reached cfg acts pl :
  schedule cfg (start cfg) acts = Some pl ->
  consistent pl /\ suspendedListed pl
  /\ fullWhenWaiting (gate (shared pl)) /\ distinctCallers pl.
Proof.
  intros Hreach.
  assert (H0 : suspendedListed (start cfg)) by (intros c Hc; discriminate Hc).
  assert (H1 : fullWhenWaiting (gate (shared (start cfg))))
    by (split; simpl; [lia | left; reflexivity]).
  destruct (GateProps.waiting_schedule cfg acts (start cfg) pl
              (PoolFacts.consistent_start cfg) H0 H1 Hreach) as [Hc [Hl Hq]].
  split; [exact Hc|]. split; [exact Hl|]. split; [exact Hq|].
  apply (distinctCallers_schedule cfg acts (start cfg) pl); [|exact Hreach].
  constructor.
Qed.

(** A call that settled without a usable completion threw the error
    raised after the loop. *)
Lemma accounted_unusable cfg tr r tried :
  accounted cfg tr (Some (Done r tried)) ->
  forallb unusableCall tr = true ->
  exists msg, r = RejectedWith (LLMError "all" msg).
Proof.
  destruct r as [text|e]; cbn [accounted].
  - intros [earlier [key [done [rest [-> [Htext _]]]]]] Hnone.
    rewrite forallb_app in Hnone. apply andb_true_iff in Hnone.
    destruct Hnone as [_ Hlast]. cbn [forallb] in Hlast.
    unfold unusableCall in Hlast. cbn [snd usableOutcome] in Hlast.
    rewrite Htext in Hlast. discriminate Hlast.
  - intros [_ [_ [_ ->]]] _.
    destruct (exhausted_is_LLMError (lastErrorOf tr)) as [msg ->]. eauto.
Qed.

Lemma unusable_follows (out : caller -> ProviderSlot -> Outcome) c tr :
  (forall key, usableOutcome (out c key) = false) ->
  Forall (fun d => snd d = out c (fst d)) tr ->
  forallb unusableCall tr = true.
Proof.
  intros Hout Htr. apply forallb_forall. intros d Hd.
  rewrite Forall_forall in Htr. unfold unusableCall.
  rewrite (Htr d Hd), Hout. reflexivity.
Qed.

(** C2: along every interleaving of [generateCompletion] calls, whether
    the call was granted its slot at once or waited for it, a call for which
    no provider produces a non-empty completion attempts the providers of
    [PROVIDER_PRIORITY] in order, none of them twice; once it has settled it
    has thrown the one [LLMError] raised after the loop and takes no further
    step; and it does settle: when the calls run on, the provider calls
    settling without a non-empty completion for this call, it ends having
    thrown that error. *)
Theorem exhausted_chain_throws_once
    (cfg : AiConfig) (acts : list Action) (pl : Pool) (c : caller)
    (Hreach : schedule cfg (start cfg) acts = Some pl)
    (Hcalled : phaseOf c (calls pl) <> None)
    (Hnone : forallb unusableCall (transcript cfg (start cfg) acts c) = true) :
  (forall ph, phaseOf c (calls pl) = Some ph ->
      Subsequence (triedOf ph) (PROVIDER_PRIORITY cfg)
      /\ NoDup (triedOf ph)
      /\ forall r tried, ph = Done r tried ->
           tried = map fst (transcript cfg (start cfg) acts c)
           /\ (exists msg, r = RejectedWith (LLMError "all" msg))
           /\ (forall a, actor a = c -> act cfg pl a = None)
           /\ (forall acts' pl',
                  schedule cfg pl acts' = Some pl' ->
                  phaseOf c (calls pl') = Some (Done r tried)))
  /\ (forall out clock,
        (forall key, usableOutcome (out c key) = false) ->
        let rest := drain cfg out clock (work cfg (calls pl)) pl in
        schedule cfg pl (fst rest) = Some (snd rest)
        /\ exists msg tried,
             phaseOf c (calls (snd rest))
             = Some (Done (RejectedWith (LLMError "all" msg)) tried)
             /\ Subsequence tried (PROVIDER_PRIORITY cfg)
             /\ NoDup tried).
Proof.
  destruct (reached cfg acts pl Hreach) as [Hcons [Hlisted [Hfull Hnd]]].
  pose proof (accounted_from_start cfg acts pl c Hreach) as Hacc.
  split.
  - intros ph Hph. rewrite Hph in Hacc.
    pose proof (accounted_tried cfg _ ph Hacc) as Hsub.
    split; [exact Hsub|]. split.
    { eapply FallbackFacts.Subsequence_NoDup; [exact Hsub|].
      apply FallbackFacts.NoDup_PROVIDER_PRIORITY. }
    intros r tried ->. split; [|split; [|split]].
    + destruct r as [text|e]; cbn [accounted] in Hacc.
      * destruct Hacc as [earlier [key [done [rest [Htr [_ [_ [-> _]]]]]]]].
        rewrite Htr, map_app. reflexivity.
      * destruct Hacc as [_ [-> _]]. reflexivity.
    + exact (accounted_unusable cfg _ r tried Hacc Hnone).
    + intros a Ha. exact (act_done_disabled cfg pl a c r tried Hph Ha).
    + intros acts' pl' Hs.
      exact (proj1 (done_is_final cfg acts' pl pl' c r tried Hcons Hph Hs)).
  - intros out clock Hout rest.
    destruct (drain_completes cfg out clock (work cfg (calls pl)) pl
                Hcons Hlisted Hfull Hnd (Nat.le_refl _))
      as [Hs [Hdone Htr]].
    fold rest in Hs, Hdone, Htr. split; [exact Hs|].
    destruct (Hdone c Hcalled) as [r [tried Hph]].
    assert (Hreach' : schedule cfg (start cfg) (acts ++ fst rest)
                      = Some (snd rest)).
    { rewrite schedule_app, Hreach. exact Hs. }
    pose proof (accounted_from_start cfg _ _ c Hreach') as Hacc'.
    rewrite (transcript_app cfg acts c (start cfg) pl (fst rest) Hreach),
            Hph in Hacc'.
    assert (Hnone' : forallb unusableCall
                       (transcript cfg (start cfg) acts c
                        ++ transcript cfg pl (fst rest) c) = true).
    { rewrite forallb_app, Hnone.
      apply (unusable_follows out c _ Hout (Htr c)). }
    destruct (accounted_unusable cfg _ r tried Hacc' Hnone') as [msg ->].
    exists msg, tried. split; [exact Hph|].
    pose proof (accounted_tried cfg _ _ Hacc') as Hsub. cbn [triedOf] in Hsub.
    split; [exact Hsub|].
    eapply FallbackFacts.Subsequence_NoDup; [exact Hsub|].
    apply FallbackFacts.NoDup_PROVIDER_PRIORITY.
Qed.

Lemma exhausted_chain_witness :
  schedule fullConfig (start fullConfig) flood = Some afterFlood
  /\ phaseOf 3 (calls afterFlood) = Some (InLoop allSlots [] None)
  /\ exists msg tried,
       phaseOf 3 (calls (snd (drain fullConfig allRejected 2000
                                (work fullConfig (calls afterFlood))
                                afterFlood)))
       = Some (Done (RejectedWith (LLMError "all" msg)) tried)
       /\ NoDup tried.
Proof.
  assert (H : schedule fullConfig (start fullConfig) flood = Some afterFlood)
    by reflexivity.
  assert (Hph : phaseOf 3 (calls afterFlood) = Some (InLoop allSlots [] None))
    by reflexivity.
  destruct (exhausted_chain_throws_once fullConfig flood afterFlood 3 H)
    as [_ Hends].
  - rewrite Hph. discriminate.
  - reflexivity.
  - destruct (Hends allRejected 2000%Z (fun _ => eq_refl))
      as [_ [msg [tried [Hdone [_ Hnd]]]]].
    split; [exact H|]. split; [exact Hph|].
    exists msg, tried. split; [exact Hdone | exact Hnd].
Defined.

(** X11: along every interleaving of [generateCompletion] calls, when a
    call returns a text, that text is the non-empty completion of one
    provider of [PROVIDER_PRIORITY], which is the last provider the call
    attempted: the providers attempted before it come before it in priority
    order and none of them produced a non-empty completion, and the call
    takes no further step, so that no provider after it is attempted. *)
Theorem first_usable_completion_wins
    (cfg : AiConfig) (acts : list Action) (pl : Pool) (c : caller)
    (text : string) (tried : list ProviderSlot)
    (Hreach : schedule cfg (start cfg) acts = Some pl)
    (Htext : phaseOf c (calls pl) = Some (Done (Fulfilled text) tried)) :
  exists earlier key before later,
    transcript cfg (start cfg) acts c
    = earlier ++ [(key, Resolved (Some text))]
    /\ text <> EmptyString
    /\ forallb unusableCall earlier = true
    /\ tried = map fst earlier ++ [key]
    /\ PROVIDER_PRIORITY cfg = before ++ key :: later
    /\ Subsequence (map fst earlier) before
    /\ (forall a, actor a = c -> act cfg pl a = None)
    /\ (forall acts' pl',
           schedule cfg pl acts' = Some pl' ->
           phaseOf c (calls pl') = Some (Done (Fulfilled text) tried)
           /\ transcript cfg pl acts' c = []).
Proof.
  destruct (reached cfg acts pl Hreach) as [Hcons _].
  pose proof (accounted_from_start cfg acts pl c Hreach) as Hacc.
  rewrite Htext in Hacc. cbn [accounted] in Hacc.
  destruct Hacc as [earlier [key [done [rest [Htr [Htruthy [Hnone [Htried
                   [Hprio Hsub]]]]]]]]].
  exists earlier, key, done, rest.
  split; [exact Htr|]. split.
  { intros ->. discriminate Htruthy. }
  split; [exact Hnone|]. split; [exact Htried|]. split; [exact Hprio|].
  split; [exact Hsub|]. split.
  - intros a Ha. exact (act_done_disabled cfg pl a c _ tried Htext Ha).
  - intros acts' pl' Hs.
    exact (done_is_final cfg acts' pl pl' c _ tried Hcons Htext Hs).
Qed.

Lemma first_usable_completion_witness :
  schedule fullConfig (start fullConfig) queuedCall = Some afterQueuedCall
  /\ phaseOf 3 (calls afterQueuedCall)
     = Some (Done (Fulfilled "answer"%string) [gemini1; gemini2; gemini3])
  /\ exists earlier,
       transcript fullConfig (start fullConfig) queuedCall 3
       = earlier ++ [(gemini3, Resolved (Some "answer"%string))]
       /\ forallb unusableCall earlier = true.
Proof.
  assert (H : schedule fullConfig (start fullConfig) queuedCall
              = Some afterQueuedCall) by reflexivity.
  assert (Hph : phaseOf 3 (calls afterQueuedCall)
                = Some (Done (Fulfilled "answer"%string)
                             [gemini1; gemini2; gemini3])) by reflexivity.
  destruct (first_usable_completion_wins fullConfig queuedCall afterQueuedCall
              3 "answer"%string [gemini1; gemini2; gemini3] H Hph)
    as [earlier [key [before [later [Htr [_ [Hnone [Htried _]]]]]]]].
  split; [exact H|]. split; [exact Hph|].
  exists earlier. split; [|exact Hnone].
  assert (Hkey : key = gemini3).
  { apply (f_equal (@rev _)) in Htried. rewrite rev_app_distr in Htried.
    simpl in Htried. injection Htried as <- _. reflexivity. }
  rewrite <- Hkey. exact Htr.
Defined.

(** *** No provider configured *)

Lemma Subsequence_of_nil {A} (l : list A) : Subsequence l [] -> l = [].
Proof. intros H. inversion H. reflexivity. Qed.

Lemma unconfigured_phase cfg tr ph :
  PROVIDER_PRIORITY cfg = [] ->
  accounted cfg tr (Some ph) ->
  tr = []
  /\ (ph = Suspended \/ ph = InLoop [] [] None
      \/ ph = Done (RejectedWith (LLMError "all" "All LLM providers failed"))
                   []).
Proof.
  intros Hempty.
  destruct ph as [|todo tried le|key rest tried le|[text|e] tried];
    cbn [accounted]; rewrite ?Hempty.
  - intros ->. auto.
  - intros [[done [Hprio Hsub]] [Htried [_ Hle]]].
    symmetry in Hprio. apply app_eq_nil in Hprio. destruct Hprio as [-> ->].
    apply Subsequence_of_nil in Hsub. rewrite Hsub in Htried.
    symmetry in Htried. apply map_eq_nil in Htried. subst tr tried.
    split; [reflexivity|]. right. left. rewrite Hle. reflexivity.
  - intros [[done [Hprio _]] _]. symmetry in Hprio.
    apply app_eq_nil in Hprio. destruct Hprio as [_ Hprio]. discriminate Hprio.
  - intros [earlier [key [done [rest [_ [_ [_ [_ [Hprio _]]]]]]]]].
    symmetry in Hprio. apply app_eq_nil in Hprio.
    destruct Hprio as [_ Hprio]. discriminate Hprio.
  - intros [_ [Htried [Hsub He]]].
    apply Subsequence_of_nil in Hsub. rewrite Hsub in Htried.
    symmetry in Htried. apply map_eq_nil in Htried. subst tr tried.
    split; [reflexivity|]. right. right. rewrite He. reflexivity.
Qed.

Lemma configured_iff cfg key :
  In key (PROVIDER_PRIORITY cfg)
  <-> Js.truthy (apiKey (slots cfg key))
      && Js.truthy (slotModel (slots cfg key)) = true.
Proof.
  unfold PROVIDER_PRIORITY. rewrite filter_In. split.
  - intros [_ H]. destruct key; exact H.
  - intros H. split; [destruct key; simpl; tauto | destruct key; exact H].
Qed.

Lemma unconfigured_priority cfg :
  (forall key, Js.truthy (apiKey (slots cfg key))
               && Js.truthy (slotModel (slots cfg key)) = false) ->
  PROVIDER_PRIORITY cfg = [].
Proof.
  intros Hnone.
  destruct (PROVIDER_PRIORITY cfg) as [|key rest] eqn:Hp; [reflexivity|].
  assert (Hin : In key (PROVIDER_PRIORITY cfg)) by (rewrite Hp; left; reflexivity).
  apply configured_iff in Hin. rewrite Hnone in Hin. discriminate Hin.
Qed.

(** Without providers no step touches the provider table. *)
Lemma unconfigured_store cfg acts :
  PROVIDER_PRIORITY cfg = [] ->
  forall pl, schedule cfg (start cfg) acts = Some pl ->
             store (shared pl) = providers cfg.
Proof.
  intros Hempty. induction acts as [|a acts IH] using rev_ind; intros pl.
  - simpl. intros H. injection H as <-. reflexivity.
  - rewrite schedule_app.
    destruct (schedule cfg (start cfg) acts) as [pl1|] eqn:Hs; [|discriminate].
    simpl. destruct (act cfg pl1 a) as [pl2|] eqn:Ha; [|discriminate].
    intros H. injection H as <-.
    specialize (IH pl1 eq_refl).
    assert (Hph : forall c ph, phaseOf c (calls pl1) = Some ph ->
              ph = Suspended \/ ph = InLoop [] [] None
              \/ ph = Done (RejectedWith
                              (LLMError "all" "All LLM providers failed")) []).
    { intros c ph Hc.
      pose proof (accounted_from_start cfg acts pl1 c Hs) as Hacc.
      rewrite Hc in Hacc.
      exact (proj2 (unconfigured_phase cfg _ ph Hempty Hacc)). }
    destruct a as [c|c t|c out t]; cbn [act] in Ha.
    + destruct (phaseOf c (calls pl1)); [discriminate|].
      destruct (acquire c (gate (shared pl1))) as [q granted].
      injection Ha as <-. exact IH.
    + destruct (phaseOf c (calls pl1)) as [ph|] eqn:Hc; [|discriminate].
      destruct (Hph c ph Hc) as [-> | [-> | ->]]; try discriminate.
      injection Ha as <-. unfold leave.
      destruct (release (gate (shared pl1))) as [q woken]. exact IH.
    + destruct (phaseOf c (calls pl1)) as [ph|] eqn:Hc; [|discriminate].
      destruct (Hph c ph Hc) as [-> | [-> | ->]]; discriminate.
Qed.

(** X12: a provider is in [PROVIDER_PRIORITY] exactly when both its API
    key and its model are configured.  When none is, along every
    interleaving of [generateCompletion] calls the provider table stays as
    built and no call attempts anybody: a call that holds a slot throws the
    [LLMError] with the message [All LLM providers failed] at its first
    step, and that is the error of every call that has settled. *)
Theorem unconfigured_chain_fails_at_once (cfg : AiConfig) :
  (forall key, In key (PROVIDER_PRIORITY cfg)
               <-> Js.truthy (apiKey (slots cfg key))
                   && Js.truthy (slotModel (slots cfg key)) = true)
  /\ ((forall key, Js.truthy (apiKey (slots cfg key))
                   && Js.truthy (slotModel (slots cfg key)) = false) ->
      forall acts pl c ph,
        schedule cfg (start cfg) acts = Some pl ->
        phaseOf c (calls pl) = Some ph ->
        store (shared pl) = providers cfg
        /\ triedOf ph = []
        /\ transcript cfg (start cfg) acts c = []
        /\ (forall r tried,
               ph = Done r tried ->
               r = RejectedWith (LLMError "all" "All LLM providers failed"))
        /\ (holdsSlot ph = true ->
            forall t, exists pl',
              act cfg pl (Advance c t) = Some pl'
              /\ phaseOf c (calls pl')
                 = Some (Done (RejectedWith
                                 (LLMError "all" "All LLM providers failed"))
                              [])
              /\ store (shared pl') = providers cfg)).
Proof.
  split; [apply configured_iff|].
  intros Hnone acts pl c ph Hreach Hph.
  pose proof (unconfigured_priority cfg Hnone) as Hempty.
  pose proof (unconfigured_store cfg acts Hempty pl Hreach) as Hstore.
  destruct (reached cfg acts pl Hreach) as [Hcons _].
  pose proof (accounted_from_start cfg acts pl c Hreach) as Hacc.
  rewrite Hph in Hacc.
  destruct (unconfigured_phase cfg _ ph Hempty Hacc) as [Htr Hform].
  split; [exact Hstore|]. split.
  { destruct Hform as [-> | [-> | ->]]; reflexivity. }
  split; [exact Htr|]. split.
  { intros r tried ->. destruct Hform as [H|[H|H]]; try discriminate H.
    injection H as -> _. reflexivity. }
  intros Hholds t.
  destruct Hform as [-> | [-> | ->]]; try discriminate Hholds.
  eexists. cbn [act]. rewrite Hph. split; [reflexivity|]. split.
  - rewrite (phaseOf_leave cfg pl c _ _ [] _ c Hcons Hph eq_refl).
    rewrite Nat.eqb_refl. reflexivity.
  - unfold leave. destruct (release (gate (shared pl))) as [q woken].
    exact Hstore.
Qed.

Lemma unconfigured_chain_witness :
  schedule bareConfig (start bareConfig) bareCalls = Some afterBareCalls
  /\ phaseOf 1 (calls afterBareCalls)
     = Some (Done (RejectedWith (LLMError "all" "All LLM providers failed")) [])
  /\ phaseOf 3 (calls afterBareCalls) = Some (InLoop [] [] None)
  /\ exists pl',
       act bareConfig afterBareCalls (Advance 3 2000) = Some pl'
       /\ phaseOf 3 (calls pl')
          = Some (Done (RejectedWith
                          (LLMError "all" "All LLM providers failed")) []).
Proof.
  assert (H : schedule bareConfig (start bareConfig) bareCalls
              = Some afterBareCalls) by reflexivity.
  assert (H3 : phaseOf 3 (calls afterBareCalls) = Some (InLoop [] [] None))
    by reflexivity.
  destruct (unconfigured_chain_fails_at_once bareConfig) as [_ Hbare].
  destruct (Hbare (fun _ => eq_refl) bareCalls afterBareCalls 3 _ H H3)
    as [_ [_ [_ [_ Hfails]]]].
  destruct (Hfails eq_refl 2000%Z) as [pl' [Hact [Hdone _]]].
  split; [exact H|]. split; [reflexivity|]. split; [exact H3|].
  exists pl'. split; [exact Hact | exact Hdone].
Defined.

End CallFacts.
